(** * convert.js: one GeoJSON file per named object of a TopoJSON document

    The program under verification is the script [data/convert.js]:
<<
    const input = JSON.parse(await fs.readFile('./data/swiss_stuffes.json', 'utf-8'));
    for (const [key] of Object.entries(input.objects)) {
        const geojson = topojson.feature(input, input.objects[key]);
        await fs.writeFile(`./data/${key}.geojson`, JSON.stringify(geojson, null, 2));
    }
>>
    The script itself is embedded as [convert] (section [Script]).  Everything
    it calls lives outside the repository and is modelled here from its public
    definition:
    - JavaScript values, [Object.entries], [JSON.parse] and [JSON.stringify]
      follow ECMA-262 (modules [JS] and [JSON]);
    - [fs.readFile] and [fs.writeFile] act on a POSIX-like file tree without
      symbolic links, permissions or quotas (module [Fs]);
    - [topojson.feature] is a parameter of the script in every general
      statement; module [Topojson] gives the decoder of topojson-client 3 on
      well-typed geometry objects, for the statements about decoded content. *)

From Stdlib Require Import ZArith NArith List Ascii String Decimal DecimalN DecimalFacts Lia.
From stdpp Require Import base option list gmap strings.

Set Warnings "-register-all".
Open Scope N_scope.

(** ** JavaScript strings

    A JavaScript string is a sequence of UTF-16 code units.  Text read from
    and written to files is kept as such a sequence too: the UTF-8 coding
    that Node applies at the file boundary is not part of the model. *)

Abbreviation jstring := (list N).

(** The code units of an ASCII literal. *)
Definition js (s : string) : jstring :=
  N_of_ascii <$> list_ascii_of_string s.

Module Char.
Definition NUL := 0.
Definition BS := 8.
Definition TAB := 9.
Definition LF := 10.
Definition FF := 12.
Definition CR := 13.
Definition SPACE := 32.
Definition QUOTE := 34.
Definition PLUS := 43.
Definition COMMA := 44.
Definition MINUS := 45.
Definition DOT := 46.
Definition SLASH := 47.
Definition ZERO := 48.
Definition COLON := 58.
Definition LBRACKET := 91.
Definition BACKSLASH := 92.
Definition RBRACKET := 93.
Definition LBRACE := 123.
Definition RBRACE := 125.
End Char.

(** *** Decimal numerals *)

Definition is_digit (c : N) : bool := (48 <=? c) && (c <=? 57).

Fixpoint uint_chars (d : Decimal.uint) : jstring :=
  match d with
  | Nil => []
  | D0 d => 48 :: uint_chars d
  | D1 d => 49 :: uint_chars d
  | D2 d => 50 :: uint_chars d
  | D3 d => 51 :: uint_chars d
  | D4 d => 52 :: uint_chars d
  | D5 d => 53 :: uint_chars d
  | D6 d => 54 :: uint_chars d
  | D7 d => 55 :: uint_chars d
  | D8 d => 56 :: uint_chars d
  | D9 d => 57 :: uint_chars d
  end.

Definition digit_cons (c : N) : option (Decimal.uint → Decimal.uint) :=
  match c with
  | 48 => Some D0 | 49 => Some D1 | 50 => Some D2 | 51 => Some D3
  | 52 => Some D4 | 53 => Some D5 | 54 => Some D6 | 55 => Some D7
  | 56 => Some D8 | 57 => Some D9
  | _ => None
  end.

Fixpoint chars_uint (s : jstring) : option Decimal.uint :=
  match s with
  | [] => Some Nil
  | c :: s =>
      match digit_cons c, chars_uint s with
      | Some f, Some d => Some (f d)
      | _, _ => None
      end
  end.

(** [ToString] of a non-negative integer: its decimal digits, no leading zero. *)
Definition N_to_string (n : N) : jstring := uint_chars (N.to_uint n).

Definition nat_to_string (n : nat) : jstring := N_to_string (N.of_nat n).

(** The integer a canonical decimal numeral denotes ("007" and "" denote
    none). *)
Definition canonical_N (s : jstring) : option N :=
  match chars_uint s with
  | Some d =>
      let n := N.of_uint d in
      if decide (N_to_string n = s) then Some n else None
  | None => None
  end.

(** ECMA-262 array index: a canonical numeral below 2^32 - 1. *)
Definition array_index (s : jstring) : option N :=
  match canonical_N s with
  | Some n => if n <? 4294967295 then Some n else None
  | None => None
  end.

(** ** Outcomes *)

Inductive error : Set :=
| ENOENT                 (* no such file or directory *)
| ENOTDIR                (* a path component is not a directory *)
| EISDIR                 (* the path names a directory *)
| ERR_INVALID_ARG_VALUE  (* a path with a null character *)
| ERR_INVALID_ARG_TYPE   (* data that is neither string nor buffer *)
| SyntaxError            (* JSON.parse on text outside the JSON grammar *)
| TypeError              (* property access on null or undefined, call of a non-function *)
| Unmodelled.            (* behaviour that rests on coercions outside the model *)

Inductive result (A : Type) : Type :=
| Ok (a : A)
| Throw (e : error).
Arguments Ok {A} a.
Arguments Throw {A} e.

Definition rbind {A B} (r : result A) (k : A → result B) : result B :=
  match r with
  | Ok a => k a
  | Throw e => Throw e
  end.

Fixpoint rmap {A B} (f : A → result B) (l : list A) : result (list B) :=
  match l with
  | [] => Ok []
  | a :: l =>
      rbind (f a) (λ b, rbind (rmap f l) (λ bs, Ok (b :: bs)))
  end.

Definition is_ok {A} (r : result A) : bool :=
  match r with Ok _ => true | Throw _ => false end.

(** ** JavaScript values *)

Module JS.

(** Numbers are IEEE-754 doubles in JavaScript.  The model is generic in
    their representation: it only needs the conversions between a number
    and its text, and the few operations the decoder applies. *)
Class Number (num : Type) := {
  (** [StringToNumber] on a numeral of the JSON grammar. *)
  StringToNumber : jstring → num;
  (** [Number::toString]; [None] for NaN and the infinities, which
      [JSON.stringify] writes as [null]. *)
  NumberToString : num → option jstring;
  num_zero : num;
  num_add : num → num → num;
  num_mul : num → num → num;
  (** [x < 0]. *)
  num_ltz : num → bool;
  (** [ToInt32 x]. *)
  ToInt32 : num → Z;
  (** The array index that the property key [ToString x] denotes. *)
  num_index : num → option N;
  (** The number of an array length. *)
  num_of_N : N → num;
}.

Section Values.
Context `{Number num}.

(** *** Data

    A value as a tree: what [JSON.parse] computes from a text and what
    [JSON.stringify] writes out. *)

Unset Elimination Schemes.
Inductive value : Type :=
| VUndef
| VNull
| VBool (b : bool)
| VNum (n : num)
| VStr (s : jstring)
| VArr (l : list value)
(** Own enumerable properties in [OwnPropertyKeys] order. *)
| VObj (l : list (jstring * value)).
Set Elimination Schemes.

Definition lookup_key {A} (k : jstring) (l : list (jstring * A)) : option A :=
  snd <$> find (λ kv, bool_decide (kv.1 = k)) l.

(** [CreateDataProperty]: an existing key keeps its place; a new array
    index goes after the smaller indices; any other new key goes last. *)
Fixpoint insert_index {A} (i : N) (k : jstring) (v : A)
    (l : list (jstring * A)) : list (jstring * A) :=
  match l with
  | [] => [(k, v)]
  | (k', v') :: l' =>
      match array_index k' with
      | Some j =>
          if j <? i then (k', v') :: insert_index i k v l'
          else (k, v) :: l
      | None => (k, v) :: l
      end
  end.

Fixpoint replace_key {A} (k : jstring) (v : A)
    (l : list (jstring * A)) : list (jstring * A) :=
  match l with
  | [] => []
  | (k', v') :: l' =>
      if decide (k' = k) then (k, v) :: l'
      else (k', v') :: replace_key k v l'
  end.

Definition set_prop {A} (k : jstring) (v : A)
    (l : list (jstring * A)) : list (jstring * A) :=
  match lookup_key k l with
  | Some _ => replace_key k v l
  | None =>
      match array_index k with
      | Some i => insert_index i k v l
      | None => l ++ [(k, v)]
      end
  end.

Definition length_of {A} (l : list A) : num := num_of_N (N.of_nat (length l)).

(** [v[k]] for a key [k] that no prototype object defines, so that only
    own properties answer. *)
Definition get_own (v : value) (k : jstring) : result value :=
  match v with
  | VUndef | VNull => Throw TypeError
  | VObj l => Ok (default VUndef (lookup_key k l))
  | VArr l =>
      Ok (match array_index k with
          | Some i => default VUndef (l !! N.to_nat i)
          | None => if decide (k = js "length") then VNum (length_of l) else VUndef
          end)
  | VStr s =>
      Ok (match array_index k with
          | Some i => from_option (λ c, VStr [c]) VUndef (s !! N.to_nat i)
          | None => if decide (k = js "length") then VNum (length_of s) else VUndef
          end)
  | VBool _ | VNum _ => Ok VUndef
  end.

(** [Object.entries]. *)
Definition Object_entries (v : value) : result (list (jstring * value)) :=
  match v with
  | VUndef | VNull => Throw TypeError
  | VObj l => Ok l
  | VArr l => Ok (imap (λ i x, (nat_to_string i, x)) l)
  | VStr s => Ok (imap (λ i c, (nat_to_string i, VStr [c])) s)
  | VBool _ | VNum _ => Ok []
  end.

(** *** The object heap

    In a running program arrays and objects are mutable cells, and a
    value is a primitive or a reference to a cell.  Cells are never
    freed; a new cell is appended to the heap. *)

Inductive hval : Type :=
| HUndef
| HNull
| HBool (b : bool)
| HNum (n : num)
| HStr (s : jstring)
| HRef (l : nat).

Inductive cell : Type :=
| CArr (items : list hval)
| CObj (props : list (jstring * hval)).

#[local] Abbreviation heap := (list cell).

(** Heap computations that may throw. *)
Definition HM (A : Type) : Type := heap → result A * heap.

Definition hret {A} (a : A) : HM A := λ h, (Ok a, h).
Definition hthrow {A} (e : error) : HM A := λ h, (Throw e, h).
Definition hbind {A B} (m : HM A) (k : A → HM B) : HM B :=
  λ h, match m h with
       | (Ok a, h') => k a h'
       | (Throw e, h') => (Throw e, h')
       end.
Definition hlift {A} (f : heap → result A) : HM A := λ h, (f h, h).

Definition new (c : cell) : HM hval := λ h, (Ok (HRef (length h)), h ++ [c]).

Fixpoint hmap {A B} (f : A → HM B) (l : list A) : HM (list B) :=
  match l with
  | [] => hret []
  | a :: l => hbind (f a) (λ b, hbind (hmap f l) (λ bs, hret (b :: bs)))
  end.

(** [x[k]], under the proviso of [get_own]. *)
Definition get (h : heap) (x : hval) (k : jstring) : result hval :=
  match x with
  | HUndef | HNull => Throw TypeError
  | HRef l =>
      match h !! l with
      | Some (CObj props) => Ok (default HUndef (lookup_key k props))
      | Some (CArr items) =>
          Ok (match array_index k with
              | Some i => default HUndef (items !! N.to_nat i)
              | None => if decide (k = js "length") then HNum (length_of items) else HUndef
              end)
      | None => Throw Unmodelled
      end
  | HStr s =>
      Ok (match array_index k with
          | Some i => from_option (λ c, HStr [c]) HUndef (s !! N.to_nat i)
          | None => if decide (k = js "length") then HNum (length_of s) else HUndef
          end)
  | HBool _ | HNum _ => Ok HUndef
  end.

(** [Object.entries(x)]; the fresh arrays that hold the result are
    not kept in the heap, nothing else can refer to them. *)
Definition entries (h : heap) (x : hval) : result (list (jstring * hval)) :=
  match x with
  | HUndef | HNull => Throw TypeError
  | HRef l =>
      match h !! l with
      | Some (CObj props) => Ok props
      | Some (CArr items) => Ok (imap (λ i y, (nat_to_string i, y)) items)
      | None => Throw Unmodelled
      end
  | HStr s => Ok (imap (λ i c, (nat_to_string i, HStr [c])) s)
  | HBool _ | HNum _ => Ok []
  end.

(** Builds the cells of a tree, children first. *)
Fixpoint alloc (v : value) (h : heap) : hval * heap :=
  match v with
  | VUndef => (HUndef, h)
  | VNull => (HNull, h)
  | VBool b => (HBool b, h)
  | VNum n => (HNum n, h)
  | VStr s => (HStr s, h)
  | VArr l =>
      let '(xs, h') :=
        (fix items (l : list value) (h : heap) : list hval * heap :=
           match l with
           | [] => ([], h)
           | v :: l =>
               let '(x, h) := alloc v h in
               let '(xs, h) := items l h in
               (x :: xs, h)
           end) l h in
      (HRef (length h'), h' ++ [CArr xs])
  | VObj l =>
      let '(ps, h') :=
        (fix props (l : list (jstring * value)) (h : heap)
             : list (jstring * hval) * heap :=
           match l with
           | [] => ([], h)
           | (k, v) :: l =>
               let '(x, h) := alloc v h in
               let '(ps, h) := props l h in
               ((k, x) :: ps, h)
           end) l h in
      (HRef (length h'), h' ++ [CObj ps])
  end.

Fixpoint omap_list {A B} (f : A → option B) (l : list A) : option (list B) :=
  match l with
  | [] => Some []
  | a :: l =>
      match f a, omap_list f l with
      | Some b, Some bs => Some (b :: bs)
      | _, _ => None
      end
  end.

(** The tree below a heap value; [None] when the fuel runs out, as it
    does on a cyclic structure, or when a reference dangles. *)
Fixpoint reify (fuel : nat) (h : heap) (x : hval) : option value :=
  match x with
  | HUndef => Some VUndef
  | HNull => Some VNull
  | HBool b => Some (VBool b)
  | HNum n => Some (VNum n)
  | HStr s => Some (VStr s)
  | HRef l =>
      match fuel with
      | O => None
      | S fuel =>
          match h !! l with
          | Some (CArr items) => VArr <$> omap_list (reify fuel h) items
          | Some (CObj props) =>
              VObj <$> omap_list (λ kx, pair kx.1 <$> reify fuel h kx.2) props
          | None => None
          end
      end
  end.

End Values.
Arguments value : clear implicits.
Arguments hval : clear implicits.
Arguments cell : clear implicits.
Arguments HM : clear implicits.
Abbreviation heap num := (list (cell num)).

End JS.

(** ** The file system

    A tree of directories and regular files, addressed from the root by the
    list of names on the way down.  Paths are resolved as POSIX does with no
    symbolic links: segment by segment from the working directory (from the
    root for an absolute path), each directory on the way having to exist. *)

Module Fs.

Abbreviation location := (list jstring).

Record FS : Type := mkFS {
  cwd : location;
  dirs : gset location;
  files : gmap location jstring;
}.

(** The segments between the slashes of a path. *)
Fixpoint segments (p : jstring) : list jstring :=
  match p with
  | [] => [[]]
  | c :: p =>
      if decide (c = Char.SLASH) then [] :: segments p
      else
        match segments p with
        | s :: ss => (c :: s) :: ss
        | [] => [[c]]
        end
  end.

Definition parent (d : location) : location := removelast d.

(** One step down (or up) from directory [d]. *)
Definition enter (fs : FS) (d : location) (seg : jstring) : result location :=
  if decide (seg = []) then Ok d
  else if decide (seg = js ".") then Ok d
  else if decide (seg = js "..") then Ok (parent d)
  else if decide (d ++ [seg] ∈ dirs fs) then Ok (d ++ [seg])
  else if decide (is_Some (files fs !! (d ++ [seg]))) then Throw ENOTDIR
  else Throw ENOENT.

(** Walks every segment but the last; the last one names the entry. *)
Fixpoint walk (fs : FS) (d : location) (segs : list jstring) : result location :=
  match segs with
  | [] => Throw ENOENT
  | [seg] =>
      if decide (seg = [] ∨ seg = js "." ∨ seg = js "..") then Throw EISDIR
      else Ok (d ++ [seg])
  | seg :: segs => rbind (enter fs d seg) (λ d', walk fs d' segs)
  end.

(** The location of the regular file that a path names. *)
Definition locate (fs : FS) (p : jstring) : result location :=
  if decide (Char.NUL ∈ p) then Throw ERR_INVALID_ARG_VALUE
  else
    match p with
    | [] => Throw ENOENT
    | c :: _ =>
        rbind (walk fs (if decide (c = Char.SLASH) then [] else cwd fs) (segments p))
              (λ l, if decide (l ∈ dirs fs) then Throw EISDIR else Ok l)
    end.

(** [fs.readFile(p, 'utf-8')]. *)
Definition readFile (fs : FS) (p : jstring) : result jstring :=
  rbind (locate fs p) (λ l,
    match files fs !! l with
    | Some text => Ok text
    | None => Throw ENOENT
    end).

(** [fs.writeFile(p, text)]: creates the file or replaces its content. *)
Definition writeFile (fs : FS) (p : jstring) (text : jstring) : result FS :=
  rbind (locate fs p) (λ l,
    Ok {| cwd := cwd fs; dirs := dirs fs; files := <[l := text]> (files fs) |}).

End Fs.

(** ** JSON text (ECMA-262, clause 25.5) *)

Module JSON.
Import JS.

(** *** JSON.stringify *)

Definition is_high_surrogate (c : N) : bool := (55296 <=? c) && (c <=? 56319).
Definition is_low_surrogate (c : N) : bool := (56320 <=? c) && (c <=? 57343).

Definition hex_digit (n : N) : N := if n <? 10 then 48 + n else 87 + n.

(** [UnicodeEscape]: a backslash, [u] and four lower-case hex digits. *)
Definition unicode_escape (c : N) : jstring :=
  [Char.BACKSLASH; 117;
   hex_digit (c / 4096 mod 16); hex_digit (c / 256 mod 16);
   hex_digit (c / 16 mod 16); hex_digit (c mod 16)].

Definition quote_unit (c : N) : jstring :=
  if decide (c = Char.BS) then [Char.BACKSLASH; 98]
  else if decide (c = Char.TAB) then [Char.BACKSLASH; 116]
  else if decide (c = Char.LF) then [Char.BACKSLASH; 110]
  else if decide (c = Char.FF) then [Char.BACKSLASH; 102]
  else if decide (c = Char.CR) then [Char.BACKSLASH; 114]
  else if decide (c = Char.QUOTE) then [Char.BACKSLASH; Char.QUOTE]
  else if decide (c = Char.BACKSLASH) then [Char.BACKSLASH; Char.BACKSLASH]
  else if c <? 32 then unicode_escape c
  else if is_high_surrogate c || is_low_surrogate c then unicode_escape c
  else [c].

(** The characters between the quotes: a surrogate pair is copied, a lone
    surrogate is escaped. *)
Fixpoint quote_chars (s : jstring) : jstring :=
  match s with
  | [] => []
  | c :: s' =>
      if is_high_surrogate c then
        match s' with
        | d :: s'' =>
            if is_low_surrogate d then c :: d :: quote_chars s''
            else unicode_escape c ++ quote_chars s'
        | [] => unicode_escape c
        end
      else quote_unit c ++ quote_chars s'
  end.

(** [QuoteJSONString]. *)
Definition quote (s : jstring) : jstring :=
  Char.QUOTE :: quote_chars s ++ [Char.QUOTE].

Fixpoint join (sep : jstring) (parts : list jstring) : jstring :=
  match parts with
  | [] => []
  | [p] => p
  | p :: parts => p ++ sep ++ join sep parts
  end.

(** The line break before an item; nothing when there is no gap. *)
Definition break (gap indent : jstring) : jstring :=
  if decide (gap = []) then [] else Char.LF :: indent.

Definition wrap (gap stepback : jstring) (opening closing : N)
    (parts : list jstring) : jstring :=
  match parts with
  | [] => [opening; closing]
  | _ =>
      let indent := stepback ++ gap in
      [opening] ++ break gap indent
        ++ join (Char.COMMA :: break gap indent) parts
        ++ break gap stepback ++ [closing]
  end.

Definition member (gap : jstring) (k text : jstring) : jstring :=
  quote k ++ [Char.COLON] ++ (if decide (gap = []) then [] else [Char.SPACE]) ++ text.

Section Stringify.
Context `{Number num}.
Variable gap : jstring.

(** [SerializeJSONProperty], with [SerializeJSONArray] and
    [SerializeJSONObject]; [None] is [undefined]. *)
Fixpoint serialize (stepback : jstring) (v : value num) : option jstring :=
  match v with
  | VUndef => None
  | VNull => Some (js "null")
  | VBool true => Some (js "true")
  | VBool false => Some (js "false")
  | VNum n => Some (default (js "null") (NumberToString n))
  | VStr s => Some (quote s)
  | VArr l =>
      Some (wrap gap stepback Char.LBRACKET Char.RBRACKET
              ((λ x, default (js "null") (serialize (stepback ++ gap) x)) <$> l))
  | VObj l =>
      Some (wrap gap stepback Char.LBRACE Char.RBRACE
              ((fix members (l : list (jstring * value num)) : list jstring :=
                  match l with
                  | [] => []
                  | (k, x) :: l =>
                      match serialize (stepback ++ gap) x with
                      | Some text => member gap k text :: members l
                      | None => members l
                      end
                  end) l))
  end.
End Stringify.

(** [JSON.stringify(v, null, space)] for a numeric [space]. *)
Definition stringify `{Number num} (v : value num) (space : nat) : option jstring :=
  serialize (replicate (Nat.min space 10) Char.SPACE) [] v.

(** *** JSON.parse *)

Definition is_ws (c : N) : bool :=
  bool_decide (c = Char.TAB ∨ c = Char.LF ∨ c = Char.CR ∨ c = Char.SPACE).

Fixpoint skip_ws (s : jstring) : jstring :=
  match s with
  | c :: s' => if is_ws c then skip_ws s' else s
  | [] => []
  end.

Definition hex_value (c : N) : option N :=
  if is_digit c then Some (c - 48)
  else if (97 <=? c) && (c <=? 102) then Some (c - 87)
  else if (65 <=? c) && (c <=? 70) then Some (c - 55)
  else None.

Definition simple_escape (c : N) : option N :=
  if decide (c = Char.QUOTE) then Some Char.QUOTE
  else if decide (c = Char.BACKSLASH) then Some Char.BACKSLASH
  else if decide (c = Char.SLASH) then Some Char.SLASH
  else if decide (c = 98) then Some Char.BS
  else if decide (c = 102) then Some Char.FF
  else if decide (c = 110) then Some Char.LF
  else if decide (c = 114) then Some Char.CR
  else if decide (c = 116) then Some Char.TAB
  else None.

Definition push (c : N) (r : option (jstring * jstring)) : option (jstring * jstring) :=
  match r with
  | Some (s, rest) => Some (c :: s, rest)
  | None => None
  end.

(** The characters of a string literal after its opening quote, and the
    text after its closing quote. *)
Fixpoint scan_chars (s : jstring) : option (jstring * jstring) :=
  match s with
  | [] => None
  | c :: r =>
      if decide (c = Char.QUOTE) then Some ([], r)
      else if decide (c = Char.BACKSLASH) then
        match r with
        | 117 :: h3 :: h2 :: h1 :: h0 :: r' =>
            match hex_value h3, hex_value h2, hex_value h1, hex_value h0 with
            | Some a, Some b, Some c, Some d =>
                push (a * 4096 + b * 256 + c * 16 + d) (scan_chars r')
            | _, _, _, _ => None
            end
        | e :: r' =>
            match simple_escape e with
            | Some x => push x (scan_chars r')
            | None => None
            end
        | [] => None
        end
      else if c <? 32 then None
      else push c (scan_chars r)
  end.

Fixpoint span_digits (s : jstring) : jstring * jstring :=
  match s with
  | c :: r =>
      if is_digit c then let '(a, b) := span_digits r in (c :: a, b)
      else ([], s)
  | [] => ([], [])
  end.

Definition scan_int (s : jstring) : option (jstring * jstring) :=
  match s with
  | c :: r =>
      if decide (c = Char.ZERO) then Some ([c], r)
      else if is_digit c then let '(a, b) := span_digits r in Some (c :: a, b)
      else None
  | [] => None
  end.

Definition scan_frac (s : jstring) : jstring * jstring :=
  match s with
  | p :: c :: r =>
      if decide (p = Char.DOT) then
        if is_digit c then let '(a, b) := span_digits r in (p :: c :: a, b)
        else ([], s)
      else ([], s)
  | _ => ([], s)
  end.

Definition scan_sign (s : jstring) : jstring * jstring :=
  match s with
  | c :: r =>
      if decide (c = Char.PLUS ∨ c = Char.MINUS) then ([c], r) else ([], s)
  | [] => ([], s)
  end.

Definition scan_exp (s : jstring) : jstring * jstring :=
  match s with
  | e :: r =>
      if decide (e = 101 ∨ e = 69) then
        let '(sg, r1) := scan_sign r in
        match r1 with
        | c :: r2 =>
            if is_digit c then
              let '(a, b) := span_digits r2 in (e :: sg ++ c :: a, b)
            else ([], s)
        | [] => ([], s)
        end
      else ([], s)
  | [] => ([], s)
  end.

(** The longest numeral of the JSON grammar at the head of the text. *)
Definition scan_number (s : jstring) : option (jstring * jstring) :=
  let '(sg, s1) :=
    match s with
    | c :: r => if decide (c = Char.MINUS) then ([c], r) else ([], s)
    | [] => ([], s)
    end in
  match scan_int s1 with
  | Some (i, s2) =>
      let '(f, s3) := scan_frac s2 in
      let '(e, s4) := scan_exp s3 in
      Some (sg ++ i ++ f ++ e, s4)
  | None => None
  end.

Definition scan_keyword (k : jstring) (s : jstring) : option jstring :=
  if decide (take (length k) s = k) then Some (drop (length k) s) else None.

Section Parse.
Context `{Number num}.

(** The object that the members of an object literal build, in text order. *)
Definition build_object (ms : list (jstring * value num)) : value num :=
  VObj (fold_left (λ o kv, set_prop kv.1 kv.2 o) ms []).

Definition parse_scalar (s : jstring) : option (value num * jstring) :=
  match scan_keyword (js "null") s with
  | Some r => Some (VNull, r)
  | None =>
  match scan_keyword (js "true") s with
  | Some r => Some (VBool true, r)
  | None =>
  match scan_keyword (js "false") s with
  | Some r => Some (VBool false, r)
  | None =>
  match scan_number s with
  | Some (lit, r) => Some (VNum (StringToNumber lit), r)
  | None => None
  end end end end.

(** Recursive descent; the text given to each function starts at a
    token.  The fuel bounds the number of nested and successive values. *)
Fixpoint parse_value (fuel : nat) (s : jstring) {struct fuel}
    : option (value num * jstring) :=
  match fuel with
  | O => None
  | S fuel =>
      match s with
      | [] => None
      | c :: r =>
          if decide (c = Char.LBRACE) then
            match skip_ws r with
            | c' :: r' =>
                if decide (c' = Char.RBRACE) then Some (VObj [], r')
                else
                  match parse_members fuel (c' :: r') with
                  | Some (ms, r'') => Some (build_object ms, r'')
                  | None => None
                  end
            | [] => None
            end
          else if decide (c = Char.LBRACKET) then
            match skip_ws r with
            | c' :: r' =>
                if decide (c' = Char.RBRACKET) then Some (VArr [], r')
                else
                  match parse_elements fuel (c' :: r') with
                  | Some (vs, r'') => Some (VArr vs, r'')
                  | None => None
                  end
            | [] => None
            end
          else if decide (c = Char.QUOTE) then
            match scan_chars r with
            | Some (str, r') => Some (VStr str, r')
            | None => None
            end
          else parse_scalar s
      end
  end
with parse_elements (fuel : nat) (s : jstring) {struct fuel}
    : option (list (value num) * jstring) :=
  match fuel with
  | O => None
  | S fuel =>
      match parse_value fuel s with
      | Some (v, r) =>
          match skip_ws r with
          | c :: r' =>
              if decide (c = Char.COMMA) then
                match parse_elements fuel (skip_ws r') with
                | Some (vs, r'') => Some (v :: vs, r'')
                | None => None
                end
              else if decide (c = Char.RBRACKET) then Some ([v], r')
              else None
          | [] => None
          end
      | None => None
      end
  end
with parse_members (fuel : nat) (s : jstring) {struct fuel}
    : option (list (jstring * value num) * jstring) :=
  match fuel with
  | O => None
  | S fuel =>
      match s with
      | q :: r =>
          if decide (q = Char.QUOTE) then
            match scan_chars r with
            | Some (k, r1) =>
                match skip_ws r1 with
                | c :: r2 =>
                    if decide (c = Char.COLON) then
                      match parse_value fuel (skip_ws r2) with
                      | Some (v, r3) =>
                          match skip_ws r3 with
                          | c' :: r4 =>
                              if decide (c' = Char.COMMA) then
                                match parse_members fuel (skip_ws r4) with
                                | Some (ms, r5) => Some ((k, v) :: ms, r5)
                                | None => None
                                end
                              else if decide (c' = Char.RBRACE) then Some ([(k, v)], r4)
                              else None
                          | [] => None
                          end
                      | None => None
                      end
                    else None
                | [] => None
                end
            | None => None
            end
          else None
      | [] => None
      end
  end.

(** [JSON.parse(text)]. *)
Definition parse (text : jstring) : result (value num) :=
  match parse_value (S (length text)) (skip_ws text) with
  | Some (v, r) =>
      match skip_ws r with
      | [] => Ok v
      | _ => Throw SyntaxError
      end
  | None => Throw SyntaxError
  end.
End Parse.

End JSON.

(** *** Integers as numbers

    The instance for documents whose numerals are plain integers, on which
    double arithmetic is exact (below 2^53 in magnitude). *)

Module ZNumber.
Import JS.

Definition Z_to_string (z : Z) : jstring :=
  if (z <? 0)%Z then Char.MINUS :: N_to_string (Z.abs_N z)
  else N_to_string (Z.abs_N z).

Definition digits_value (s : jstring) : Z :=
  match chars_uint s with
  | Some d => Z.of_N (N.of_uint d)
  | None => 0
  end.

(** The integer part of a numeral. *)
Definition string_to_Z (s : jstring) : Z :=
  match s with
  | c :: r =>
      if decide (c = Char.MINUS) then (- digits_value (JSON.span_digits r).1)%Z
      else digits_value (JSON.span_digits s).1
  | [] => 0%Z
  end.

Definition wrap32 (z : Z) : Z :=
  ((z + 2147483648) mod 4294967296 - 2147483648)%Z.

#[export] Instance Z_Number : Number Z := {|
  StringToNumber := string_to_Z;
  NumberToString := λ z, Some (Z_to_string z);
  num_zero := 0%Z;
  num_add := Z.add;
  num_mul := Z.mul;
  num_ltz := λ z, (z <? 0)%Z;
  ToInt32 := wrap32;
  num_index := λ z, if ((0 <=? z) && (z <? 4294967295))%Z then Some (Z.to_N z) else None;
  num_of_N := Z.of_N;
|}.
End ZNumber.

(** ** topojson.feature

    The decoder of topojson-client 3 ([src/feature.js], [src/transform.js],
    [src/reverse.js]), which the [topojson] package re-exports.  The model
    covers topologies whose arc indexes and coordinates are numbers and
    whose arc tables are arrays; where the library would go on by an
    implicit coercion or through a prototype, the model stops with
    [Unmodelled]. *)

Module Topojson.
Import JS.

Section Decoder.
Context `{Number num}.

#[local] Instance HM_ret : MRet (HM num) := @hret num.
#[local] Instance HM_bind : MBind (HM num) := λ A B k m, hbind m k.

Definition prop (x : hval num) (k : string) : HM num (hval num) :=
  hlift (λ h, get h x (js k)).

(** [x == null]. *)
Definition nullish (x : hval num) : bool :=
  match x with HUndef | HNull => true | _ => false end.

Definition is_string (x : hval num) (s : string) : bool :=
  match x with HStr t => bool_decide (t = js s) | _ => false end.

(** The elements of an array value; what [x.length] and [x[k]] give
    on anything else is the caller's to say. *)
Definition items_of (x : hval num) : HM num (option (list (hval num))) :=
  hlift (λ h,
    match x with
    | HRef l =>
        match h !! l with
        | Some (CArr items) => Ok (Some items)
        | Some (CObj _) => Ok None
        | None => Throw Unmodelled
        end
    | _ => Ok None
    end).

(** [x.map(f)]: a [TypeError] unless [x] is an array. *)
Definition array_map (x : hval num) (f : hval num → HM num (hval num))
    : HM num (hval num) :=
  items ← items_of x;
  match items with
  | Some items => ys ← hmap f items; new (CArr ys)
  | None => hthrow TypeError
  end.

(** The elements of [x] for a loop up to [x.length]. *)
Definition array_loop (x : hval num) : HM num (list (hval num)) :=
  items ← items_of x;
  match items with
  | Some items => mret items
  | None => hthrow (if nullish x then TypeError else Unmodelled)
  end.

(** In-place update of the array in cell [l]. *)
Definition modify (l : nat) (f : list (hval num) → list (hval num)) : HM num unit :=
  λ h, match h !! l with
       | Some (CArr items) => (Ok tt, <[l := CArr (f items)]> h)
       | _ => (Throw Unmodelled, h)
       end.

Definition push (l : nat) (x : hval num) : HM num unit :=
  modify l (λ items, items ++ [x]).

(** *** transform.js *)

Record affine : Type := {
  kx : hval num; ky : hval num; dx : hval num; dy : hval num;
}.

Definition number (x : hval num) : HM num num :=
  match x with
  | HNum n => mret n
  | _ => hthrow Unmodelled
  end.

(** [transform(topology.transform)]: [None] is the identity. *)
Definition transform (t : hval num) : HM num (option affine) :=
  if nullish t then mret None
  else
    scale ← prop t "scale";
    kx ← prop scale "0";
    scale ← prop t "scale";
    ky ← prop scale "1";
    translate ← prop t "translate";
    dx ← prop translate "0";
    translate ← prop t "translate";
    dy ← prop translate "1";
    mret (Some {| kx := kx; ky := ky; dx := dx; dy := dy |}).

(** The point function; [st] is the pair [x0], [y0] of the closure and
    [first] says that [i] is zero or absent. *)
Definition transform_point (t : option affine) (st : num * num)
    (input : hval num) (first : bool) : HM num (hval num * (num * num)) :=
  match t with
  | None => mret (input, st)
  | Some a =>
      let '(x0, y0) := if first then (num_zero, num_zero) else st in
      items ← array_loop input;
      match items with
      | HNum x :: HNum y :: rest =>
          kx ← number (kx a);
          dx ← number (dx a);
          ky ← number (ky a);
          dy ← number (dy a);
          let x0 := num_add x0 x in
          let y0 := num_add y0 y in
          output ← new (CArr (HNum (num_add (num_mul x0 kx) dx)
                              :: HNum (num_add (num_mul y0 ky) dy) :: rest));
          mret (output, (x0, y0))
      | _ => hthrow Unmodelled
      end
  end.

(** *** reverse.js: the last [n] elements, in place. *)
Definition reverse_tail (n : nat) (items : list (hval num)) : list (hval num) :=
  take (length items - n) items ++ rev (drop (length items - n) items).

(** *** feature.js *)

Section Object.
Variable transformPoint : option affine.
Variable arcs : hval num.

(** [arcs[i < 0 ? ~i : i]]. *)
Definition arc_at (i : num) : HM num (hval num) :=
  table ← array_loop arcs;
  let key :=
    if num_ltz i then
      let j := Z.lnot (ToInt32 i) in
      if (0 <=? j)%Z then Some (Z.to_N j) else None
    else num_index i in
  mret (default HUndef (k ← key; table !! N.to_nat k)).

Fixpoint push_points (points : nat) (st : num * num) (k : nat)
    (a : list (hval num)) : HM num unit :=
  match a with
  | [] => mret tt
  | p :: a =>
      '(q, st) ← transform_point transformPoint st p (bool_decide (k = O));
      push points q;;
      push_points points st (S k) a
  end.

Definition arc (i : hval num) (points : nat) : HM num unit :=
  modify points (λ items, removelast items);;
  i ← number i;
  a ← arc_at i;
  a ← array_loop a;
  push_points points (num_zero, num_zero) O a;;
  if num_ltz i then modify points (reverse_tail (length a)) else mret tt.

Definition point (p : hval num) : HM num (hval num) :=
  '(q, _) ← transform_point transformPoint (num_zero, num_zero) p true;
  mret q.

Fixpoint each_arc (l : list (hval num)) (points : nat) : HM num unit :=
  match l with
  | [] => mret tt
  | i :: l => arc i points;; each_arc l points
  end.

Definition line_cell (arcs : hval num) : HM num nat :=
  points ← λ h, (Ok (length h), h ++ [CArr []]);
  l ← array_loop arcs;
  each_arc l points;;
  modify points (λ items,
    if decide (length items < 2)%nat then items ++ [default HUndef (head items)]
    else items);;
  mret points.

Definition line (arcs : hval num) : HM num (hval num) :=
  points ← line_cell arcs;
  mret (HRef points).

Definition ring (arcs : hval num) : HM num (hval num) :=
  points ← line_cell arcs;
  modify points (λ items,
    items ++ replicate (4 - length items) (default HUndef (head items)));;
  mret (HRef points).

Definition polygon (arcs : hval num) : HM num (hval num) :=
  array_map arcs ring.

Definition with_coordinates (type coordinates : hval num) : HM num (hval num) :=
  new (CObj [(js "type", type); (js "coordinates", coordinates)]).

Fixpoint geometry (fuel : nat) (o : hval num) : HM num (hval num) :=
  match fuel with
  | O => hthrow Unmodelled
  | S fuel =>
      type ← prop o "type";
      if is_string type "GeometryCollection" then
        gs ← prop o "geometries";
        gs ← array_map gs (geometry fuel);
        new (CObj [(js "type", type); (js "geometries", gs)])
      else if is_string type "Point" then
        c ← prop o "coordinates";
        c ← point c;
        with_coordinates type c
      else if is_string type "MultiPoint" then
        c ← prop o "coordinates";
        c ← array_map c point;
        with_coordinates type c
      else if is_string type "LineString" then
        a ← prop o "arcs";
        c ← line a;
        with_coordinates type c
      else if is_string type "MultiLineString" then
        a ← prop o "arcs";
        c ← array_map a line;
        with_coordinates type c
      else if is_string type "Polygon" then
        a ← prop o "arcs";
        c ← polygon a;
        with_coordinates type c
      else if is_string type "MultiPolygon" then
        a ← prop o "arcs";
        c ← array_map a polygon;
        with_coordinates type c
      else mret HNull
  end.
End Object.

(** [object(topology, o)]; the recursion of [geometry] goes down the
    cells of the heap, which bound its depth. *)
Definition object (topology o : hval num) : HM num (hval num) :=
  t ← prop topology "transform";
  transformPoint ← transform t;
  arcs ← prop topology "arcs";
  fuel ← hlift (λ h, Ok (S (length h)));
  geometry transformPoint arcs fuel o.

Definition feature1 (topology o : hval num) : HM num (hval num) :=
  id ← prop o "id";
  bbox ← prop o "bbox";
  properties ← prop o "properties";
  properties ← (if nullish properties then new (CObj []) else mret properties);
  geometry ← object topology o;
  if nullish id && nullish bbox then
    new (CObj [(js "type", HStr (js "Feature")); (js "properties", properties);
               (js "geometry", geometry)])
  else if nullish bbox then
    new (CObj [(js "type", HStr (js "Feature")); (js "id", id);
               (js "properties", properties); (js "geometry", geometry)])
  else
    new (CObj [(js "type", HStr (js "Feature")); (js "id", id); (js "bbox", bbox);
               (js "properties", properties); (js "geometry", geometry)]).

(** [topology.objects[o]] for a string [o]: an own property, or
    whatever the prototype chain holds, which is not modelled. *)
Definition named_object (topology : hval num) (name : jstring) : HM num (hval num) :=
  objects ← prop topology "objects";
  hlift (λ h,
    match objects with
    | HUndef | HNull => Throw TypeError
    | HRef l =>
        match h !! l with
        | Some (CObj props) =>
            match lookup_key name props with
            | Some x => Ok x
            | None => Throw Unmodelled
            end
        | _ => Throw Unmodelled
        end
    | _ => Throw Unmodelled
    end).

(** [topojson.feature(topology, o)]. *)
Definition feature (topology o : hval num) : HM num (hval num) :=
  o ← match o with
      | HStr name => named_object topology name
      | _ => mret o
      end;
  type ← prop o "type";
  if is_string type "GeometryCollection" then
    gs ← prop o "geometries";
    fs ← array_map gs (feature1 topology);
    new (CObj [(js "type", HStr (js "FeatureCollection")); (js "features", fs)])
  else feature1 topology o.

End Decoder.
Arguments affine : clear implicits.
End Topojson.

(** ** The script *)

Section Script.
Import JS.
Context `{Number num}.

(** What a run of the script acts on: the file system, the heap of the
    process and, as a record of what happened, the [fs.writeFile] calls
    that completed, oldest first. *)
Record World : Type := mkWorld {
  fs : Fs.FS;
  mem : JS.heap num;
  written : list (jstring * jstring);
}.

(** A statement either completes or throws; a throw is never caught, and
    the world stays as the statement left it. *)
Definition M (A : Type) : Type := World → result A * World.

#[local] Instance M_ret : MRet M := λ A a w, (Ok a, w).
#[local] Instance M_bind : MBind M := λ A B k m w,
  match m w with
  | (Ok a, w') => k a w'
  | (Throw e, w') => (Throw e, w')
  end.

Definition throw {A} (e : error) : M A := λ w, (Throw e, w).

Definition in_heap {A} (m : HM num A) : M A := λ w,
  let '(r, h) := m (mem w) in
  (r, {| fs := fs w; mem := h; written := written w |}).

Definition readFile (path : jstring) : M jstring := λ w,
  (Fs.readFile (fs w) path, w).

(** [data] is the string to write, or [undefined]. *)
Definition writeFile (path : jstring) (data : option jstring) : M unit := λ w,
  match data with
  | None => (Throw ERR_INVALID_ARG_TYPE, w)
  | Some text =>
      match Fs.writeFile (fs w) path text with
      | Ok fs' =>
          (Ok tt, {| fs := fs'; mem := mem w;
                     written := written w ++ [(path, text)] |})
      | Throw e => (Throw e, w)
      end
  end.

Definition JSON_parse (text : jstring) : M (hval num) :=
  match JSON.parse text with
  | Ok v => in_heap (λ h, let '(x, h') := alloc v h in (Ok x, h'))
  | Throw e => throw e
  end.

(** [JSON.stringify(x, null, space)]; a cyclic structure is a [TypeError]. *)
Definition JSON_stringify (x : hval num) (space : nat) : M (option jstring) :=
  in_heap (hlift (λ h,
    match reify (S (length h)) h x with
    | Some v => Ok (JSON.stringify v space)
    | None => Throw TypeError
    end)).

Definition member (x : hval num) (k : jstring) : M (hval num) :=
  in_heap (hlift (λ h, get h x k)).

Definition Object_entries (x : hval num) : M (list (jstring * hval num)) :=
  in_heap (hlift (λ h, entries h x)).

Fixpoint for_of {A} (l : list A) (body : A → M unit) : M unit :=
  match l with
  | [] => mret tt
  | a :: l => body a;; for_of l body
  end.

(** [topojson.feature], whatever the installed package makes of it. *)
Variable feature : hval num → hval num → HM num (hval num).

Definition input_path : jstring := js "./data/swiss_stuffes.json".

Definition output_path (key : jstring) : jstring :=
  js "./data/" ++ key ++ js ".geojson".

(** The body of the loop. *)
Definition convert_entry (input : hval num) (key : jstring) : M unit :=
  objects ← member input (js "objects");
  o ← member objects key;
  geojson ← in_heap (feature input o);
  text ← JSON_stringify geojson 2;
  writeFile (output_path key) text.

Definition convert : M unit :=
  text ← readFile input_path;
  input ← JSON_parse text;
  objects ← member input (js "objects");
  es ← Object_entries objects;
  for_of es (λ e, convert_entry input e.1).

(** A run starts with an empty heap and nothing written. *)
Definition run (disk : Fs.FS) : result unit * World :=
  convert {| fs := disk; mem := []; written := [] |}.

End Script.
Arguments World : clear implicits.
Arguments M : clear implicits.

(** The script with the decoder of topojson-client. *)
Definition main `{JS.Number num} (disk : Fs.FS) : result unit * World num :=
  run Topojson.feature disk.

(** * Properties *)

Close Scope N_scope.
Import ZNumber.

(** ** Values and the heap *)

Section ValueFacts.
Import JS.
Context `{Number num}.

Definition value_ind (P : value num → Prop)
    (Hundef : P VUndef) (Hnull : P VNull) (Hbool : ∀ b, P (VBool b))
    (Hnum : ∀ n, P (VNum n)) (Hstr : ∀ s, P (VStr s))
    (Harr : ∀ l, Forall P l → P (VArr l))
    (Hobj : ∀ l, Forall (λ kv, P kv.2) l → P (VObj l)) : ∀ v, P v :=
  fix go (v : value num) : P v :=
    match v with
    | VUndef => Hundef
    | VNull => Hnull
    | VBool b => Hbool b
    | VNum n => Hnum n
    | VStr s => Hstr s
    | VArr l =>
        Harr l ((fix all (l : list (value num)) : Forall P l :=
                   match l with
                   | [] => Forall_nil_2 P
                   | v :: l => Forall_cons_2 P v l (go v) (all l)
                   end) l)
    | VObj l =>
        Hobj l ((fix all (l : list (jstring * value num)) : Forall (λ kv, P kv.2) l :=
                   match l with
                   | [] => Forall_nil_2 _
                   | kv :: l => Forall_cons_2 _ kv l (go kv.2) (all l)
                   end) l)
    end.

Definition alloc_items : list (value num) → heap num → list (hval num) * heap num :=
  fix items l h :=
    match l with
    | [] => ([], h)
    | v :: l =>
        let '(x, h) := alloc v h in
        let '(xs, h) := items l h in
        (x :: xs, h)
    end.

Definition alloc_props
    : list (jstring * value num) → heap num → list (jstring * hval num) * heap num :=
  fix props l h :=
    match l with
    | [] => ([], h)
    | (k, v) :: l =>
        let '(x, h) := alloc v h in
        let '(ps, h) := props l h in
        ((k, x) :: ps, h)
    end.

Lemma alloc_arr l h :
  alloc (VArr l) h =
    let '(xs, h') := alloc_items l h in (HRef (length h'), h' ++ [CArr xs]).
Proof. reflexivity. Qed.

Lemma alloc_obj l h :
  alloc (VObj l) h =
    let '(ps, h') := alloc_props l h in (HRef (length h'), h' ++ [CObj ps]).
Proof. reflexivity. Qed.

(** [x] stands for the tree [v] in heap [h]. *)
Definition repr (h : heap num) (x : hval num) (v : value num) : Prop :=
  ∃ fuel, reify fuel h x = Some v.

Lemma omap_list_ext {A B} (f g : A → option B) l bs :
  Forall (λ a, ∀ b, f a = Some b → g a = Some b) l →
  omap_list f l = Some bs → omap_list g l = Some bs.
Proof.
  intros Hall. revert bs. induction Hall as [|a l Ha _ IH]; intros bs; simpl; [done|].
  destruct (f a) as [b|] eqn:Hf; [|done].
  destruct (omap_list f l) as [bs'|] eqn:Hl; [|done].
  intros [= <-]. by rewrite (Ha _ eq_refl), (IH _ eq_refl).
Qed.

Lemma reify_weaken fuel (h : heap num) x v fuel' ext :
  reify fuel h x = Some v → fuel ≤ fuel' → reify fuel' (h ++ ext) x = Some v.
Proof.
  revert x v fuel'. induction fuel as [|fuel IH]; intros x v fuel' Hr Hle.
  - destruct x; simpl in *; try done; by destruct fuel'.
  - destruct x; try (by destruct fuel'; simpl in *).
    destruct fuel' as [|fuel']; [lia|]. simpl in *.
    destruct (h !! l) as [c|] eqn:Hl; [|done].
    rewrite (lookup_app_l_Some _ _ _ _ Hl).
    destruct c as [items|props].
    + destruct (omap_list (reify fuel h) items) as [vs|] eqn:Hvs; [|done].
      erewrite omap_list_ext; [exact Hr| |exact Hvs].
      apply Forall_forall. intros y _ w Hy. apply IH; [done|lia].
    + destruct (omap_list _ props) as [vs|] eqn:Hvs; [|done].
      erewrite omap_list_ext; [exact Hr| |exact Hvs].
      apply Forall_forall. intros [k y] _ w. simpl.
      destruct (reify fuel h y) as [u|] eqn:Hy; [|done].
      by rewrite (IH y u fuel' Hy ltac:(lia)).
Qed.

Lemma reify_prim fuel (h : heap num) x :
  (∀ l, x ≠ HRef l) → reify fuel h x = reify O h x.
Proof. intros Hx. destruct fuel, x; try done. by destruct (Hx l). Qed.

Lemma repr_weaken (h : heap num) x v ext : repr h x v → repr (h ++ ext) x v.
Proof. intros [fuel Hr]. exists fuel. by apply reify_weaken with fuel. Qed.

Lemma reify_items (h : heap num) xs l ext :
  Forall2 (repr h) xs l →
  ∃ fuel, omap_list (reify fuel (h ++ ext)) xs = Some l.
Proof.
  induction 1 as [|x v xs l [f Hx] _ [f' IHl]]; [by exists O|].
  exists (f `max` f'). simpl.
  rewrite (reify_weaken _ _ _ _ (f `max` f') ext Hx ltac:(lia)).
  erewrite omap_list_ext; [done| |exact IHl].
  apply Forall_forall. intros y _ w Hy.
  rewrite <- (app_nil_r (h ++ ext)). apply reify_weaken with f'; [done|lia].
Qed.

Definition repr_prop (h : heap num)
    (p : jstring * hval num) (kv : jstring * value num) : Prop :=
  p.1 = kv.1 ∧ repr h p.2 kv.2.

Lemma reify_props (h : heap num) ps l ext :
  Forall2 (repr_prop h) ps l →
  ∃ fuel, omap_list (λ kx, pair kx.1 <$> reify fuel (h ++ ext) kx.2) ps = Some l.
Proof.
  induction 1 as [|[k x] [k' v] ps l [Hk [f Hx]] _ [f' IHl]]; [by exists O|].
  simpl in Hk, Hx. subst k'. exists (f `max` f'). simpl.
  rewrite (reify_weaken _ _ _ _ (f `max` f') ext Hx ltac:(lia)). simpl.
  erewrite omap_list_ext; [done| |exact IHl].
  apply Forall_forall. intros [k1 y] _ w. simpl.
  destruct (reify f' _ y) as [u|] eqn:Hy; [|done].
  rewrite <- (app_nil_r (h ++ ext)).
  by rewrite (reify_weaken _ _ _ _ (f `max` f') [] Hy ltac:(lia)).
Qed.

(** Allocation only appends, and the value it returns stands for the tree. *)
Lemma alloc_spec (v : value num) : ∀ h x h',
  alloc v h = (x, h') → (∃ ext, h' = h ++ ext) ∧ repr h' x v.
Proof.
  induction v as [| |b|n|s|l IH|l IH] using value_ind; intros h x h'.
  1-5: intros [= <- <-]; (split; [exists []; by rewrite app_nil_r | by exists O]).
  - rewrite alloc_arr.
    assert (Hitems : ∀ h xs h1, alloc_items l h = (xs, h1) →
              (∃ ext, h1 = h ++ ext) ∧ Forall2 (repr h1) xs l).
    { clear h x h'. induction IH as [|v l Hv _ IHl]; intros h xs h1; simpl.
      - intros [= <- <-]. split; [exists []; by rewrite app_nil_r | constructor].
      - destruct (alloc v h) as [x h0] eqn:Ha.
        destruct (alloc_items l h0) as [xs' h2] eqn:Hi.
        intros [= <- <-].
        destruct (Hv _ _ _ Ha) as [[e1 ->] Hx].
        destruct (IHl _ _ _ Hi) as [[e2 ->] Hxs].
        split; [exists (e1 ++ e2); by rewrite app_assoc|].
        constructor; [by apply repr_weaken | done]. }
    destruct (alloc_items l h) as [xs h1] eqn:Hi. intros [= <- <-].
    destruct (Hitems _ _ _ Hi) as [[e ->] Hxs].
    split; [exists (e ++ [CArr xs]); by rewrite app_assoc|].
    destruct (reify_items _ _ _ [CArr xs] Hxs) as [fuel Hf].
    exists (S fuel). simpl. rewrite lookup_app_r, Nat.sub_diag by done. simpl.
    by rewrite Hf.
  - rewrite alloc_obj.
    assert (Hprops : ∀ h ps h1, alloc_props l h = (ps, h1) →
              (∃ ext, h1 = h ++ ext) ∧ Forall2 (repr_prop h1) ps l).
    { clear h x h'. induction IH as [|[k v] l Hv _ IHl]; intros h ps h1; simpl.
      - intros [= <- <-]. split; [exists []; by rewrite app_nil_r | constructor].
      - destruct (alloc v h) as [x h0] eqn:Ha.
        destruct (alloc_props l h0) as [ps' h2] eqn:Hi.
        intros [= <- <-].
        destruct (Hv _ _ _ Ha) as [[e1 ->] Hx].
        destruct (IHl _ _ _ Hi) as [[e2 ->] Hxs].
        split; [exists (e1 ++ e2); by rewrite app_assoc|].
        constructor; [split; [done | by apply repr_weaken] | done]. }
    destruct (alloc_props l h) as [ps h1] eqn:Hi. intros [= <- <-].
    destruct (Hprops _ _ _ Hi) as [[e ->] Hps].
    split; [exists (e ++ [CObj ps]); by rewrite app_assoc|].
    destruct (reify_props _ _ _ [CObj ps] Hps) as [fuel Hf].
    exists (S fuel). simpl. rewrite lookup_app_r, Nat.sub_diag by done. simpl.
    by rewrite Hf.
Qed.

Lemma omap_list_Forall2 {A B} (f : A → option B) l bs :
  omap_list f l = Some bs ↔ Forall2 (λ a b, f a = Some b) l bs.
Proof.
  split.
  - revert bs. induction l as [|a l IH]; intros bs; simpl.
    + intros [= <-]. constructor.
    + destruct (f a) as [b|] eqn:Hf; [|done].
      destruct (omap_list f l) as [bs'|]; [|done].
      intros [= <-]. constructor; auto.
  - induction 1 as [|a b l bs Hf _ IH]; simpl; [done|]. by rewrite Hf, IH.
Qed.

Lemma lookup_key_Forall2 {A B} (R : A → B → Prop) k
    (ps : list (jstring * A)) (l : list (jstring * B)) :
  Forall2 (λ p kv, p.1 = kv.1 ∧ R p.2 kv.2) ps l →
  match lookup_key k ps, lookup_key k l with
  | Some x, Some v => R x v
  | None, None => True
  | _, _ => False
  end.
Proof.
  unfold lookup_key.
  induction 1 as [|[k1 x] [k2 v] ps l [Hk Hx] _ IH]; simpl in *; [done|].
  subst k2. case_bool_decide; simpl; [done|exact IH].
Qed.

Lemma imap_keys {A B} (f : nat → A → jstring * B) (g : nat → jstring)
    (l : list A) :
  (∀ i a, (f i a).1 = g i) → (imap f l).*1 = g <$> seq 0 (length l).
Proof.
  intros Hf. rewrite fmap_imap.
  transitivity (imap (λ i _, g i) l).
  { apply imap_ext. intros i a _. apply Hf. }
  generalize g. clear. induction l as [|a l IH]; intros g; simpl; [done|].
  f_equal. rewrite <- fmap_S_seq, <- list_fmap_compose. exact (IH (g ∘ S)).
Qed.

(** Property access and enumeration read the heap as they read the tree. *)
Lemma get_repr (h : heap num) x v k :
  repr h x v →
  match get_own v k with
  | Ok v' => ∃ x', get h x k = Ok x' ∧ repr h x' v'
  | Throw e => get h x k = Throw e
  end.
Proof.
  intros [fuel Hr].
  destruct x as [| |b|n|s|l].
  1-5: rewrite reify_prim in Hr by done; injection Hr as <-; simpl; try done;
       eexists; (split; [done|]).
  - by exists O.
  - by exists O.
  - destruct (array_index k) as [i|].
    + destruct (s !! N.to_nat i); by exists O.
    + case_decide; by exists O.
  - destruct fuel as [|fuel]; [done|]. simpl in Hr.
    destruct (h !! l) as [[items|props]|] eqn:Hl; [| |done]; simpl.
    + destruct (omap_list _ items) as [vs|] eqn:Hvs; [|done].
      injection Hr as <-. simpl. rewrite Hl. eexists; split; [done|].
      apply omap_list_Forall2 in Hvs.
      destruct (array_index k) as [i|].
      * destruct (items !! N.to_nat i) as [y|] eqn:Hy.
        -- destruct (Forall2_lookup_l _ _ _ _ _ Hvs Hy) as (w & -> & Hw).
           by exists fuel.
        -- apply lookup_ge_None in Hy. apply Forall2_length in Hvs.
           rewrite (proj2 (lookup_ge_None vs _)) by lia. by exists O.
      * unfold length_of. rewrite (Forall2_length _ _ _ Hvs).
        case_decide; by exists O.
    + destruct (omap_list _ props) as [vs|] eqn:Hvs; [|done].
      injection Hr as <-. simpl. rewrite Hl. eexists; split; [done|].
      apply omap_list_Forall2 in Hvs.
      assert (Hps : Forall2 (λ p kv, p.1 = kv.1 ∧ reify fuel h p.2 = Some kv.2) props vs).
      { eapply Forall2_impl; [exact Hvs|]. intros [k1 y] [k2 w]; simpl.
        destruct (reify fuel h y); simpl; [|done]. by intros [= -> ->]. }
      pose proof (lookup_key_Forall2 (λ y w, reify fuel h y = Some w) k _ _ Hps) as Hk.
      destruct (lookup_key k props), (lookup_key k vs); simpl; try done.
      * by exists fuel.
      * by exists O.
Qed.

Lemma entries_repr (h : heap num) x v :
  repr h x v →
  match Object_entries v with
  | Ok es => ∃ xs, entries h x = Ok xs ∧ xs.*1 = es.*1
  | Throw e => entries h x = Throw e
  end.
Proof.
  intros [fuel Hr].
  destruct x as [| |b|n|s|l].
  1-5: rewrite reify_prim in Hr by done; injection Hr as <-; simpl; try done;
       eexists; (split; [done|]).
  - done.
  - done.
  - by rewrite !(imap_keys _ nat_to_string).
  - destruct fuel as [|fuel]; [done|]. simpl in Hr.
    destruct (h !! l) as [[items|props]|] eqn:Hl; [| |done]; simpl.
    + destruct (omap_list _ items) as [vs|] eqn:Hvs; [|done].
      injection Hr as <-. simpl. rewrite Hl. eexists; split; [done|].
      apply omap_list_Forall2, Forall2_length in Hvs.
      by rewrite !(imap_keys _ nat_to_string), Hvs.
    + destruct (omap_list _ props) as [vs|] eqn:Hvs; [|done].
      injection Hr as <-. simpl. rewrite Hl. eexists; split; [done|].
      apply omap_list_Forall2 in Hvs.
      clear Hl. induction Hvs as [|[k1 y] [k2 w] ps vs Hy _ IH]; [done|].
      simpl in Hy. destruct (reify fuel h y); [|done].
      injection Hy as <- _. rewrite !fmap_cons. by f_equal.
Qed.

End ValueFacts.

(** ** The file system *)

Section FsFacts.
Import Fs.

Lemma segments_nonempty p : segments p ≠ [].
Proof.
  destruct p as [|c p]; simpl; [done|].
  case_decide; [done|]. by destruct (segments p).
Qed.

Lemma segments_no_slash p : Char.SLASH ∉ p → segments p = [p].
Proof.
  induction p as [|c p IH]; simpl; [done|].
  rewrite not_elem_of_cons. intros [Hc Hp].
  rewrite decide_False by done. by rewrite IH.
Qed.

(** Text without a slash after a path extends the last segment. *)
Lemma segments_app p q :
  Char.SLASH ∉ q →
  ∃ ss s, segments p = ss ++ [s] ∧ segments (p ++ q) = ss ++ [s ++ q].
Proof.
  intros Hq. induction p as [|c p (ss & s & Hp & Hpq)]; simpl.
  - exists [], []. by rewrite segments_no_slash.
  - case_decide.
    + exists ([] :: ss), s. by rewrite Hp, Hpq.
    + rewrite Hp, Hpq. destruct ss as [|s0 ss]; simpl.
      * by exists [], (c :: s).
      * by exists ((c :: s0) :: ss), s.
Qed.

(** Whether and where a path resolves rests on the directories alone;
    the files only choose between [ENOTDIR] and [ENOENT]. *)
Lemma enter_dirs fs1 fs2 d seg d' :
  dirs fs1 = dirs fs2 → enter fs1 d seg = Ok d' → enter fs2 d seg = Ok d'.
Proof.
  unfold enter. intros <-. repeat case_decide; done.
Qed.

Lemma walk_dirs fs1 fs2 segs : ∀ d l,
  dirs fs1 = dirs fs2 → walk fs1 d segs = Ok l → walk fs2 d segs = Ok l.
Proof.
  induction segs as [|seg segs IH]; intros d l Hd; simpl; [done|].
  destruct segs as [|seg' segs]; [done|].
  destruct (enter fs1 d seg) as [d'|] eqn:He; simpl; [|done].
  rewrite (enter_dirs _ _ _ _ _ Hd He). simpl. by apply IH.
Qed.

Lemma locate_dirs fs1 fs2 p l :
  cwd fs1 = cwd fs2 → dirs fs1 = dirs fs2 →
  locate fs1 p = Ok l → locate fs2 p = Ok l.
Proof.
  unfold locate. intros Hc Hd. case_decide; [done|].
  destruct p as [|c p]; [done|]. rewrite <- Hc.
  destruct (walk fs1 _ _) as [l'|] eqn:Hw; cbn [rbind]; [|done].
  rewrite (walk_dirs _ _ _ _ _ Hd Hw). cbn [rbind]. by rewrite <- Hd.
Qed.

Lemma writeFile_Ok fs p text fs' :
  writeFile fs p text = Ok fs' ↔
  ∃ l, locate fs p = Ok l ∧
       fs' = {| cwd := cwd fs; dirs := dirs fs; files := <[l := text]> (files fs) |}.
Proof.
  unfold writeFile. destruct (locate fs p) as [l|]; simpl.
  - split; [intros [= <-]; by exists l | by intros (? & [= <-] & ->)].
  - split; [done | by intros (? & ? & _)].
Qed.

Lemma writeFile_Throw fs p text e :
  writeFile fs p text = Throw e ↔ locate fs p = Throw e.
Proof. unfold writeFile. destruct (locate fs p); simpl; split; congruence. Qed.

Lemma writeFile_cwd fs p text fs' :
  writeFile fs p text = Ok fs' → cwd fs' = cwd fs ∧ dirs fs' = dirs fs.
Proof. rewrite writeFile_Ok. by intros (l & _ & ->). Qed.

(** A write replaces whatever the path held. *)
Lemma read_after_write fs p text fs' :
  writeFile fs p text = Ok fs' → readFile fs' p = Ok text.
Proof.
  rewrite writeFile_Ok. intros (l & Hl & ->). unfold readFile.
  rewrite (locate_dirs fs (mkFS (cwd fs) (dirs fs) (<[l:=text]> (files fs)))
             p l eq_refl eq_refl Hl).
  simpl. by rewrite lookup_insert_eq.
Qed.

Definition plain_name (seg : jstring) : Prop :=
  seg ≠ [] ∧ seg ≠ js "." ∧ seg ≠ js "..".

Lemma enter_name fs d seg :
  plain_name seg →
  enter fs d seg =
    if decide (d ++ [seg] ∈ dirs fs) then Ok (d ++ [seg])
    else if decide (is_Some (files fs !! (d ++ [seg]))) then Throw ENOTDIR
    else Throw ENOENT.
Proof. intros (? & ? & ?). unfold enter. by rewrite !decide_False by done. Qed.

Lemma walk_name fs d seg :
  plain_name seg → walk fs d [seg] = Ok (d ++ [seg]).
Proof. intros (? & ? & ?). simpl. rewrite decide_False; [done|tauto]. Qed.

Lemma plain_data : plain_name (js "data").
Proof. by vm_compute. Qed.

(** The paths of the script start with [./data/]. *)
Lemma locate_in_data fs rest :
  locate fs (js "./data/" ++ rest) =
    if decide (Char.NUL ∈ rest) then Throw ERR_INVALID_ARG_VALUE
    else
      rbind (rbind (enter fs (cwd fs) (js "data")) (λ d, walk fs d (segments rest)))
            (λ l, if decide (l ∈ dirs fs) then Throw EISDIR else Ok l).
Proof.
  unfold locate.
  assert (Char.NUL ∈ js "./data/" ++ rest ↔ Char.NUL ∈ rest) as Hnul.
  { rewrite elem_of_app. split; [|auto]. intros [Hin|]; [|done].
    exfalso. revert Hin.
    apply (bool_decide_unpack (Char.NUL ∉ js "./data/")). by vm_compute. }
  destruct (decide (Char.NUL ∈ rest)) as [Hr|Hr].
  { by rewrite decide_True by by apply Hnul. }
  rewrite decide_False by by rewrite Hnul.
  change (js "./data/" ++ rest)
    with (46 :: 47 :: 100 :: 97 :: 116 :: 97 :: 47 :: rest)%N.
  cbv beta iota.
  destruct (decide (46%N = Char.SLASH)) as [?|_]; [done|].
  change (segments (46 :: 47 :: 100 :: 97 :: 116 :: 97 :: 47 :: rest)%N)
    with (js "." :: js "data" :: segments rest).
  destruct (segments rest) as [|s ss] eqn:Hs; [by destruct (segments_nonempty rest)|].
  reflexivity.
Qed.

Lemma walk_cons fs d seg segs :
  segs ≠ [] → walk fs d (seg :: segs) = rbind (enter fs d seg) (λ d', walk fs d' segs).
Proof. by destruct segs. Qed.

Lemma walk_last fs segs : ∀ d x l,
  walk fs d (segs ++ [x]) = Ok l → ∃ d', l = d' ++ [x].
Proof.
  induction segs as [|seg segs IH]; intros d x l.
  - simpl. case_decide; [done|]. intros [= <-]. by exists d.
  - rewrite <- app_comm_cons, walk_cons by (by destruct segs).
    destruct (enter fs d seg) as [d1|]; cbn [rbind]; [|done]. apply IH.
Qed.

Lemma geojson_no_slash : Char.SLASH ∉ js ".geojson".
Proof. apply (bool_decide_unpack (Char.SLASH ∉ js ".geojson")). by vm_compute. Qed.

Lemma geojson_no_nul : Char.NUL ∉ js ".geojson".
Proof. apply (bool_decide_unpack (Char.NUL ∉ js ".geojson")). by vm_compute. Qed.


(** The file that the path of a key names ends in [.geojson], which the
    input file does not. *)
Definition ends_geojson (l : location) : Prop :=
  ∃ d s, l = d ++ [s ++ js ".geojson"].

Lemma locate_output fs key l :
  locate fs (js "./data/" ++ key ++ js ".geojson") = Ok l → ends_geojson l.
Proof.
  rewrite locate_in_data. case_decide; [done|].
  destruct (enter fs (cwd fs) (js "data")) as [d|]; simpl; [|done].
  destruct (segments_app key (js ".geojson") geojson_no_slash) as (ss & s & _ & ->).
  destruct (walk fs d (ss ++ [s ++ js ".geojson"])) as [l'|] eqn:Hw; simpl; [|done].
  case_decide; [done|]. intros [= <-].
  destruct (walk_last _ _ _ _ _ Hw) as [d' ->]. by exists d', s.
Qed.

Lemma not_ends_geojson_data d : ¬ ends_geojson (d ++ [js "data"]).
Proof.
  intros (d' & s & Heq). apply app_inj_tail in Heq as [_ Heq].
  pose proof (f_equal length Heq) as Hlen. rewrite length_app in Hlen.
  change (length (js "data")) with 4 in Hlen.
  change (length (js ".geojson")) with 8 in Hlen. lia.
Qed.

Lemma not_ends_geojson_input d : ¬ ends_geojson (d ++ [js "swiss_stuffes.json"]).
Proof.
  intros (d' & s & Heq). apply app_inj_tail in Heq as [_ Heq].
  change (js "swiss_stuffes.json") with (js "swiss_stuf" ++ js "fes.json") in Heq.
  apply app_inj_2 in Heq as [_ Heq]; [|done]. by vm_compute in Heq.
Qed.


(** Reading a path depends on the directories and on the files at the
    places the path goes through. *)
Lemma readFile_input_agree fs1 fs2 :
  cwd fs1 = cwd fs2 → dirs fs1 = dirs fs2 →
  (∀ l, ¬ ends_geojson l → files fs1 !! l = files fs2 !! l) →
  readFile fs1 (js "./data/" ++ js "swiss_stuffes.json") =
  readFile fs2 (js "./data/" ++ js "swiss_stuffes.json").
Proof.
  intros Hc Hd Hf. unfold readFile. rewrite !locate_in_data.
  case_decide; [done|]. rewrite !(enter_name _ _ _ plain_data).
  rewrite <- Hc, <- Hd, <- (Hf _ (not_ends_geojson_data (cwd fs1))).
  case_decide; cbn [rbind]; [|by case_decide].
  change (segments (js "swiss_stuffes.json")) with [js "swiss_stuffes.json"].
  rewrite !walk_name by (by vm_compute). cbn [rbind].
  case_decide; [done|]. cbn [rbind].
  by rewrite <- (Hf _ (not_ends_geojson_input _)).
Qed.

(** *** A sequence of writes *)

Definition store (m : gmap location jstring) (ws : list (location * jstring))
    : gmap location jstring :=
  fold_left (λ m w, <[w.1 := w.2]> m) ws m.

Lemma store_union ws : ∀ m, store m ws = list_to_map (reverse ws) ∪ m.
Proof.
  induction ws as [|[l t] ws IH]; intros m; simpl.
  - by rewrite (left_id_L ∅ (∪)).
  - rewrite IH, reverse_cons, list_to_map_app. simpl.
    rewrite <- (assoc_L (∪)). f_equal.
    by rewrite insert_empty, <- insert_union_singleton_l.
Qed.


Lemma store_other m ws l : l ∉ ws.*1 → store m ws !! l = m !! l.
Proof.
  revert m. induction ws as [|[l' t] ws IH]; intros m; csimpl; [done|].
  rewrite not_elem_of_cons. intros [Hne Hl].
  rewrite IH by done. by rewrite lookup_insert_ne.
Qed.


Lemma store_is_Some m ws l : l ∈ ws.*1 → is_Some (store m ws !! l).
Proof.
  rewrite store_union, lookup_union. intros Hl.
  destruct (list_to_map (M := gmap location jstring) (reverse ws) !! l) eqn:Hr.
  - by destruct (m !! l).
  - apply not_elem_of_list_to_map in Hr.
    by rewrite fmap_reverse, elem_of_reverse in Hr.
Qed.

(** [../x] climbs from [./data] back to the working directory. *)
Lemma locate_climbing fs l :
  locate fs (js "./data/" ++ js "../x" ++ js ".geojson") = Ok l →
  l = cwd fs ++ [js "x.geojson"].
Proof.
  rewrite locate_in_data. case_decide; [done|].
  rewrite (enter_name _ _ _ plain_data).
  case_decide; cbn [rbind]; [|by case_decide].
  change (segments (js "../x" ++ js ".geojson")) with [js ".."; js "x.geojson"].
  rewrite walk_cons by done.
  change (enter fs (cwd fs ++ [js "data"]) (js "..")) with (Ok (parent (cwd fs ++ [js "data"]))).
  cbn [rbind]. unfold parent. rewrite removelast_last.
  rewrite walk_name by (by vm_compute). cbn [rbind].
  case_decide; [done|]. by intros [= <-].
Qed.

(** [a/b] needs the directory [./data/a]. *)
Lemma locate_nested fs l :
  locate fs (js "./data/" ++ js "a/b" ++ js ".geojson") = Ok l →
  cwd fs ++ [js "data"; js "a"] ∈ dirs fs.
Proof.
  rewrite locate_in_data. case_decide; [done|].
  rewrite (enter_name _ _ _ plain_data).
  case_decide; cbn [rbind]; [|by case_decide].
  change (segments (js "a/b" ++ js ".geojson")) with [js "a"; js "b.geojson"].
  rewrite walk_cons by done.
  rewrite enter_name by (by vm_compute). rewrite <- app_assoc.
  case_decide; [done|]. by case_decide.
Qed.

End FsFacts.

(** ** The run of the script *)

Section ScriptFacts.
Import JS.
Context `{Number num}.
Variable feature : hval num → hval num → HM num (hval num).
Implicit Types (w : World num) (input : hval num) (h : heap num).
#[local] Arguments reify : simpl never.

(** The heap side of the loop body: what is to be written for a key. *)
Definition render input (key : jstring) h : result (option jstring) * heap num :=
  match get h input (js "objects") with
  | Throw e => (Throw e, h)
  | Ok objects =>
      match get h objects key with
      | Throw e => (Throw e, h)
      | Ok o =>
          match feature input o h with
          | (Throw e, h1) => (Throw e, h1)
          | (Ok geojson, h1) =>
              match reify (S (length h1)) h1 geojson with
              | Some v => (Ok (JSON.stringify v 2), h1)
              | None => (Throw TypeError, h1)
              end
          end
      end
  end.

Lemma convert_entry_eq input key w :
  convert_entry feature input key w =
    match render input key (mem w) with
    | (Ok data, h) => writeFile (output_path key) data (mkWorld (fs w) h (written w))
    | (Throw e, h) => (Throw e, mkWorld (fs w) h (written w))
    end.
Proof.
  destruct w as [d h ws].
  unfold convert_entry, render, member, JSON_stringify, in_heap, hlift,
    mbind, M_bind; simpl.
  destruct (get h input (js "objects")) as [objects|]; simpl; [|done].
  destruct (get h objects key) as [o|]; simpl; [|done].
  destruct (feature input o h) as [[geojson|] h1]; simpl; [|done].
  by destruct (reify (S (length h1)) h1 geojson).
Qed.

(** A completed iteration wrote the rendered text to the path of its key. *)
Lemma convert_entry_Ok input key w w' :
  convert_entry feature input key w = (Ok tt, w') ↔
  ∃ text h disk,
    render input key (mem w) = (Ok (Some text), h) ∧
    Fs.writeFile (fs w) (output_path key) text = Ok disk ∧
    w' = mkWorld disk h (written w ++ [(output_path key, text)]).
Proof.
  rewrite convert_entry_eq.
  destruct (render input key (mem w)) as [[[text|]|e] h]; unfold writeFile; simpl.
  - destruct (Fs.writeFile (fs w) (output_path key) text) as [disk|] eqn:Hw.
    + split; [intros [= <-]; by exists text, h, disk|].
      intros (? & ? & ? & Hr & Hw' & ->). injection Hr as <- <-.
      rewrite Hw in Hw'. by injection Hw' as <-.
    + split; [done|]. intros (? & ? & ? & Hr & Hw' & _). injection Hr as <- <-.
      by rewrite Hw in Hw'.
  - split; [done|]. by intros (? & ? & ? & ? & _).
  - split; [done|]. by intros (? & ? & ? & ? & _).
Qed.

(** An iteration that throws leaves the files and the record of writes
    as they were. *)
Lemma convert_entry_Throw input key w e w' :
  convert_entry feature input key w = (Throw e, w') →
  fs w' = fs w ∧ written w' = written w.
Proof.
  rewrite convert_entry_eq.
  destruct (render input key (mem w)) as [[[text|]|e'] h]; unfold writeFile; simpl.
  - destruct (Fs.writeFile (fs w) (output_path key) text); [done|]. by intros [= _ <-].
  - by intros [= _ <-].
  - by intros [= _ <-].
Qed.

(** The iterations that complete, one after the other. *)
Inductive steps input : list jstring → World num → World num → Prop :=
| steps_nil w : steps input [] w w
| steps_cons key keys w w1 w' :
    convert_entry feature input key w = (Ok tt, w1) →
    steps input keys w1 w' →
    steps input (key :: keys) w w'.

Lemma steps_app input keys1 keys2 w w1 w' :
  steps input keys1 w w1 → steps input keys2 w1 w' → steps input (keys1 ++ keys2) w w'.
Proof. induction 1; simpl; [done|]. intros. econstructor; eauto. Qed.

Lemma steps_snoc input keys key w w1 w' :
  steps input keys w w1 → convert_entry feature input key w1 = (Ok tt, w') →
  steps input (keys ++ [key]) w w'.
Proof. intros Hs He. eapply steps_app; [done|]. econstructor; [done|constructor]. Qed.

Lemma for_of_Ok {A} input (es : list (jstring * A)) w w' :
  for_of es (λ e, convert_entry feature input e.1) w = (Ok tt, w') ↔
  steps input es.*1 w w'.
Proof.
  revert w. induction es as [|[key x] es IH]; intros w; simpl.
  - split; [intros [= <-]; constructor | by inversion 1].
  - unfold mbind, M_bind. split.
    + destruct (convert_entry feature input key w) as [[[]|] w1] eqn:He; [|done].
      intros Hf. econstructor; [done|by apply IH].
    + inversion 1 as [|? ? ? w1 ? He Hs]; subst. rewrite He. by apply IH.
Qed.

(** A loop that throws completed the keys before some key, threw on that
    key and went no further. *)
Lemma for_of_Throw {A} input (es : list (jstring * A)) w e w' :
  for_of es (λ e, convert_entry feature input e.1) w = (Throw e, w') ↔
  ∃ pre key post w1,
    es.*1 = pre ++ key :: post ∧ steps input pre w w1 ∧
    convert_entry feature input key w1 = (Throw e, w').
Proof.
  revert w. induction es as [|[key x] es IH]; intros w;
    rewrite ?fmap_cons; cbn [for_of fst].
  - split; [done|]. intros (pre & ? & ? & ? & Hl & _). by destruct pre.
  - unfold mbind, M_bind.
    destruct (convert_entry feature input key w) as [[[]|e1] w1] eqn:He.
    + split.
      * intros Hf. apply IH in Hf as (pre & k & post & w2 & Hl & Hs & Hk).
        exists (key :: pre), k, post, w2.
        split_and!; [by rewrite Hl | by econstructor | done].
      * intros ([|k0 pre] & k & post & w2 & Hl & Hs & Hk); simplify_eq/=.
        { inversion Hs; subst. congruence. }
        inversion Hs as [|? ? ? w3 ? He' Hs']; subst.
        rewrite He in He'. injection He' as <-.
        apply IH. by exists pre, k, post, w2.
    + split.
      * intros [= <- <-]. exists [], key, es.*1, w. split_and!; [done|constructor|done].
      * intros ([|k0 pre] & k & post & w2 & Hl & Hs & Hk); simplify_eq/=.
        { inversion Hs; subst. congruence. }
        inversion Hs; subst. congruence.
Qed.

(** What the completed iterations leave behind. *)
Lemma steps_written input keys w w' :
  steps input keys w w' →
  ∃ texts,
    length texts = length keys ∧
    written w' = written w ++ zip (output_path <$> keys) texts ∧
    Fs.cwd (fs w') = Fs.cwd (fs w) ∧ Fs.dirs (fs w') = Fs.dirs (fs w).
Proof.
  induction 1 as [w|key keys w w1 w' He _ (texts & Hlen & Hw & Hc & Hd)].
  - exists []. by rewrite app_nil_r.
  - apply convert_entry_Ok in He as (text & h & disk & _ & Hwr & ->).
    apply writeFile_cwd in Hwr as [Hc1 Hd1]. simpl in *.
    exists (text :: texts). simpl. rewrite Hw, <- app_assoc. simpl.
    split_and!; [by rewrite Hlen|done|congruence|congruence].
Qed.

(** The files after the completed iterations: each key's text stored at
    the place its path resolves to. *)
Lemma steps_files input keys w w' :
  steps input keys w w' →
  ∃ lts : list (Fs.location * jstring),
    Forall2 (λ key lt, Fs.locate (fs w) (output_path key) = Ok lt.1) keys lts ∧
    written w' = written w ++ zip (output_path <$> keys) lts.*2 ∧
    Fs.files (fs w') = store (Fs.files (fs w)) lts ∧
    Fs.cwd (fs w') = Fs.cwd (fs w) ∧ Fs.dirs (fs w') = Fs.dirs (fs w).
Proof.
  induction 1 as [w|key keys w w1 w' He _ (lts & Hloc & Hw & Hf & Hc & Hd)].
  - exists []. split_and!; [constructor|by rewrite app_nil_r|done..].
  - apply convert_entry_Ok in He as (text & h & disk & _ & Hwr & ->).
    apply writeFile_Ok in Hwr as (l & Hl & ->). simpl in *.
    exists ((l, text) :: lts). split_and!; [|by rewrite Hw, <- app_assoc|done..].
    constructor; [done|].
    eapply Forall2_impl; [exact Hloc|]. intros k lt. simpl.
    by apply locate_dirs.
Qed.


Lemma steps_lookup input keys w w' i key :
  steps input keys w w' → keys !! i = Some key →
  ∃ wi wi',
    steps input (take i keys) w wi ∧
    convert_entry feature input key wi = (Ok tt, wi') ∧
    steps input (drop (S i) keys) wi' w'.
Proof.
  intros Hs. revert i. induction Hs as [w|k keys w w1 w' He Hs IH]; intros i; [done|].
  destruct i as [|i]; simpl.
  - intros [= ->]. exists w, w1. split_and!; [constructor|done..].
  - intros Hi. destruct (IH _ Hi) as (wi & wi' & H1 & H2 & H3).
    exists wi, wi'. split_and!; [by econstructor|done..].
Qed.

(** The script up to its loop. *)
Lemma run_eq disk :
  run feature disk =
    match Fs.readFile disk input_path with
    | Throw e => (Throw e, mkWorld disk [] [])
    | Ok text =>
        match JSON.parse text with
        | Throw e => (Throw e, mkWorld disk [] [])
        | Ok doc =>
            let '(input, h) := alloc doc [] in
            match get h input (js "objects") with
            | Throw e => (Throw e, mkWorld disk h [])
            | Ok objects =>
                match entries h objects with
                | Throw e => (Throw e, mkWorld disk h [])
                | Ok es =>
                    for_of es (λ e, convert_entry feature input e.1)
                      (mkWorld disk h [])
                end
            end
        end
    end.
Proof.
  unfold run, convert, readFile, JSON_parse, member, Object_entries, in_heap,
    hlift, throw, mbind, M_bind; simpl.
  destruct (Fs.readFile disk input_path) as [text|]; [|done].
  destruct (JSON.parse text) as [doc|]; simpl; [|done].
  destruct (alloc doc []) as [input h]; simpl.
  destruct (get h input (js "objects")) as [objects|]; simpl; [|done].
  by destruct (entries h objects).
Qed.

(** The same, for a document given as a tree: the loop runs over the
    keys of [Object.entries(doc.objects)]. *)
Lemma run_loop disk text doc objects es :
  Fs.readFile disk input_path = Ok text →
  JSON.parse text = Ok doc →
  get_own doc (js "objects") = Ok objects →
  JS.Object_entries objects = Ok es →
  ∃ xs : list (jstring * hval num),
    xs.*1 = es.*1 ∧
    run feature disk =
      for_of xs (λ e, convert_entry feature (alloc doc []).1 e.1)
        (mkWorld disk (alloc doc []).2 []).
Proof.
  intros Hread Hparse Hobjects Hes. rewrite run_eq, Hread, Hparse.
  destruct (alloc doc []) as [input h] eqn:Ha. simpl.
  apply alloc_spec in Ha as [_ Hrepr].
  pose proof (get_repr _ _ _ (js "objects") Hrepr) as Hget.
  rewrite Hobjects in Hget. destruct Hget as (x & -> & Hx).
  pose proof (entries_repr _ _ _ Hx) as Hent. rewrite Hes in Hent.
  destruct Hent as (xs & -> & Hkeys). by exists xs.
Qed.

End ScriptFacts.

(** ** Decimal numerals *)

Section Decimal.

Lemma chars_uint_chars d : chars_uint (uint_chars d) = Some d.
Proof. induction d; simpl; [done|by rewrite IHd..]. Qed.




Lemma canonical_N_to_string n : canonical_N (N_to_string n) = Some n.
Proof.
  unfold canonical_N, N_to_string. rewrite chars_uint_chars.
  rewrite DecimalN.Unsigned.of_to. by rewrite decide_True.
Qed.

Lemma canonical_N_Some s n : canonical_N s = Some n → s = N_to_string n.
Proof.
  unfold canonical_N. destruct (chars_uint s) as [d|]; [|done].
  case_decide; [|done]. by intros [= <-].
Qed.

End Decimal.

(** ** Objects have distinct keys *)

Section DistinctKeys.
Import JS.
Context `{Number num}.


Lemma lookup_key_None {A} k (l : list (jstring * A)) :
  lookup_key k l = None ↔ k ∉ l.*1.
Proof.
  unfold lookup_key. induction l as [|[k' v] l IH]; csimpl.
  - split; [intros _; apply not_elem_of_nil | done].
  - rewrite not_elem_of_cons. case_bool_decide; simpl in *.
    + split; [done | intros [? _]; congruence].
    + rewrite IH. split; [intros ?; split; congruence | tauto].
Qed.

Lemma lookup_key_Some {A} k (l : list (jstring * A)) v :
  lookup_key k l = Some v → (k, v) ∈ l.
Proof.
  unfold lookup_key. induction l as [|[k' v'] l IH]; simpl; [done|].
  case_bool_decide; simpl in *.
  - intros [= <-]. subst. left.
  - intros Hl. right. by apply IH.
Qed.

Lemma replace_key_keys {A} k (v : A) l : (replace_key k v l).*1 = l.*1.
Proof.
  induction l as [|[k' v'] l IH]; csimpl; [done|].
  case_decide; csimpl; [by subst | by rewrite IH].
Qed.

Lemma replace_key_values {A} (P : A → Prop) k v l :
  P v → Forall (λ kv, P kv.2) l → Forall (λ kv, P kv.2) (replace_key k v l).
Proof.
  intros Hv. induction 1 as [|[k' v'] l Hv' Hl IH]; simpl; [done|].
  case_decide; constructor; auto.
Qed.

Lemma insert_index_perm {A} i k (v : A) l : insert_index i k v l ≡ₚ (k, v) :: l.
Proof.
  induction l as [|[k' v'] l IH]; simpl; [done|].
  destruct (array_index k') as [j|]; [|done].
  destruct (j <? i)%N; [|done]. by rewrite IH, Permutation_swap.
Qed.


Lemma set_prop_values {A} (P : A → Prop) k v l :
  P v → Forall (λ kv, P kv.2) l → Forall (λ kv, P kv.2) (set_prop k v l).
Proof.
  intros Hv Hl. unfold set_prop.
  destruct (lookup_key k l); [by apply replace_key_values|].
  destruct (array_index k) as [i|].
  - rewrite insert_index_perm. by constructor.
  - apply Forall_app. split; [done|]. by constructor.
Qed.







End DistinctKeys.

(** ** Sample runs

    A working directory [/repo] that holds the directory [data]. *)

Module Sample.
Import JS.

(** JSON text written with apostrophes for the double quotes. *)
Definition json (s : string) : jstring :=
  (λ c, if decide (c = 39%N) then Char.QUOTE else c) <$> js s.

Definition disk (data_files : list (string * jstring)) : Fs.FS :=
  {| Fs.cwd := [js "repo"];
     Fs.dirs := {[ []; [js "repo"]; [js "repo"; js "data"] ]};
     Fs.files :=
       list_to_map ((λ f, ([js "repo"; js "data"; js f.1], f.2)) <$> data_files) |}.

Definition with_input (text : string) : Fs.FS :=
  disk [("swiss_stuffes.json"%string, json text)].

(** One polygon over one arc, the ring being delta-encoded. *)
Definition region_polygon : string :=
  "{'type':'Topology','transform':{'scale':[2,3],'translate':[10,20]},
    'objects':{'region':{'type':'Polygon','arcs':[[0]]}},
    'arcs':[[[0,0],[4,0],[0,5],[-4,-5]]]}".

(** The same polygon as the only member of a geometry collection. *)
Definition region_collection : string :=
  "{'type':'Topology','transform':{'scale':[2,3],'translate':[10,20]},
    'objects':{'region':{'type':'GeometryCollection','geometries':[
       {'type':'Polygon','arcs':[[0]]}]}},
    'arcs':[[[0,0],[4,0],[0,5],[-4,-5]]]}".


(** A key that climbs out of [data]. *)
Definition climbing_key : string :=
  "{'objects':{'../x':{'type':null},'c':{'type':null}},'arcs':[]}".

(** A key before and a key after one that asks for a missing directory. *)
Definition nested_key : string :=
  "{'objects':{'c':{'type':null},'a/b':{'type':null},'d':{'type':null}},'arcs':[]}".

(** A line without arcs. *)
Definition empty_line : string :=
  "{'objects':{'l':{'type':'LineString','arcs':[]}},'arcs':[]}".

Definition no_objects : string := "{'objects':{},'arcs':[]}".


(** A decoder that does nothing but hand its object back. *)
Definition echo : hval Z → hval Z → HM Z (hval Z) := λ _ o, hret o.

(** The document of a text, its object mapping and the entries of that. *)
Definition document (text : string) : value Z :=
  match JSON.parse (json text) with Ok v => v | Throw _ => VUndef end.

Definition mapping (text : string) : value Z :=
  match get_own (document text) (js "objects") with Ok v => v | Throw _ => VUndef end.

Definition entries_of (text : string) : list (jstring * value Z) :=
  match JS.Object_entries (mapping text) with Ok es => es | Throw _ => [] end.

Definition in_memory (text : string) : hval Z := (alloc (document text) []).1.

Definition loaded (text : string) : World Z :=
  mkWorld (with_input text) (alloc (document text) []).2 [].

Definition keys (names : list string) : list jstring := js <$> names.

Lemma completed {A W} (r : result A * W) a : r.1 = Ok a → r = (Ok a, r.2).
Proof. destruct r as [r w]. simpl. by intros ->. Qed.

Lemma thrown {A W} (r : result A * W) e : r.1 = Throw e → r = (Throw e, r.2).
Proof. destruct r as [r w]. simpl. by intros ->. Qed.
End Sample.

(** ** The claims *)

Section Claims.
Import JS.
Context `{Number num}.
Variable feature : hval num → hval num → HM num (hval num).


(** C6. If the document parses and [Object.entries] of its object mapping
    is empty, the run completes, writes nothing and leaves the disk as it
    was. *)
Theorem empty_mapping_writes_nothing (disk : Fs.FS) text doc objects :
  Fs.readFile disk input_path = Ok text →
  JSON.parse text = Ok doc →
  get_own doc (js "objects") = Ok objects →
  JS.Object_entries objects = Ok [] →
  ∃ w, run feature disk = (Ok tt, w) ∧ written w = [] ∧ fs w = disk.
Proof.
  intros Hread Hparse Hobjects Hes.
  destruct (run_loop feature _ _ _ _ _ Hread Hparse Hobjects Hes) as (xs & Hkeys & ->).
  destruct xs; [|done]. by eexists.
Qed.

End Claims.


Lemma empty_mapping_writes_nothing_witness :
  ∃ w, run Sample.echo (Sample.with_input Sample.no_objects) = (Ok tt, w)
       ∧ written w = [] ∧ fs w = Sample.with_input Sample.no_objects.
Proof.
  eapply (empty_mapping_writes_nothing Sample.echo _ (Sample.json Sample.no_objects)).
  - by vm_compute.
  - vm_compute; reflexivity.
  - vm_compute; reflexivity.
  - vm_compute; reflexivity.
Defined.

Section LoopClaims.
Import JS.
Context `{Number num}.
Variable feature : hval num → hval num → HM num (hval num).


(** The iteration of a key in a run that completes: what it read, decoded,
    serialized and wrote, and where its write is in the record of writes. *)
Lemma key_iteration (disk : Fs.FS) text doc objects es w :
  Fs.readFile disk input_path = Ok text →
  JSON.parse text = Ok doc →
  get_own doc (js "objects") = Ok objects →
  JS.Object_entries objects = Ok es →
  run feature disk = (Ok tt, w) →
  let input := (alloc doc []).1 in
  ∀ i key, es.*1 !! i = Some key →
    ∃ wi wi' os o geojson v content,
      steps feature input (take i es.*1) (mkWorld disk (alloc doc []).2 []) wi ∧
      get (mem wi) input (js "objects") = Ok os ∧
      get (mem wi) os key = Ok o ∧
      feature input o (mem wi) = (Ok geojson, mem wi') ∧
      reify (S (length (mem wi'))) (mem wi') geojson = Some v ∧
      JSON.stringify v 2 = Some content ∧
      Fs.writeFile (fs wi) (js "./data/" ++ key ++ js ".geojson") content = Ok (fs wi') ∧
      Fs.readFile (fs wi') (js "./data/" ++ key ++ js ".geojson") = Ok content ∧
      written wi' = written wi ++ [(js "./data/" ++ key ++ js ".geojson", content)] ∧
      written w !! i = Some (js "./data/" ++ key ++ js ".geojson", content).
Proof.
  intros Hread Hparse Hobjects Hes Hrun input i key Hi.
  destruct (run_loop feature _ _ _ _ _ Hread Hparse Hobjects Hes) as (xs & Hkeys & Heq).
  rewrite Heq in Hrun. apply for_of_Ok in Hrun. rewrite Hkeys in Hrun.
  fold input in Hrun. clearbody input.
  destruct (steps_lookup _ _ _ _ _ _ _ Hrun Hi) as (wi & wi' & Hpre & He & Hpost).
  pose proof He as He'.
  apply convert_entry_Ok in He' as (content & h & disk' & Hr & Hwr & ->).
  unfold render in Hr.
  destruct (get (mem wi) input (js "objects")) as [os|] eqn:Hos; [|done].
  destruct (get (mem wi) os key) as [o|] eqn:Ho; [|done].
  destruct (feature input o (mem wi)) as [[geojson|] h1] eqn:Hf; [|done].
  destruct (reify (S (length h1)) h1 geojson) as [v|] eqn:Hv; [|done].
  injection Hr as Hs <-.
  exists wi, (mkWorld disk' h1 (written wi ++ [(output_path key, content)])),
    os, o, geojson, v, content.
  split_and!; try done.
  - by apply read_after_write in Hwr.
  - apply steps_written in Hpre as (t1 & Hl1 & Hw1 & _).
    apply steps_written in Hpost as (t2 & Hl2 & Hw2 & _). simpl in *.
    rewrite Hw2, Hw1. rewrite <- !app_assoc.
    assert (length (zip (output_path <$> take i es.*1) t1) = i) as Hlen.
    { rewrite length_zip_with, length_fmap, Hl1, length_take.
      apply lookup_lt_Some in Hi. lia. }
    rewrite lookup_app_r by lia. by rewrite Hlen, Nat.sub_diag.
Qed.


(** C4.  If the iteration of a key throws, in the decoding or in the
    write, after the keys before it completed, then the run ends with that
    throw and in the world the throw left: the disk and the record of
    writes are those that the keys before left behind, one write per such
    key and none for the key that threw or for any later key. *)
Theorem failing_key_ends_run (disk : Fs.FS) text doc objects es pre key post w1 e w2 :
  Fs.readFile disk input_path = Ok text →
  JSON.parse text = Ok doc →
  get_own doc (js "objects") = Ok objects →
  JS.Object_entries objects = Ok es →
  es.*1 = pre ++ key :: post →
  steps feature (alloc doc []).1 pre (mkWorld disk (alloc doc []).2 []) w1 →
  convert_entry feature (alloc doc []).1 key w1 = (Throw e, w2) →
  run feature disk = (Throw e, w2) ∧
  fs w2 = fs w1 ∧
  written w2 = written w1 ∧
  (written w2).*1 = (λ key, js "./data/" ++ key ++ js ".geojson") <$> pre.
Proof.
  intros Hread Hparse Hobjects Hes Hsplit Hpre Hkey.
  destruct (run_loop feature _ _ _ _ _ Hread Hparse Hobjects Hes) as (xs & Hkeys & Heq).
  destruct (convert_entry_Throw _ _ _ _ _ _ Hkey) as [Hfs Hw].
  split_and!; [|done..|].
  - rewrite Heq. apply for_of_Throw. exists pre, key, post, w1.
    by rewrite Hkeys.
  - rewrite Hw. apply steps_written in Hpre as (texts & Hlen & -> & _). simpl.
    rewrite fst_zip; [done|]. rewrite length_fmap. lia.
Qed.


(** C10.  The path of a key is the plain concatenation, so a key with a
    slash leaves [./data]: in a run that completes, the key [../x] has a
    file [x.geojson] written into the working directory itself. *)
Theorem climbing_key_leaves_data (disk : Fs.FS) text doc objects es w :
  Fs.readFile disk input_path = Ok text →
  JSON.parse text = Ok doc →
  get_own doc (js "objects") = Ok objects →
  JS.Object_entries objects = Ok es →
  js "../x" ∈ es.*1 →
  run feature disk = (Ok tt, w) →
  (js "./data/" ++ js "../x" ++ js ".geojson") ∈ (written w).*1 ∧
  is_Some (Fs.files (fs w) !! (Fs.cwd disk ++ [js "x.geojson"])) ∧
  ¬ (Fs.cwd disk ++ [js "data"]) `prefix_of` (Fs.cwd disk ++ [js "x.geojson"]).
Proof.
  intros Hread Hparse Hobjects Hes Hkey Hrun.
  destruct (run_loop feature _ _ _ _ _ Hread Hparse Hobjects Hes) as (xs & Hkeys & Heq).
  rewrite Heq in Hrun. apply for_of_Ok in Hrun. rewrite Hkeys in Hrun.
  apply steps_files in Hrun as (lts & Hloc & Hw & Hf & _). simpl in *.
  apply list_elem_of_lookup in Hkey as [i Hi].
  destruct (Forall2_lookup_l _ _ _ _ _ Hloc Hi) as ([l t] & Hlt & Hl).
  apply locate_climbing in Hl. simpl in Hl. subst l.
  split_and!.
  - rewrite Hw, fst_zip.
    + apply list_elem_of_lookup. exists i. by rewrite list_lookup_fmap, Hi.
    + by rewrite !length_fmap, <- (Forall2_length _ _ _ Hloc), length_fmap.
  - rewrite Hf. apply store_is_Some. apply list_elem_of_lookup. exists i.
    by rewrite list_lookup_fmap, Hlt.
  - intros [k Hk]. rewrite <- app_assoc in Hk. apply app_inv_head in Hk.
    by vm_compute in Hk.
Qed.

(** The key [a/b] asks for the directory [./data/a]: without it no run
    completes. *)
Lemma nested_key_needs_directory (disk : Fs.FS) text doc objects es w :
  Fs.readFile disk input_path = Ok text →
  JSON.parse text = Ok doc →
  get_own doc (js "objects") = Ok objects →
  JS.Object_entries objects = Ok es →
  js "a/b" ∈ es.*1 →
  run feature disk = (Ok tt, w) →
  Fs.cwd disk ++ [js "data"; js "a"] ∈ Fs.dirs disk.
Proof.
  intros Hread Hparse Hobjects Hes Hkey Hrun.
  destruct (run_loop feature _ _ _ _ _ Hread Hparse Hobjects Hes) as (xs & Hkeys & Heq).
  rewrite Heq in Hrun. apply for_of_Ok in Hrun. rewrite Hkeys in Hrun.
  apply steps_files in Hrun as (lts & Hloc & _). simpl in *.
  apply list_elem_of_lookup in Hkey as [i Hi].
  destruct (Forall2_lookup_l _ _ _ _ _ Hloc Hi) as ([l t] & _ & Hl).
  by apply locate_nested in Hl.
Qed.

End LoopClaims.





Lemma failing_key_ends_run_witness :
  let disk := Sample.with_input Sample.nested_key in
  let input := (JS.alloc (Sample.document Sample.nested_key) []).1 in
  let w0 := mkWorld disk (JS.alloc (Sample.document Sample.nested_key) []).2 [] in
  let w1 := (convert_entry Sample.echo input (js "c") w0).2 in
  let w2 := (convert_entry Sample.echo input (js "a/b") w1).2 in
  run Sample.echo disk = (Throw ENOENT, w2) ∧
  fs w2 = fs w1 ∧
  written w2 = written w1 ∧
  (written w2).*1 = (λ key, js "./data/" ++ key ++ js ".geojson") <$> [js "c"].
Proof.
  intros disk input w0 w1 w2.
  assert (Fs.readFile disk input_path = Ok (Sample.json Sample.nested_key)) as H1
    by (vm_compute; reflexivity).
  assert (JSON.parse (Sample.json Sample.nested_key) = Ok (Sample.document Sample.nested_key))
    as H2 by (vm_compute; reflexivity).
  assert (JS.get_own (Sample.document Sample.nested_key) (js "objects")
          = Ok (Sample.mapping Sample.nested_key)) as H3 by (vm_compute; reflexivity).
  assert (JS.Object_entries (Sample.mapping Sample.nested_key)
          = Ok (Sample.entries_of Sample.nested_key)) as H4 by (vm_compute; reflexivity).
  assert ((Sample.entries_of Sample.nested_key).*1 = [js "c"] ++ js "a/b" :: [js "d"]) as H5
    by (vm_compute; reflexivity).
  assert (convert_entry Sample.echo input (js "c") w0 = (Ok tt, w1)) as H6
    by (apply Sample.completed; vm_compute; reflexivity).
  assert (convert_entry Sample.echo input (js "a/b") w1 = (Throw ENOENT, w2)) as H7
    by (apply Sample.thrown; vm_compute; reflexivity).
  exact (failing_key_ends_run Sample.echo disk _ _ _ _ _ _ _ w1 _ w2 H1 H2 H3 H4 H5
           (steps_cons _ _ _ _ _ _ _ H6 (steps_nil _ _ _)) H7).
Defined.


Lemma climbing_key_leaves_data_witness :
  let disk := Sample.with_input Sample.climbing_key in
  let w := (run Sample.echo disk).2 in
  (js "./data/" ++ js "../x" ++ js ".geojson") ∈ (written w).*1 ∧
  is_Some (Fs.files (fs w) !! (Fs.cwd disk ++ [js "x.geojson"])) ∧
  ¬ (Fs.cwd disk ++ [js "data"]) `prefix_of` (Fs.cwd disk ++ [js "x.geojson"]).
Proof.
  intros disk w.
  assert (Fs.readFile disk input_path = Ok (Sample.json Sample.climbing_key)) as H1
    by (vm_compute; reflexivity).
  assert (JSON.parse (Sample.json Sample.climbing_key) = Ok (Sample.document Sample.climbing_key))
    as H2 by (vm_compute; reflexivity).
  assert (JS.get_own (Sample.document Sample.climbing_key) (js "objects")
          = Ok (Sample.mapping Sample.climbing_key)) as H3 by (vm_compute; reflexivity).
  assert (JS.Object_entries (Sample.mapping Sample.climbing_key)
          = Ok (Sample.entries_of Sample.climbing_key)) as H4 by (vm_compute; reflexivity).
  assert (js "../x" ∈ (Sample.entries_of Sample.climbing_key).*1) as H5
    by (apply (bool_decide_unpack _); vm_compute; exact I).
  assert (run Sample.echo disk = (Ok tt, w)) as H6
    by (apply Sample.completed; vm_compute; reflexivity).
  exact (climbing_key_leaves_data Sample.echo disk _ _ _ _ w H1 H2 H3 H4 H5 H6).
Defined.

(** ** The decoder leaves the cells it is given as they are *)

Section Frame.
Import JS Topojson.
Context `{Number num}.
Implicit Types (h : heap num) (n : nat).

(** A computation [keeps] the first [n] cells when these are the same
    afterwards, however it ends; [Q] is what it promises of its result. *)
Definition keeps n {A} (m : HM num A) (Q : A → Prop) : Prop :=
  ∀ h r h', n ≤ length h → m h = (r, h') →
    length h ≤ length h' ∧ take n h' = take n h ∧ ∀ a, r = Ok a → Q a.

Lemma keeps_ret n {A} (a : A) (Q : A → Prop) : Q a → keeps n (hret a) Q.
Proof. intros Ha h r h' _ [= <- <-]. split_and!; [done..|]. by intros ? [= <-]. Qed.

Lemma keeps_throw n {A} e (Q : A → Prop) : keeps n (hthrow e) Q.
Proof. intros h r h' _ [= <- <-]. by split_and!. Qed.

Lemma keeps_lift n {A} (f : heap num → result A) : keeps n (hlift f) (λ _, True).
Proof. intros h r h' _ [= <- <-]. by split_and!. Qed.

Lemma keeps_new n c : keeps n (new c) (λ _, True).
Proof.
  intros h r h' Hn [= <- <-]. rewrite length_app. simpl.
  split_and!; [lia| |done]. by rewrite take_app_le.
Qed.

Lemma keeps_weaken n {A} (m : HM num A) (Q R : A → Prop) :
  keeps n m Q → (∀ a, Q a → R a) → keeps n m R.
Proof.
  intros Hm HQR h r h' Hn Hrun. destruct (Hm h r h' Hn Hrun) as (? & ? & HQ).
  split_and!; [done..|]. intros a Ha. by apply HQR, HQ.
Qed.

Lemma keeps_bind n {A B} (m : HM num A) (k : A → HM num B) (Q : A → Prop) R :
  keeps n m Q → (∀ a, Q a → keeps n (k a) R) → keeps n (hbind m k) R.
Proof.
  intros Hm Hk h r h' Hn. unfold hbind.
  destruct (m h) as [[a|e] h1] eqn:Hrun.
  - destruct (Hm h _ h1 Hn Hrun) as (Hlen & Htake & HQ). intros Hrun'.
    destruct (Hk a (HQ a eq_refl) h1 r h' ltac:(lia) Hrun') as (? & ? & ?).
    split_and!; [lia|congruence|done].
  - intros [= <- <-]. destruct (Hm h _ h1 Hn Hrun) as (? & ? & _). by split_and!.
Qed.

Lemma keeps_modify n l f : n ≤ l → keeps n (modify l f) (λ _, True).
Proof.
  intros Hl h r h' Hn. unfold modify.
  destruct (h !! l) as [[items|props]|]; intros [= <- <-]; try by split_and!.
  rewrite length_insert. split_and!; [done| |done]. by rewrite take_insert_ge.
Qed.

Lemma keeps_hmap n {A B} (f : A → HM num B) l :
  (∀ a, keeps n (f a) (λ _, True)) → keeps n (hmap f l) (λ _, True).
Proof.
  intros Hf. induction l as [|a l IH]; simpl; [by apply keeps_ret|].
  eapply keeps_bind; [apply Hf|]. intros b _.
  eapply keeps_bind; [apply IH|]. intros bs _. by apply keeps_ret.
Qed.

(** One step through a computation written with the notations of the
    decoder. *)
Ltac keeps_step :=
  cbv beta;
  lazymatch goal with
  | |- keeps _ (mbind _ _) _ => unfold mbind at 1, HM_bind at 1
  | |- keeps _ (mret _) _ => unfold mret at 1, HM_ret at 1
  | |- keeps _ (hbind _ _) _ => apply (keeps_bind _ _ _ (λ _, True)); [|intros ? _]
  | |- keeps _ (hret _) _ => by apply keeps_ret
  | |- keeps _ (hthrow _) _ => apply keeps_throw
  | |- keeps _ (hlift _) _ => apply keeps_lift
  | |- keeps _ (new _) _ => apply keeps_new
  | |- keeps _ (match ?x with _ => _ end) _ => destruct x
  | |- keeps _ (let '(_, _) := ?x in _) _ => destruct x
  end.

Lemma keeps_prop n x k : keeps n (prop x k) (λ _, True).
Proof. apply keeps_lift. Qed.

Lemma keeps_items_of n x : keeps n (items_of x) (λ _, True).
Proof. apply keeps_lift. Qed.

Lemma keeps_array_map n x f :
  (∀ y, keeps n (f y) (λ _, True)) → keeps n (array_map x f) (λ _, True).
Proof.
  intros Hf. unfold array_map. keeps_step. keeps_step; [apply keeps_items_of|].
  keeps_step; [|apply keeps_throw].
  keeps_step. keeps_step; [by apply keeps_hmap|]. apply keeps_new.
Qed.

Lemma keeps_array_loop n x : keeps n (array_loop x) (λ _, True).
Proof.
  unfold array_loop. keeps_step. keeps_step; [apply keeps_items_of|].
  keeps_step; [keeps_step; by apply keeps_ret | apply keeps_throw].
Qed.

Lemma keeps_number n x : keeps n (number x) (λ _, True).
Proof. unfold number. destruct x; try apply keeps_throw. keeps_step. by apply keeps_ret. Qed.

Lemma keeps_transform n t : keeps n (transform t) (λ _, True).
Proof.
  unfold transform. destruct (nullish t); [keeps_step; by apply keeps_ret|].
  do 8 (keeps_step; keeps_step; [apply keeps_prop|]).
  keeps_step. by apply keeps_ret.
Qed.

Lemma keeps_transform_point n t st input first :
  keeps n (transform_point t st input first) (λ _, True).
Proof.
  unfold transform_point. destruct t as [a|]; [|keeps_step; by apply keeps_ret].
  destruct (if first then _ else _) as [x0 y0].
  keeps_step. keeps_step; [apply keeps_array_loop|].
  destruct a0 as [|[] [|[] rest]]; try apply keeps_throw.
  do 4 (keeps_step; keeps_step; [apply keeps_number|]).
  keeps_step. keeps_step; [apply keeps_new|]. keeps_step. by apply keeps_ret.
Qed.

Section WithTable.
Variable transformPoint : option (affine num).
Variable arcs : hval num.

Lemma keeps_arc_at n i : keeps n (arc_at arcs i) (λ _, True).
Proof.
  unfold arc_at. keeps_step. keeps_step; [apply keeps_array_loop|].
  keeps_step. by apply keeps_ret.
Qed.

Lemma keeps_push_points n points a : ∀ st k,
  n ≤ points → keeps n (push_points transformPoint points st k a) (λ _, True).
Proof.
  induction a as [|p a IH]; intros st k Hp; simpl; [keeps_step; by apply keeps_ret|].
  keeps_step. keeps_step; [apply keeps_transform_point|].
  keeps_step. keeps_step. keeps_step; [by apply keeps_modify|]. by apply IH.
Qed.

Lemma keeps_arc n i points :
  n ≤ points → keeps n (arc transformPoint arcs i points) (λ _, True).
Proof.
  intros Hp. unfold arc.
  keeps_step. keeps_step; [by apply keeps_modify|].
  keeps_step. keeps_step; [apply keeps_number|].
  keeps_step. keeps_step; [apply keeps_arc_at|].
  keeps_step. keeps_step; [apply keeps_array_loop|].
  keeps_step. keeps_step; [by apply keeps_push_points|].
  destruct (num_ltz _); [by apply keeps_modify | keeps_step; by apply keeps_ret].
Qed.

Lemma keeps_point n p : keeps n (point transformPoint p) (λ _, True).
Proof.
  unfold point. keeps_step. keeps_step; [apply keeps_transform_point|].
  keeps_step. keeps_step. by apply keeps_ret.
Qed.

Lemma keeps_each_arc n l points :
  n ≤ points → keeps n (each_arc transformPoint arcs l points) (λ _, True).
Proof.
  intros Hp. induction l as [|i l IH]; simpl; [keeps_step; by apply keeps_ret|].
  keeps_step. keeps_step; [by apply keeps_arc|]. apply IH.
Qed.

(** The array of a line is a new cell. *)
Lemma keeps_line_cell n a :
  keeps n (line_cell transformPoint arcs a) (λ points, n ≤ points).
Proof.
  unfold line_cell. keeps_step.
  eapply (keeps_bind _ _ _ (λ points, n ≤ points)).
  { intros h r h' Hn [= <- <-]. rewrite length_app. simpl.
    split_and!; [lia|by rewrite take_app_le|]. by intros ? [= <-]. }
  intros points Hp.
  keeps_step. keeps_step; [apply keeps_array_loop|].
  keeps_step. keeps_step; [by apply keeps_each_arc|].
  keeps_step. keeps_step; [by apply keeps_modify|].
  keeps_step. by apply keeps_ret.
Qed.

Lemma keeps_line n a : keeps n (line transformPoint arcs a) (λ _, True).
Proof.
  unfold line. keeps_step. eapply keeps_bind; [apply keeps_line_cell|].
  intros points Hp. keeps_step. by apply keeps_ret.
Qed.

Lemma keeps_ring n a : keeps n (ring transformPoint arcs a) (λ _, True).
Proof.
  unfold ring. keeps_step. eapply keeps_bind; [apply keeps_line_cell|].
  intros points Hp. keeps_step. keeps_step; [by apply keeps_modify|].
  keeps_step. by apply keeps_ret.
Qed.

Lemma keeps_polygon n a : keeps n (polygon transformPoint arcs a) (λ _, True).
Proof. apply keeps_array_map. intros. apply keeps_ring. Qed.

Lemma keeps_with_coordinates n type c : keeps n (with_coordinates type c) (λ _, True).
Proof. apply keeps_new. Qed.

Lemma keeps_geometry n fuel : ∀ o,
  keeps n (geometry transformPoint arcs fuel o) (λ _, True).
Proof.
  induction fuel as [|fuel IH]; intros o; simpl; [apply keeps_throw|].
  keeps_step. keeps_step; [apply keeps_prop|].
  repeat (destruct (is_string _ _);
    [ keeps_step; keeps_step; [apply keeps_prop|];
      keeps_step; keeps_step;
        [ first [ by apply keeps_array_map
                | apply keeps_array_map; intros;
                  first [apply keeps_point | apply keeps_line | apply keeps_polygon]
                | apply keeps_point | apply keeps_line | apply keeps_polygon ]
        | first [apply keeps_new | apply keeps_with_coordinates] ]
    | ]).
  keeps_step. by apply keeps_ret.
Qed.

End WithTable.

Lemma keeps_object n topology o : keeps n (object topology o) (λ _, True).
Proof.
  unfold object. keeps_step. keeps_step; [apply keeps_prop|].
  keeps_step. keeps_step; [apply keeps_transform|].
  keeps_step. keeps_step; [apply keeps_prop|].
  keeps_step. keeps_step; [apply keeps_lift|]. apply keeps_geometry.
Qed.

Lemma keeps_feature1 n topology o : keeps n (feature1 topology o) (λ _, True).
Proof.
  unfold feature1. do 3 (keeps_step; keeps_step; [apply keeps_prop|]).
  keeps_step. keeps_step.
  { destruct (nullish _); [apply keeps_new | keeps_step; by apply keeps_ret]. }
  keeps_step. keeps_step; [apply keeps_object|].
  destruct (_ && _); [apply keeps_new|]. destruct (nullish _); apply keeps_new.
Qed.

Lemma keeps_named_object n topology name :
  keeps n (named_object topology name) (λ _, True).
Proof.
  unfold named_object. keeps_step. keeps_step; [apply keeps_prop|]. apply keeps_lift.
Qed.

Lemma keeps_feature n topology o : keeps n (feature topology o) (λ _, True).
Proof.
  unfold feature. keeps_step. keeps_step.
  { destruct o; first [apply keeps_named_object | keeps_step; by apply keeps_ret]. }
  keeps_step. keeps_step; [apply keeps_prop|].
  destruct (is_string _ _); [|apply keeps_feature1].
  keeps_step. keeps_step; [apply keeps_prop|].
  keeps_step. keeps_step; [apply keeps_array_map; intros; apply keeps_feature1|].
  apply keeps_new.
Qed.

(** Decoding only appends to the heap: every cell that existed before
    the call is the same after it, whether the call returns or throws. *)
Lemma feature_appends topology o h r h' :
  feature topology o h = (r, h') → ∃ ext, h' = h ++ ext.
Proof.
  intros Hrun.
  destruct (keeps_feature (length h) topology o h r h' (le_n _) Hrun) as (Hlen & Htake & _).
  exists (drop (length h) h').
  rewrite <- (take_drop (length h) h') at 1. f_equal.
  by rewrite Htake, take_ge.
Qed.

End Frame.

Section Unchanged.
Import JS.
Context `{Number num}.
Variable feature : hval num → hval num → HM num (hval num).

(** A decoder that only appends to the heap. *)
Hypothesis feature_appends : ∀ topology o h r h',
  feature topology o h = (r, h') → ∃ ext, h' = h ++ ext.

Lemma render_appends input key h r h' :
  render feature input key h = (r, h') → ∃ ext, h' = h ++ ext.
Proof.
  unfold render.
  destruct (get h input (js "objects")) as [os|]; [|intros [= _ <-]; exists []; by rewrite app_nil_r].
  destruct (get h os key) as [o|]; [|intros [= _ <-]; exists []; by rewrite app_nil_r].
  destruct (feature input o h) as [[geojson|] h1] eqn:Hf;
    apply feature_appends in Hf as [ext ->].
  - destruct (reify _ _ geojson); intros [= _ <-]; by exists ext.
  - intros [= _ <-]; by exists ext.
Qed.

Lemma convert_entry_appends input key w r w' :
  convert_entry feature input key w = (r, w') → ∃ ext, mem w' = mem w ++ ext.
Proof.
  rewrite convert_entry_eq.
  destruct (render feature input key (mem w)) as [[data|e] h] eqn:Hr;
    apply render_appends in Hr as [ext ->].
  - unfold writeFile. destruct data as [content|]; simpl.
    + destruct (Fs.writeFile _ _ _); intros [= _ <-]; by exists ext.
    + intros [= _ <-]; by exists ext.
  - intros [= _ <-]; by exists ext.
Qed.

Lemma for_of_appends {A} input (es : list (jstring * A)) : ∀ w r w',
  for_of es (λ e, convert_entry feature input e.1) w = (r, w') →
  ∃ ext, mem w' = mem w ++ ext.
Proof.
  induction es as [|[key x] es IH]; intros w r w'; simpl.
  - intros [= _ <-]. exists []. by rewrite app_nil_r.
  - unfold mbind, M_bind.
    destruct (convert_entry feature input key w) as [[[]|e] w1] eqn:He;
      apply convert_entry_appends in He as [ext1 Hw1].
    + intros [ext2 ->]%IH. exists (ext1 ++ ext2). by rewrite Hw1, app_assoc.
    + intros [= _ <-]. by exists ext1.
Qed.

(** However the run ends, the cells of the parsed document are in the
    heap as the parse built them, and the document read back from the
    heap is the one that was parsed. *)
Lemma run_keeps_document (disk : Fs.FS) text doc r w :
  Fs.readFile disk input_path = Ok text →
  JSON.parse text = Ok doc →
  run feature disk = (r, w) →
  (∃ ext, mem w = (alloc doc []).2 ++ ext) ∧ repr (mem w) (alloc doc []).1 doc.
Proof.
  intros Hread Hparse. rewrite run_eq, Hread, Hparse.
  destruct (alloc doc []) as [input h] eqn:Ha. simpl.
  apply alloc_spec in Ha as [_ Hrepr].
  assert (∀ w', (∃ ext, mem w' = h ++ ext) →
            (∃ ext, mem w' = h ++ ext) ∧ repr (mem w') input doc) as Hfin.
  { intros w' [ext Hw']. split; [by exists ext|]. rewrite Hw'. by apply repr_weaken. }
  destruct (get h input (js "objects")) as [os|].
  2:{ intros [= _ <-]. apply Hfin. exists []. by rewrite app_nil_r. }
  destruct (entries h os) as [es|].
  2:{ intros [= _ <-]. apply Hfin. exists []. by rewrite app_nil_r. }
  intros Hloop. apply Hfin. by apply for_of_appends in Hloop.
Qed.

End Unchanged.

(** C9.  With the decoder of topojson-client in the loop, the document in
    memory is never changed: however the run ends, every cell that the
    parse built is in the heap as it was built, and the value read back
    from [input] is the parsed document. *)
Theorem document_left_as_parsed `{JS.Number num} (disk : Fs.FS) text doc r w :
  Fs.readFile disk input_path = Ok text →
  JSON.parse text = Ok doc →
  main disk = (r, w) →
  (∃ ext, mem w = (JS.alloc doc []).2 ++ ext) ∧
  repr (mem w) (JS.alloc doc []).1 doc.
Proof.
  apply run_keeps_document. intros topology o h r' h'. apply feature_appends.
Qed.

Lemma document_left_as_parsed_witness :
  let disk := Sample.with_input Sample.region_collection in
  let doc := Sample.document Sample.region_collection in
  let w := (main (num := Z) disk).2 in
  (∃ ext, mem w = (JS.alloc doc []).2 ++ ext) ∧ repr (mem w) (JS.alloc doc []).1 doc.
Proof.
  intros disk doc w.
  assert (Fs.readFile disk input_path = Ok (Sample.json Sample.region_collection)) as H1
    by (vm_compute; reflexivity).
  assert (JSON.parse (Sample.json Sample.region_collection) = Ok doc) as H2
    by (vm_compute; reflexivity).
  assert (main disk = (Ok tt, w)) as H3
    by (apply Sample.completed; vm_compute; reflexivity).
  exact (document_left_as_parsed disk _ doc _ w H1 H2 H3).
Defined.

(** ** Text written by JSON.stringify is read back by JSON.parse *)

Section Quote.
Import JSON.

Lemma hex_value_digit n : (n < 16)%N → hex_value (hex_digit n) = Some n.
Proof.
  intros Hn.
  assert (n ∈ (N.of_nat <$> seq 0 16)) as Hin.
  { apply list_elem_of_fmap. exists (N.to_nat n). split; [lia|].
    apply elem_of_seq. lia. }
  simpl in Hin. repeat (apply elem_of_cons in Hin as [->|Hin]; [by vm_compute|]).
  by apply elem_of_nil in Hin.
Qed.

Lemma hex_digits_value c :
  (c < 65536)%N →
  (c / 4096 mod 16 * 4096 + c / 256 mod 16 * 256 + c / 16 mod 16 * 16 + c mod 16 = c)%N.
Proof. intros Hc. zify. Z.to_euclidean_division_equations. lia. Qed.

Lemma scan_unicode_escape c rest :
  (c < 65536)%N →
  scan_chars (unicode_escape c ++ rest) = push c (scan_chars rest).
Proof.
  intros Hc. unfold unicode_escape. simpl.
  rewrite !hex_value_digit by (apply N.mod_lt; lia).
  by rewrite hex_digits_value.
Qed.

Lemma scan_raw c rest :
  c ≠ Char.QUOTE → c ≠ Char.BACKSLASH → (c <? 32)%N = false →
  scan_chars (c :: rest) = push c (scan_chars rest).
Proof. intros H1 H2 H3. simpl. by rewrite !decide_False, H3 by done. Qed.

Lemma scan_quote_unit c rest :
  is_high_surrogate c = false →
  scan_chars (quote_unit c ++ rest) = push c (scan_chars rest).
Proof.
  intros Hhigh. unfold quote_unit.
  repeat (case_decide; [subst; by vm_compute|]).
  destruct (c <? 32)%N eqn:Hlt.
  { apply scan_unicode_escape. apply N.ltb_lt in Hlt. lia. }
  rewrite Hhigh. simpl.
  destruct (is_low_surrogate c) eqn:Hlow.
  { apply scan_unicode_escape. unfold is_low_surrogate in Hlow.
    apply andb_true_iff in Hlow as [_ Hle%N.leb_le]. lia. }
  by apply scan_raw.
Qed.

Lemma quote_chars_cons c s :
  quote_chars (c :: s) =
    if is_high_surrogate c then
      match s with
      | d :: s' =>
          if is_low_surrogate d then c :: d :: quote_chars s'
          else unicode_escape c ++ quote_chars s
      | [] => unicode_escape c
      end
    else quote_unit c ++ quote_chars s.
Proof. by destruct s. Qed.

(** A quoted string scans back to the string. *)
Lemma scan_quote_chars s : ∀ rest,
  scan_chars (quote_chars s ++ Char.QUOTE :: rest) = Some (s, rest).
Proof.
  induction s as [s IH] using (induction_ltof1 _ length). unfold ltof in IH.
  intros rest. destruct s as [|c s]; [done|].
  rewrite quote_chars_cons.
  destruct (is_high_surrogate c) eqn:Hhigh.
  - assert (c < 65536 ∧ c ≠ Char.QUOTE ∧ c ≠ Char.BACKSLASH ∧ (c <? 32) = false)%N
      as (Hc & Hq & Hb & H32).
    { unfold is_high_surrogate in Hhigh.
      apply andb_true_iff in Hhigh as [Hge%N.leb_le Hle%N.leb_le].
      unfold Char.QUOTE, Char.BACKSLASH. split_and!; try lia. apply N.ltb_ge. lia. }
    destruct s as [|d s].
    + by rewrite scan_unicode_escape.
    + destruct (is_low_surrogate d) eqn:Hlow.
      * assert (d ≠ Char.QUOTE ∧ d ≠ Char.BACKSLASH ∧ (d <? 32) = false)%N
          as (Hq' & Hb' & H32').
        { unfold is_low_surrogate in Hlow.
          apply andb_true_iff in Hlow as [Hge%N.leb_le Hle%N.leb_le].
          unfold Char.QUOTE, Char.BACKSLASH. split_and!; try lia. apply N.ltb_ge. lia. }
        rewrite <- !app_comm_cons, (scan_raw c), (scan_raw d) by done.
        rewrite IH by (simpl; lia). done.
      * rewrite <- app_assoc, scan_unicode_escape by done.
        rewrite IH by (simpl; lia). done.
  - rewrite <- app_assoc, scan_quote_unit by done.
    rewrite IH by (simpl; lia). done.
Qed.

End Quote.

Section RoundTrip.
Import JS JSON.
Context `{Number num}.

(** *** Values that JSON text can carry *)

(** What may follow a value in a text. *)
Definition delimited (rest : jstring) : Prop :=
  match rest with
  | [] => True
  | c :: _ =>
      (is_ws c = true) ∨ (c = Char.COMMA) ∨ (c = Char.RBRACKET) ∨ (c = Char.RBRACE)
  end.

(** The numeral of a number is one of the JSON grammar's, ends where the
    numeral ends whatever delimiter follows, and is read back as the
    number. *)
Definition numeral_reads_back (n : num) : Prop :=
  ∀ lit, NumberToString n = Some lit →
    StringToNumber lit = n ∧
    ∀ rest, delimited rest → scan_number (lit ++ rest) = Some (lit, rest).

Definition index_below (i : N) (k : jstring) : Prop :=
  ∃ j, array_index k = Some j ∧ (j < i)%N.

(** Keys in the order in which an object keeps them: no key twice, and an
    array index only after smaller array indexes. *)
Fixpoint ordered_from (seen ks : list jstring) : Prop :=
  match ks with
  | [] => True
  | k :: ks =>
      (k ∉ seen) ∧
      (∀ i, array_index k = Some i → Forall (index_below i) seen) ∧
      ordered_from (seen ++ [k]) ks
  end.

Definition ordered (ks : list jstring) : Prop := ordered_from [] ks.

(** The values that a text carries as they are: no [undefined] anywhere,
    every number with a numeral, every object with its keys in the order
    of its properties. *)
Inductive jsonable : value num → Prop :=
| jsonable_null : jsonable VNull
| jsonable_bool b : jsonable (VBool b)
| jsonable_num n : is_Some (NumberToString n) → jsonable (VNum n)
| jsonable_str s : jsonable (VStr s)
| jsonable_arr l : Forall jsonable l → jsonable (VArr l)
| jsonable_obj l :
    ordered l.*1 → Forall (λ kv, jsonable kv.2) l → jsonable (VObj l).

(** The members of an object that are written: those that are not
    [undefined]. *)
Fixpoint defined (l : list (jstring * value num)) : list (jstring * value num) :=
  match l with
  | [] => []
  | (k, VUndef) :: l => defined l
  | kv :: l => kv :: defined l
  end.

(** What the text of a value carries: an array item that is [undefined],
    and a number without a numeral, are written as null; a member that is
    [undefined] is not written; the members that are written are set one
    after the other on a new object. *)
Fixpoint carried (v : value num) : value num :=
  match v with
  | VUndef => VNull
  | VNum n => if NumberToString n is Some _ then VNum n else VNull
  | VArr l => VArr (carried <$> l)
  | VObj l =>
      build_object
        ((fix members (l : list (jstring * value num)) :=
            match l with
            | [] => []
            | (k, VUndef) :: l => members l
            | (k, x) :: l => (k, carried x) :: members l
            end) l)
  | _ => v
  end.

(** *** Objects are rebuilt as they were *)

Lemma insert_index_last {A} i k (v : A) l :
  Forall (index_below i) l.*1 → insert_index i k v l = l ++ [(k, v)].
Proof.
  induction l as [|[k' v'] l IH]; csimpl; [done|].
  rewrite Forall_cons. intros [(j & -> & Hj) Hl].
  apply N.ltb_lt in Hj. rewrite Hj. by rewrite IH by done.
Qed.

Lemma set_prop_last {A} k (v : A) l :
  k ∉ l.*1 →
  (∀ i, array_index k = Some i → Forall (index_below i) l.*1) →
  set_prop k v l = l ++ [(k, v)].
Proof.
  intros Hk Hi. unfold set_prop.
  rewrite (proj2 (lookup_key_None k l) Hk).
  destruct (array_index k) as [i|]; [|done].
  apply insert_index_last. by apply Hi.
Qed.

Lemma fold_set_prop_ordered (l : list (jstring * value num)) : ∀ acc,
  ordered_from acc.*1 l.*1 →
  fold_left (λ o kv, set_prop kv.1 kv.2 o) l acc = acc ++ l.
Proof.
  induction l as [|[k v] l IH]; intros acc; csimpl.
  - by rewrite app_nil_r.
  - intros (Hk & Hi & Hl). rewrite set_prop_last by done.
    rewrite IH by by rewrite fmap_app. by rewrite <- app_assoc.
Qed.

Lemma build_ordered (l : list (jstring * value num)) :
  ordered l.*1 → build_object l = VObj l.
Proof.
  intros Hl. unfold build_object. by rewrite (fold_set_prop_ordered l []).
Qed.

(** *** White space and delimiters *)

Definition blank (s : jstring) : Prop := Forall (λ c, is_ws c = true) s.

(** The first character of a value's text. *)
Definition opens (text : jstring) : Prop :=
  match text with
  | [] => False
  | c :: _ =>
      is_ws c = false ∧ c ≠ Char.COMMA ∧ c ≠ Char.COLON ∧
      c ≠ Char.RBRACKET ∧ c ≠ Char.RBRACE
  end.

Lemma skip_ws_blank ws s : blank ws → skip_ws (ws ++ s) = skip_ws s.
Proof. induction 1 as [|c ws Hc _ IH]; simpl; [done|]. by rewrite Hc. Qed.

Lemma skip_ws_opens text r : opens text → skip_ws (text ++ r) = text ++ r.
Proof. destruct text as [|c text]; [done|]. intros (Hc & _). simpl. by rewrite Hc. Qed.

Lemma skip_ws_char c r : is_ws c = false → skip_ws (c :: r) = c :: r.
Proof. intros Hc. simpl. by rewrite Hc. Qed.

Lemma opens_app text r : opens text → opens (text ++ r).
Proof. by destruct text. Qed.

Lemma blank_break gap indent : blank indent → blank (break gap indent).
Proof. intros Hi. unfold break. case_decide; [constructor|]. by constructor. Qed.

Lemma delimited_blank ws c r :
  blank ws → c = Char.RBRACKET ∨ c = Char.RBRACE → delimited (ws ++ c :: r).
Proof. intros [|c' ws' Hc' _] Hc; simpl; tauto. Qed.

Lemma delimited_comma r : delimited (Char.COMMA :: r).
Proof. simpl. tauto. Qed.

(** *** Numerals and keywords *)

Lemma scan_number_head s lit r :
  scan_number s = Some (lit, r) →
  ∃ c lit', lit = c :: lit' ∧ (c = Char.MINUS ∨ is_digit c = true).
Proof.
  unfold scan_number.
  assert (∀ s1 i s2, scan_int s1 = Some (i, s2) →
            ∃ c i', i = c :: i' ∧ is_digit c = true) as Hint.
  { intros [|c s1] i s2; simpl; [done|]. case_decide.
    - intros [= <- _]. subst. by exists Char.ZERO, [].
    - destruct (is_digit c) eqn:Hc; [|done].
      destruct (span_digits s1) as [a b]. intros [= <- _]. by exists c, a. }
  destruct s as [|c s].
  - by simpl.
  - case_decide.
    + destruct (scan_int s) as [[i s2]|]; [|done].
      destruct (scan_frac s2) as [f s3], (scan_exp s3) as [e s4].
      intros [= <- _]. exists c, (i ++ f ++ e). split; [done|]. by left.
    + destruct (scan_int (c :: s)) as [[i s2]|] eqn:Hi; [|done].
      destruct (scan_frac s2) as [f s3], (scan_exp s3) as [e s4].
      intros [= <- _]. destruct (Hint _ _ _ Hi) as (c' & i' & -> & Hc').
      exists c', (i' ++ f ++ e). split; [done|]. by right.
Qed.

Lemma numeral_head c :
  c = Char.MINUS ∨ is_digit c = true →
  is_ws c = false ∧ c ≠ Char.COMMA ∧ c ≠ Char.COLON ∧
  c ≠ Char.RBRACKET ∧ c ≠ Char.RBRACE ∧
  c ≠ Char.LBRACE ∧ c ≠ Char.LBRACKET ∧ c ≠ Char.QUOTE ∧
  c ≠ 110%N ∧ c ≠ 116%N ∧ c ≠ 102%N.
Proof.
  intros [->|Hc]; [by vm_compute|].
  unfold is_digit in Hc. apply andb_true_iff in Hc as [H1%N.leb_le H2%N.leb_le].
  unfold is_ws, Char.COMMA, Char.COLON, Char.RBRACKET, Char.RBRACE, Char.LBRACE,
    Char.LBRACKET, Char.QUOTE, Char.TAB, Char.LF, Char.CR, Char.SPACE.
  split_and!; try lia. apply bool_decide_eq_false. lia.
Qed.

Lemma scan_keyword_here k rest : scan_keyword k (k ++ rest) = Some rest.
Proof.
  unfold scan_keyword. rewrite take_app_length, decide_True by done.
  by rewrite drop_app_length.
Qed.

Lemma scan_keyword_other k0 k c s : c ≠ k0 → scan_keyword (k0 :: k) (c :: s) = None.
Proof.
  intros Hc. unfold scan_keyword. simpl. rewrite decide_False; [done|]. congruence.
Qed.

Lemma parse_value_S fuel c r :
  parse_value (num := num) (S fuel) (c :: r) =
    if decide (c = Char.LBRACE) then
      match skip_ws r with
      | c' :: r' =>
          if decide (c' = Char.RBRACE) then Some (VObj [], r')
          else
            match parse_members fuel (c' :: r') with
            | Some (ms, r'') => Some (build_object ms, r'')
            | None => None
            end
      | [] => None
      end
    else if decide (c = Char.LBRACKET) then
      match skip_ws r with
      | c' :: r' =>
          if decide (c' = Char.RBRACKET) then Some (VArr [], r')
          else
            match parse_elements fuel (c' :: r') with
            | Some (vs, r'') => Some (VArr vs, r'')
            | None => None
            end
      | [] => None
      end
    else if decide (c = Char.QUOTE) then
      match scan_chars r with
      | Some (str, r') => Some (VStr str, r')
      | None => None
      end
    else parse_scalar (c :: r).
Proof. reflexivity. Qed.

Lemma parse_elements_S fuel s :
  parse_elements (num := num) (S fuel) s =
    match parse_value fuel s with
    | Some (v, r) =>
        match skip_ws r with
        | c :: r' =>
            if decide (c = Char.COMMA) then
              match parse_elements fuel (skip_ws r') with
              | Some (vs, r'') => Some (v :: vs, r'')
              | None => None
              end
            else if decide (c = Char.RBRACKET) then Some ([v], r')
            else None
        | [] => None
        end
    | None => None
    end.
Proof. reflexivity. Qed.

Lemma parse_members_S fuel q r :
  parse_members (num := num) (S fuel) (q :: r) =
    if decide (q = Char.QUOTE) then
      match scan_chars r with
      | Some (k, r1) =>
          match skip_ws r1 with
          | c :: r2 =>
              if decide (c = Char.COLON) then
                match parse_value fuel (skip_ws r2) with
                | Some (v, r3) =>
                    match skip_ws r3 with
                    | c' :: r4 =>
                        if decide (c' = Char.COMMA) then
                          match parse_members fuel (skip_ws r4) with
                          | Some (ms, r5) => Some ((k, v) :: ms, r5)
                          | None => None
                          end
                        else if decide (c' = Char.RBRACE) then Some ([(k, v)], r4)
                        else None
                    | [] => None
                    end
                | None => None
                end
              else None
          | [] => None
          end
      | None => None
      end
    else None.
Proof. reflexivity. Qed.

Lemma parse_numeral n lit rest fuel :
  scan_number (lit ++ rest) = Some (lit, rest) →
  StringToNumber lit = n →
  parse_value (S fuel) (lit ++ rest) = Some (VNum n, rest).
Proof.
  intros Hscan Hn.
  destruct (scan_number_head _ _ _ Hscan) as (c & lit' & -> & Hc).
  apply numeral_head in Hc as (_ & _ & _ & _ & _ & H1 & H2 & H3 & H4 & H5 & H6).
  rewrite <- app_comm_cons, parse_value_S, !decide_False by done.
  unfold parse_scalar. change (js "null") with (110%N :: js "ull").
  change (js "true") with (116%N :: js "rue").
  change (js "false") with (102%N :: js "alse").
  rewrite !scan_keyword_other by done.
  rewrite app_comm_cons, Hscan. by rewrite Hn.
Qed.

(** *** The round trip *)

Lemma carried_obj l :
  carried (VObj l) = build_object ((λ kv, (kv.1, carried kv.2)) <$> defined l).
Proof.
  cbn [carried]. f_equal.
  induction l as [|[k x] l IH]; [done|]. destruct x; csimpl; by rewrite ?IH.
Qed.

Lemma defined_Forall (P : jstring * value num → Prop) l :
  Forall P l → Forall P (defined l).
Proof.
  induction 1 as [|[k x] l Hx _ IH]; [constructor|]. destruct x; simpl; by try constructor.
Qed.

Lemma defined_jsonable l : Forall (λ kv, jsonable kv.2) l → defined l = l.
Proof.
  induction 1 as [|[k x] l Hx _ IH]; [done|]. simpl in Hx.
  destruct x; simpl; rewrite ?IH; try done. inversion Hx.
Qed.

(** A value that a text carries as it is, is carried as it is. *)
Lemma carried_jsonable v : jsonable v → carried v = v.
Proof.
  induction v as [| |b|n|s|l IH|l IH] using value_ind; intros Hv.
  - inversion Hv.
  - done.
  - done.
  - inversion Hv as [| |? [lit Hlit]| | |]; subst. simpl. by rewrite Hlit.
  - done.
  - inversion Hv as [| | | |? Hl|]; subst. cbn [carried]. f_equal.
    clear Hv. induction l as [|x l IHl]; [done|].
    apply Forall_cons in IH as [Hx IH]. apply Forall_cons in Hl as [Hjx Hl].
    rewrite fmap_cons, (Hx Hjx). f_equal. by apply IHl.
  - inversion Hv as [| | | | |? Hord Hl]; subst.
    rewrite carried_obj, (defined_jsonable _ Hl).
    assert ((λ kv : jstring * value num, (kv.1, carried kv.2)) <$> l = l) as ->.
    { clear Hord Hv. induction l as [|[k x] l IHl]; [done|].
      apply Forall_cons in IH as [Hx IH]. apply Forall_cons in Hl as [Hjx Hl].
      cbn [fst snd] in *. rewrite fmap_cons. cbn [fst snd]. rewrite (Hx Hjx).
      f_equal. by apply IHl. }
    by apply build_ordered.
Qed.

Section Gap.
Variable gap : jstring.
Hypothesis gap_blank : blank gap.
Hypothesis numerals : ∀ n : num, numeral_reads_back n.

(** The text of an array item, and of the value of a member. *)
Definition item_text (indent : jstring) (v : value num) : jstring :=
  default (js "null") (serialize gap indent v).

Definition member_text (indent : jstring) (kv : jstring * value num) : jstring :=
  member gap kv.1 (item_text indent kv.2).

Lemma serialize_arr sb l :
  serialize gap sb (VArr l) =
    Some (wrap gap sb Char.LBRACKET Char.RBRACKET (item_text (sb ++ gap) <$> l)).
Proof. reflexivity. Qed.

Lemma serialize_obj sb l :
  serialize gap sb (VObj l) =
    Some (wrap gap sb Char.LBRACE Char.RBRACE (member_text (sb ++ gap) <$> defined l)).
Proof.
  cbn [serialize]. do 2 f_equal.
  induction l as [|[k x] l IH]; [done|].
  destruct x as [| |[]| | | |]; csimpl; by rewrite ?IH.
Qed.

Lemma wrap_cons sb o c p ps :
  wrap gap sb o c (p :: ps) =
    o :: break gap (sb ++ gap)
      ++ join (Char.COMMA :: break gap (sb ++ gap)) (p :: ps)
      ++ break gap sb ++ [c].
Proof. reflexivity. Qed.

Lemma join_cons sep p q ps : join sep (p :: q :: ps) = p ++ sep ++ join sep (q :: ps).
Proof. reflexivity. Qed.

Lemma opens_join sep p ps : opens p → opens (join sep (p :: ps)).
Proof. destruct ps; [done|]. rewrite join_cons. apply opens_app. Qed.

(** The text of an item starts a value. *)
Lemma item_text_opens sb v : opens (item_text sb v).
Proof.
  unfold item_text. destruct v as [| |[]|n|s|l|l].
  1-4: by vm_compute.
  - cbn [serialize default from_option id].
    destruct (NumberToString n) as [lit|] eqn:Hlit; [|by vm_compute].
    destruct (numerals n lit Hlit) as [_ Hscan].
    specialize (Hscan [] I). rewrite app_nil_r in Hscan.
    destruct (scan_number_head _ _ _ Hscan) as (c & lit' & -> & Hc).
    apply numeral_head in Hc. simpl. tauto.
  - apply (opens_app [Char.QUOTE]). by vm_compute.
  - rewrite serialize_arr. cbn [default from_option id].
    destruct (_ <$> l); [by vm_compute|].
    rewrite wrap_cons. apply (opens_app [Char.LBRACKET]). by vm_compute.
  - rewrite serialize_obj. cbn [default from_option id].
    destruct (_ <$> defined l); [by vm_compute|].
    rewrite wrap_cons. apply (opens_app [Char.LBRACE]). by vm_compute.
Qed.

Lemma member_text_opens sb kv : opens (member_text sb kv).
Proof. apply (opens_app [Char.QUOTE]). by vm_compute. Qed.

(** The text of a value, followed by a delimiter, is read as what it
    carries, and the reading stops at the delimiter. *)
Definition reads_back (v : value num) : Prop :=
  ∀ sb rest fuel,
    blank sb → delimited rest → length (item_text sb v) ≤ fuel →
    parse_value fuel (item_text sb v ++ rest) = Some (carried v, rest).

Lemma parse_null rest fuel :
  parse_value (num := num) (S fuel) (js "null" ++ rest) = Some (VNull, rest).
Proof.
  change (js "null" ++ rest) with (110%N :: (js "ull" ++ rest)).
  rewrite parse_value_S, !decide_False by done.
  change (110%N :: (js "ull" ++ rest)) with (js "null" ++ rest).
  unfold parse_scalar. by rewrite scan_keyword_here.
Qed.

Lemma parse_elements_join indent br close rest :
  blank indent → blank br → blank close →
  ∀ l fuel,
    Forall reads_back l →
    l ≠ [] →
    length (join (Char.COMMA :: br) (item_text indent <$> l)) < fuel →
    parse_elements fuel
      (join (Char.COMMA :: br) (item_text indent <$> l) ++ close ++ Char.RBRACKET :: rest)
      = Some (carried <$> l, rest).
Proof.
  intros Hind Hbr Hclose l.
  induction l as [|v l IH]; intros fuel Hback Hne Hlen; [done|].
  apply Forall_cons in Hback as [Hv Hl].
  destruct fuel as [|fuel]; [lia|]. rewrite parse_elements_S.
  destruct l as [|v' l'].
  - csimpl in *.
    rewrite (Hv indent _ fuel Hind) by (first [lia | apply delimited_blank; auto]).
    rewrite skip_ws_blank, skip_ws_char by done.
    by rewrite decide_False, decide_True.
  - rewrite !fmap_cons in *. rewrite join_cons in *.
    rewrite !length_app in Hlen. cbn [length] in Hlen.
    rewrite <- !app_assoc. rewrite <- app_comm_cons.
    rewrite (Hv indent _ fuel Hind) by (first [lia | apply delimited_comma]).
    rewrite skip_ws_char, decide_True by done.
    rewrite skip_ws_blank by done.
    rewrite skip_ws_opens by apply opens_join, item_text_opens.
    rewrite (IH fuel); [done|done|done|]. lia.
Qed.

Lemma parse_members_join indent br close rest :
  blank indent → blank br → blank close →
  ∀ l fuel,
    Forall (λ kv, reads_back kv.2) l →
    l ≠ [] →
    length (join (Char.COMMA :: br) (member_text indent <$> l)) < fuel →
    parse_members fuel
      (join (Char.COMMA :: br) (member_text indent <$> l) ++ close ++ Char.RBRACE :: rest)
      = Some ((λ kv, (kv.1, carried kv.2)) <$> l, rest).
Proof.
  intros Hind Hbr Hclose l.
  induction l as [|[k v] l IH]; intros fuel Hback Hne Hlen; [done|].
  apply Forall_cons in Hback as [Hv Hl]. cbn [snd] in Hv.
  destruct fuel as [|fuel]; [lia|].
  assert (blank (if decide (gap = []) then [] else [Char.SPACE])) as Hsp.
  { case_decide; repeat constructor. }
  assert (∀ R, member_text indent (k, v) ++ R =
               Char.QUOTE :: quote_chars k ++ Char.QUOTE ::
                 Char.COLON :: (if decide (gap = []) then [] else [Char.SPACE]) ++
                   item_text indent v ++ R)
    as Hmember.
  { intros R. unfold member_text, member, quote. cbn [app fst snd].
    rewrite <- !app_assoc. cbn [app]. by rewrite <- !app_assoc. }
  assert (length (item_text indent v) < length (member_text indent (k, v))) as Hshort.
  { unfold member_text, member, quote. cbn [app length fst snd]. rewrite !length_app.
    cbn [length]. rewrite length_app. lia. }
  assert (opens (item_text indent v)) as Hopen by apply item_text_opens.
  destruct l as [|kv' l'].
  - rewrite !fmap_cons, !fmap_nil in *. cbn [join] in *.
    rewrite Hmember, parse_members_S, decide_True by done.
    rewrite scan_quote_chars. rewrite skip_ws_char, decide_True by done.
    rewrite skip_ws_blank, skip_ws_opens by done.
    rewrite (Hv indent _ fuel Hind) by (first [lia | apply delimited_blank; auto]).
    rewrite skip_ws_blank, skip_ws_char by done.
    by rewrite decide_False, decide_True.
  - rewrite !fmap_cons in *. rewrite join_cons in *.
    rewrite !length_app in Hlen. cbn [length] in Hlen.
    rewrite <- !app_assoc.
    rewrite Hmember, parse_members_S, decide_True by done.
    rewrite scan_quote_chars. rewrite skip_ws_char, decide_True by done.
    rewrite skip_ws_blank, skip_ws_opens by done.
    rewrite <- app_comm_cons.
    rewrite (Hv indent _ fuel Hind) by (first [lia | apply delimited_comma]).
    rewrite skip_ws_char, decide_True by done.
    rewrite skip_ws_blank by done.
    rewrite skip_ws_opens by apply opens_join, member_text_opens.
    rewrite (IH fuel); [done|done|done|]. lia.
Qed.

(** Every value is read back from its text as what the text carries. *)
Lemma serialize_reads_back v : reads_back v.
Proof.
  induction v as [| |b|n|s|l IH|l IH] using value_ind;
    intros sb rest fuel Hsb Hrest Hlen; unfold item_text in *.
  - destruct fuel as [|fuel]; [simpl in Hlen; lia|]. apply parse_null.
  - destruct fuel as [|fuel]; [simpl in Hlen; lia|]. apply parse_null.
  - destruct fuel as [|fuel]; [destruct b; simpl in Hlen; lia|].
    destruct b; cbn [serialize default from_option id].
    + change (js "true" ++ rest) with (116%N :: (js "rue" ++ rest)).
      rewrite parse_value_S, !decide_False by done.
      unfold parse_scalar. change (js "null") with (110%N :: js "ull").
      rewrite scan_keyword_other by done.
      change (116%N :: (js "rue" ++ rest)) with (js "true" ++ rest).
      by rewrite scan_keyword_here.
    + change (js "false" ++ rest) with (102%N :: (js "alse" ++ rest)).
      rewrite parse_value_S, !decide_False by done.
      unfold parse_scalar. change (js "null") with (110%N :: js "ull").
      change (js "true") with (116%N :: js "rue").
      rewrite !scan_keyword_other by done.
      change (102%N :: (js "alse" ++ rest)) with (js "false" ++ rest).
      by rewrite scan_keyword_here.
  - cbn [serialize default from_option id carried] in *.
    destruct (NumberToString n) as [lit|] eqn:Hlit; cbn [default from_option id] in *.
    + destruct (numerals n lit Hlit) as [Hn Hscan].
      destruct fuel as [|fuel].
      { specialize (Hscan [] I). rewrite app_nil_r in Hscan.
        destruct (scan_number_head _ _ _ Hscan) as (c & lit' & -> & _).
        simpl in Hlen. lia. }
      by apply parse_numeral; [apply Hscan|].
    + destruct fuel as [|fuel]; [simpl in Hlen; lia|]. apply parse_null.
  - cbn [serialize default from_option id carried] in *.
    destruct fuel as [|fuel]; [simpl in Hlen; lia|].
    unfold quote. rewrite <- app_comm_cons, parse_value_S.
    rewrite decide_False, decide_False, decide_True by done.
    rewrite <- app_assoc. simpl. by rewrite scan_quote_chars.
  - rewrite serialize_arr in *. cbn [default from_option id carried] in *.
    destruct l as [|v l].
    + destruct fuel as [|fuel]; [simpl in Hlen; lia|].
      unfold wrap. cbn [app fmap list_fmap].
      by rewrite parse_value_S, decide_False, decide_True, skip_ws_char,
        decide_True by done.
    + rewrite fmap_cons, wrap_cons in *. rewrite <- fmap_cons in *.
      destruct fuel as [|fuel]; [simpl in Hlen; lia|].
      rewrite <- app_comm_cons, parse_value_S.
      rewrite decide_False, decide_True by done.
      rewrite <- !app_assoc.
      assert (blank (sb ++ gap)) as Hind by by apply Forall_app.
      rewrite skip_ws_blank by by apply blank_break.
      assert (opens (join (Char.COMMA :: break gap (sb ++ gap))
                       (item_text (sb ++ gap) <$> v :: l))) as Hj'.
      { rewrite fmap_cons. apply opens_join, item_text_opens. }
      rewrite skip_ws_opens by done.
      destruct (join _ (_ <$> v :: l)) as [|c' r'] eqn:Hjoin; [done|].
      destruct Hj' as (_ & _ & _ & Hc' & _).
      rewrite <- app_comm_cons, decide_False by done.
      rewrite app_comm_cons, <- Hjoin. simpl app at 3.
      rewrite (parse_elements_join (sb ++ gap) _ _ rest Hind
                 (blank_break _ _ Hind) (blank_break _ _ Hsb) (v :: l));
        [done|done|done|].
      rewrite Hjoin. cbn [length] in *.
      rewrite !length_app in Hlen. cbn [length] in Hlen. lia.
  - rewrite serialize_obj, carried_obj in *. cbn [default from_option id] in *.
    apply (defined_Forall (λ kv, reads_back kv.2)) in IH.
    destruct (defined l) as [|kv ms].
    + destruct fuel as [|fuel]; [simpl in Hlen; lia|].
      unfold wrap. cbn [app fmap list_fmap].
      by rewrite parse_value_S, decide_True, skip_ws_char, decide_True by done.
    + rewrite fmap_cons, wrap_cons in *. rewrite <- fmap_cons in *.
      destruct fuel as [|fuel]; [simpl in Hlen; lia|].
      rewrite <- app_comm_cons, parse_value_S.
      rewrite decide_True by done.
      rewrite <- !app_assoc.
      assert (blank (sb ++ gap)) as Hind by by apply Forall_app.
      rewrite skip_ws_blank by by apply blank_break.
      assert (opens (join (Char.COMMA :: break gap (sb ++ gap))
                       (member_text (sb ++ gap) <$> kv :: ms))) as Hj'.
      { rewrite fmap_cons. apply opens_join, member_text_opens. }
      rewrite skip_ws_opens by done.
      destruct (join _ (_ <$> kv :: ms)) as [|c' r'] eqn:Hjoin; [done|].
      destruct Hj' as (_ & _ & _ & _ & Hc').
      rewrite <- app_comm_cons, decide_False by done.
      rewrite app_comm_cons, <- Hjoin. simpl app at 3.
      rewrite (parse_members_join (sb ++ gap) _ _ rest Hind
                 (blank_break _ _ Hind) (blank_break _ _ Hsb) (kv :: ms));
        [done|done|done|].
      rewrite Hjoin. cbn [length] in *.
      rewrite !length_app in Hlen. cbn [length] in Hlen. lia.
Qed.

End Gap.

(** [JSON.parse] of the text of [JSON.stringify] gives what the text
    carries. *)
Lemma parse_stringify v space text :
  (∀ n : num, numeral_reads_back n) →
  stringify v space = Some text → parse text = Ok (carried v).
Proof.
  intros Hnum Hs. unfold stringify in Hs.
  set (gap := replicate (Nat.min space 10) Char.SPACE) in *.
  assert (blank gap) as Hgap.
  { apply Forall_forall. intros c Hc. by apply elem_of_replicate in Hc as [-> _]. }
  pose proof (serialize_reads_back gap Hgap Hnum v [] [] (S (length text))) as Hback.
  pose proof (item_text_opens gap Hnum [] v) as Hopen.
  unfold item_text in *. rewrite Hs in *. cbn [default from_option id] in *.
  rewrite app_nil_r in Hback.
  unfold parse. rewrite <- (app_nil_r text) at 2. rewrite skip_ws_opens, app_nil_r by done.
  rewrite Hback; [done|constructor|done|lia].
Qed.

(** The text is read back as the value itself when it carries it as it is. *)
Lemma parse_stringify_jsonable v space text :
  (∀ n : num, numeral_reads_back n) →
  jsonable v →
  stringify v space = Some text → parse text = Ok v.
Proof.
  intros Hnum Hv Hs. rewrite (parse_stringify v space text Hnum Hs).
  by rewrite carried_jsonable.
Qed.


End RoundTrip.

(** ** Integers are written and read back exactly *)

Section IntegerNumerals.
Import JS JSON.

Definition numeral_end (rest : jstring) : Prop :=
  match rest with
  | [] => True
  | c :: _ => is_digit c = false ∧ c ≠ Char.DOT ∧ c ≠ 101%N ∧ c ≠ 69%N
  end.

Lemma delimited_numeral_end rest : delimited rest → numeral_end rest.
Proof.
  destruct rest as [|c rest]; [done|]. simpl. unfold is_ws.
  rewrite bool_decide_eq_true.
  intros [[->| [->| [->| ->]]]| [->| [->| ->]]]; by vm_compute.
Qed.

Lemma uint_chars_digits d : Forall (λ c, is_digit c = true) (uint_chars d).
Proof. induction d; simpl; by constructor. Qed.

Lemma N_to_string_shape n :
  N_to_string n = [Char.ZERO] ∨
  ∃ c s, N_to_string n = c :: s ∧ c ≠ Char.ZERO ∧ c ≠ Char.MINUS ∧ is_digit c = true ∧
         Forall (λ c, is_digit c = true) s.
Proof.
  unfold N_to_string.
  assert (N.to_uint n = unorm (N.to_uint n)) as Hnorm.
  { rewrite <- DecimalN.Unsigned.to_of. by rewrite DecimalN.Unsigned.of_to. }
  pose proof (uint_chars_digits (N.to_uint n)) as Hd.
  destruct (uint_eq_dec (nzhead (N.to_uint n)) Nil) as [Hz|Hnz].
  - left. apply unorm_0 in Hz. by rewrite Hnorm, Hz.
  - right. pose proof (unorm_nzhead _ Hnz) as Hu. rewrite <- Hnorm in Hu.
    pose proof (nzhead_nonzero (N.to_uint n)) as Hnot. rewrite <- Hu in Hnot, Hnz.
    destruct (N.to_uint n) as [|d|d|d|d|d|d|d|d|d|d]; simpl in *;
      [done|by destruct (Hnot d)|..];
      eexists _, _; (split; [done|]); apply Forall_cons in Hd as [? ?]; done.
Qed.

Lemma span_digits_app s rest :
  Forall (λ c, is_digit c = true) s → numeral_end rest →
  span_digits (s ++ rest) = (s, rest).
Proof.
  intros Hs Hrest. induction Hs as [|c s Hc _ IH]; simpl.
  - destruct rest as [|c rest]; [done|]. destruct Hrest as [Hc _]. simpl. by rewrite Hc.
  - by rewrite Hc, IH.
Qed.

Lemma scan_int_N n rest :
  numeral_end rest → scan_int (N_to_string n ++ rest) = Some (N_to_string n, rest).
Proof.
  intros Hrest. destruct (N_to_string_shape n) as [->|(c & s & -> & Hc & _ & Hd & Hs)].
  - done.
  - simpl. rewrite decide_False, Hd by done. by rewrite span_digits_app.
Qed.

Lemma scan_frac_end rest : numeral_end rest → scan_frac rest = ([], rest).
Proof.
  destruct rest as [|p [|c r]]; [done|done|]. intros (_ & Hp & _).
  simpl. by rewrite decide_False.
Qed.

Lemma scan_exp_end rest : numeral_end rest → scan_exp rest = ([], rest).
Proof.
  destruct rest as [|e r]; [done|]. intros (_ & _ & He & HE).
  simpl. rewrite decide_False; [done|]. by intros [?|?].
Qed.

Lemma scan_number_N n rest :
  numeral_end rest → scan_number (N_to_string n ++ rest) = Some (N_to_string n, rest).
Proof.
  intros Hrest. unfold scan_number.
  assert (∃ c s, N_to_string n = c :: s ∧ c ≠ Char.MINUS) as (c & s & Hn & Hc).
  { destruct (N_to_string_shape n) as [->|(c & s & -> & _ & Hc & _)]; by eexists _, _. }
  rewrite Hn at 1. cbn [app]. rewrite decide_False by done. cbv beta iota.
  rewrite scan_int_N, scan_frac_end, scan_exp_end by done.
  by rewrite !app_nil_r.
Qed.

Lemma scan_number_Z z rest :
  numeral_end rest → scan_number (Z_to_string z ++ rest) = Some (Z_to_string z, rest).
Proof.
  intros Hrest. unfold Z_to_string. destruct (z <? 0)%Z; [|by apply scan_number_N].
  unfold scan_number. cbn [app]. rewrite decide_True by done. cbv beta iota.
  rewrite scan_int_N, scan_frac_end, scan_exp_end by done.
  by rewrite !app_nil_r.
Qed.

Lemma digits_value_N n : digits_value (JSON.span_digits (N_to_string n)).1 = Z.of_N n.
Proof.
  rewrite <- (app_nil_r (N_to_string n)).
  rewrite span_digits_app by (done || apply uint_chars_digits).
  unfold digits_value, N_to_string. cbn [fst].
  by rewrite chars_uint_chars, DecimalN.Unsigned.of_to.
Qed.

Lemma string_to_Z_to_string z : string_to_Z (Z_to_string z) = z.
Proof.
  unfold Z_to_string. destruct (z <? 0)%Z eqn:Hz.
  - unfold string_to_Z. rewrite decide_True by done. rewrite digits_value_N. lia.
  - assert (∃ c s, N_to_string (Z.abs_N z) = c :: s ∧ c ≠ Char.MINUS) as (c & s & Hn & Hc).
    { destruct (N_to_string_shape (Z.abs_N z)) as [->|(c & s & -> & _ & Hc & _)];
        by eexists _, _. }
    unfold string_to_Z. rewrite Hn, decide_False by done. rewrite <- Hn.
    rewrite digits_value_N. lia.
Qed.

(** Every integer has a numeral, and the numeral reads back. *)
Lemma integer_reads_back (z : Z) : numeral_reads_back z.
Proof.
  intros lit [= <-]. split; [apply string_to_Z_to_string|].
  intros rest Hrest. by apply scan_number_Z, delimited_numeral_end.
Qed.

Lemma integer_has_numeral (z : Z) : is_Some (NumberToString z).
Proof. by eexists. Qed.

End IntegerNumerals.

(** ** The written text is valid JSON *)

Section TextClaims.
Import JS.
Context `{Number num}.
Variable feature : hval num → hval num → HM num (hval num).

(** C8, as amended.  With numbers whose numerals read back, in a run that
    completes the text written for every key is valid JSON: [JSON.parse]
    accepts it, and gives what the text carries of the value that the
    decoding produced, which is that value with every array item that is
    [undefined] turned into null and every member that is [undefined]
    left out.  The parse gives the decoded value itself when that value
    holds no [undefined] and no number without a numeral, its objects
    keeping their keys in the order of their properties. *)
Theorem written_text_parses_back (disk : Fs.FS) text doc objects es w :
  (∀ n : num, numeral_reads_back n) →
  Fs.readFile disk input_path = Ok text →
  JSON.parse text = Ok doc →
  get_own doc (js "objects") = Ok objects →
  JS.Object_entries objects = Ok es →
  run feature disk = (Ok tt, w) →
  let input := (alloc doc []).1 in
  ∀ i key, es.*1 !! i = Some key →
    ∃ wi wi' os o geojson v content,
      steps feature input (take i es.*1) (mkWorld disk (alloc doc []).2 []) wi ∧
      get (mem wi) input (js "objects") = Ok os ∧
      get (mem wi) os key = Ok o ∧
      feature input o (mem wi) = (Ok geojson, mem wi') ∧
      reify (S (length (mem wi'))) (mem wi') geojson = Some v ∧
      written w !! i = Some (js "./data/" ++ key ++ js ".geojson", content) ∧
      JSON.stringify v 2 = Some content ∧
      JSON.parse content = Ok (carried v) ∧
      (jsonable v → JSON.parse content = Ok v).
Proof.
  intros Hnum Hread Hparse Hobjects Hes Hrun input i key Hi.
  destruct (key_iteration feature disk text doc objects es w
              Hread Hparse Hobjects Hes Hrun i key Hi)
    as (wi & wi' & os & o & geojson & v & content &
        Hpre & Hos & Ho & Hf & Hv & Hs & _ & _ & _ & Hw).
  exists wi, wi', os, o, geojson, v, content. split_and!; try done.
  - by apply (parse_stringify v 2).
  - intros Hj. by apply (parse_stringify_jsonable v 2).
Qed.

End TextClaims.

Lemma written_text_parses_back_witness :
  let disk := Sample.with_input Sample.region_collection in
  ∃ content (v : JS.value Z),
    written (main (num := Z) disk).2 !! 0%nat
      = Some (js "./data/" ++ js "region" ++ js ".geojson", content) ∧
    JSON.stringify v 2 = Some content ∧
    JSON.parse content = Ok (carried v).
Proof.
  intros disk.
  assert (Fs.readFile disk input_path = Ok (Sample.json Sample.region_collection)) as H1
    by (vm_compute; reflexivity).
  assert (JSON.parse (Sample.json Sample.region_collection)
          = Ok (Sample.document Sample.region_collection)) as H2
    by (vm_compute; reflexivity).
  assert (JS.get_own (Sample.document Sample.region_collection) (js "objects")
          = Ok (Sample.mapping Sample.region_collection)) as H3
    by (vm_compute; reflexivity).
  assert (JS.Object_entries (Sample.mapping Sample.region_collection)
          = Ok (Sample.entries_of Sample.region_collection)) as H4
    by (vm_compute; reflexivity).
  assert (main disk = (Ok tt, (main disk).2)) as H5
    by (apply Sample.completed; vm_compute; reflexivity).
  assert ((Sample.entries_of Sample.region_collection).*1 !! 0%nat = Some (js "region"))
    as H6 by (vm_compute; reflexivity).
  destruct (written_text_parses_back Topojson.feature disk _ _ _ _ _
              integer_reads_back H1 H2 H3 H4 H5 0%nat (js "region") H6)
    as (wi & wi' & os & o & geojson & v & content & _ & _ & _ & _ & _ & Hw & Hs & Hp & _).
  exists content, v. exact (conj Hw (conj Hs Hp)).
Defined.

(** A line without arcs is decoded to the one point [undefined]; the text
    holds null in its place, and null is what is read back. *)
Lemma undefined_point_is_read_back_as_null :
  let disk := Sample.with_input Sample.empty_line in
  let w0 := Sample.loaded Sample.empty_line in
  let input := Sample.in_memory Sample.empty_line in
  ∃ os o geojson h v content v',
    main disk = (Ok tt, (main disk).2) ∧
    JS.get (mem w0) input (js "objects") = Ok os ∧
    JS.get (mem w0) os (js "l") = Ok o ∧
    Topojson.feature input o (mem w0) = (Ok geojson, h) ∧
    JS.reify (S (length h)) h geojson = Some v ∧
    rbind (JS.get_own v (js "geometry")) (λ g, JS.get_own g (js "coordinates"))
      = Ok (JS.VArr [JS.VUndef]) ∧
    JSON.stringify v 2 = Some content ∧
    written (main disk).2 = [(js "./data/l.geojson", content)] ∧
    JSON.parse content = Ok v' ∧
    rbind (JS.get_own v' (js "geometry")) (λ g, JS.get_own g (js "coordinates"))
      = Ok (JS.VArr [JS.VNull]) ∧
    v' ≠ v.
Proof.
  intros disk w0 input. eexists _, _, _, _, _, _, _.
  split_and!; try (vm_compute; reflexivity).
  vm_compute. discriminate.
Qed.

(** ** The minimal topology

    One key, [region], bound to a polygon over the one arc of the arc
    table, or to a geometry collection that holds this polygon; the arc
    has four points, delta-encoded, and the transform is any. *)

Module Region.
Import JS.
Definition obj (l : list (string * value Z)) : value Z :=
  VObj ((λ kv, (js kv.1, kv.2)) <$> l).
Definition str (s : string) : value Z := VStr (js s).
Definition pt (x y : Z) : value Z := VArr [VNum x; VNum y].

Section Numbers.
Variables (kx ky dx dy : Z).
Variables (x0 y0 x1 y1 x2 y2 x3 y3 : Z).

Definition polygon_object : value Z :=
  obj [("type", str "Polygon"); ("arcs", VArr [VArr [VNum 0%Z]])]%string.

Definition collection_object : value Z :=
  obj [("type", str "GeometryCollection");
       ("geometries", VArr [polygon_object])]%string.

Definition topology (region : value Z) : value Z :=
  obj [("type", str "Topology");
       ("transform", obj [("scale", pt kx ky); ("translate", pt dx dy)]);
       ("objects", obj [("region", region)]);
       ("arcs", VArr [VArr [pt x0 y0; pt x1 y1; pt x2 y2; pt x3 y3]])]%string.

Definition absolute (x y : Z) : value Z := pt (x * kx + dx)%Z (y * ky + dy)%Z.

Definition ring : value Z :=
  VArr [absolute x0 y0;
        absolute (x0 + x1)%Z (y0 + y1)%Z;
        absolute (x0 + x1 + x2)%Z (y0 + y1 + y2)%Z;
        absolute (x0 + x1 + x2 + x3)%Z (y0 + y1 + y2 + y3)%Z].

Definition polygon : value Z :=
  obj [("type", str "Polygon"); ("coordinates", VArr [ring])]%string.

Definition feature : value Z :=
  obj [("type", str "Feature"); ("properties", obj []); ("geometry", polygon)]%string.

Definition feature_collection : value Z :=
  obj [("type", str "FeatureCollection"); ("features", VArr [feature])]%string.
End Numbers.
End Region.

Section RegionFacts.
Import JS.
Variables (kx ky dx dy : Z).
Variables (x0 y0 x1 y1 x2 y2 x3 y3 : Z).

Let topology := Region.topology kx ky dx dy x0 y0 x1 y1 x2 y2 x3 y3.
Let feature := Region.feature kx ky dx dy x0 y0 x1 y1 x2 y2 x3 y3.
Let feature_collection := Region.feature_collection kx ky dx dy x0 y0 x1 y1 x2 y2 x3 y3.

Definition region_of (collection : bool) : value Z :=
  if collection then Region.collection_object else Region.polygon_object.

Definition decoded_of (collection : bool) : value Z :=
  if collection then feature_collection else feature.

(** The decoder on the region of the minimal topology. *)
Lemma render_region collection :
  let doc := topology (region_of collection) in
  (render Topojson.feature (alloc doc []).1 (js "region") (alloc doc []).2).1 =
    Ok (JSON.stringify (decoded_of collection) 2).
Proof. destruct collection; vm_compute; reflexivity. Qed.

Lemma plain_keys_ordered_from (ks : list jstring) : ∀ seen,
  NoDup ks → Forall (λ k, array_index k = None) ks → (∀ k, k ∈ ks → k ∉ seen) →
  ordered_from seen ks.
Proof.
  induction ks as [|k ks IH]; intros seen Hnd Hks Hseen; [done|].
  apply NoDup_cons in Hnd as [Hn Hnd]. apply Forall_cons in Hks as [Hk Hks].
  simpl. split_and!.
  - apply Hseen. left.
  - intros i Hi. congruence.
  - apply IH; [done|done|]. intros k' Hk'. rewrite elem_of_app, list_elem_of_singleton.
    intros [Hin | ->]; [|done]. by eapply Hseen; [right|].
Qed.

(** Keys that are not array indexes are kept in the order they were set. *)
Lemma plain_keys_ordered (ks : list jstring) :
  NoDup ks → Forall (λ k, array_index k = None) ks → ordered ks.
Proof.
  intros Hnd Hks. apply plain_keys_ordered_from; [done|done|].
  intros k _. apply not_elem_of_nil.
Qed.

Lemma decoded_jsonable collection : jsonable (decoded_of collection).
Proof.
  assert (∀ z : Z, jsonable (VNum z)) as Hnum.
  { intros z. constructor. apply integer_has_numeral. }
  assert (∀ l : list (string * value Z),
            NoDup (js <$> l.*1) → Forall (λ k, array_index k = None) (js <$> l.*1) →
            Forall (λ kv, jsonable kv.2) l → jsonable (Region.obj l)) as Hobj.
  { intros l Hnd Hks Hl. constructor.
    - rewrite <- list_fmap_compose. apply plain_keys_ordered.
      + by rewrite <- list_fmap_compose in Hnd.
      + by rewrite <- list_fmap_compose in Hks.
    - apply Forall_fmap. by eapply Forall_impl. }
  assert (∀ x y, jsonable (Region.pt x y)) as Hpt.
  { intros x y. constructor. by repeat constructor. }
  assert (jsonable feature) as Hf.
  { repeat first
      [ apply Hpt | apply jsonable_str | apply jsonable_arr
      | apply Forall_cons_2 | apply Forall_nil_2
      | apply Hobj;
        [apply (bool_decide_unpack _); vm_compute; exact I
        |repeat constructor|cbn [snd]] ]. }
  destruct collection; [|done].
  repeat first
    [ exact Hf | apply jsonable_str | apply jsonable_arr
    | apply Forall_cons_2 | apply Forall_nil_2
    | apply Hobj;
      [apply (bool_decide_unpack _); vm_compute; exact I
      |repeat constructor|cbn [snd]] ].
Qed.

End RegionFacts.

(** C2, as amended.  For the minimal topology, whatever its numbers, a run
    that completes wrote one file, [./data/region.geojson].  Its content
    is the text of a feature, not of a feature collection, when [region]
    is bound to the polygon itself, and the text of a feature collection
    with this single feature when [region] is bound to a geometry
    collection holding the polygon.  The coordinates of the feature's
    geometry are the one ring of the absolute points, each the sum of the
    deltas up to it, scaled and translated; the text is read back as this
    value. *)
Theorem region_polygon_is_decoded (disk : Fs.FS) text (w : World Z) (collection : bool)
    kx ky dx dy x0 y0 x1 y1 x2 y2 x3 y3 :
  Fs.readFile disk input_path = Ok text →
  JSON.parse text
    = Ok (Region.topology kx ky dx dy x0 y0 x1 y1 x2 y2 x3 y3 (region_of collection)) →
  main disk = (Ok tt, w) →
  let decoded := decoded_of kx ky dx dy x0 y0 x1 y1 x2 y2 x3 y3 collection in
  ∃ content,
    written w = [(js "./data/region.geojson", content)] ∧
    Fs.readFile (fs w) (js "./data/region.geojson") = Ok content ∧
    JSON.stringify decoded 2 = Some content ∧
    JSON.parse content = Ok decoded.
Proof.
  intros Hread Hparse Hrun decoded.
  set (doc := Region.topology kx ky dx dy x0 y0 x1 y1 x2 y2 x3 y3 (region_of collection))
    in *.
  destruct (run_loop Topojson.feature disk text doc
              (Region.obj [("region"%string, region_of collection)])
              [(js "region", region_of collection)] Hread Hparse)
    as (xs & Hkeys & Heq); [done|done|].
  unfold main in Hrun. rewrite Heq in Hrun. apply for_of_Ok in Hrun.
  rewrite Hkeys in Hrun. cbn [fmap list_fmap fst] in Hrun.
  inversion Hrun as [|? ? ? w1 ? He Hs]; subst. inversion Hs; subst.
  apply convert_entry_Ok in He as (content & h & disk' & Hr & Hwr & ->).
  pose proof (render_region kx ky dx dy x0 y0 x1 y1 x2 y2 x3 y3 collection) as Hdec.
  cbn zeta in Hdec. fold doc in Hdec. cbn [mem] in Hr. rewrite Hr in Hdec.
  injection Hdec as Hdec.
  exists content. split_and!.
  - done.
  - by apply read_after_write in Hwr.
  - done.
  - apply (parse_stringify_jsonable _ 2); [apply integer_reads_back| |done].
    apply decoded_jsonable.
Qed.

Lemma region_polygon_is_decoded_witness :
  let disk := Sample.with_input Sample.region_collection in
  Region.ring 2 3 10 20 0 0 4 0 0 5 (-4) (-5)
    = JS.VArr [Region.pt 10 20; Region.pt 18 20; Region.pt 18 35; Region.pt 10 20] ∧
  ∃ content,
    written (main (num := Z) disk).2 = [(js "./data/region.geojson", content)] ∧
    Fs.readFile (fs (main (num := Z) disk).2) (js "./data/region.geojson") = Ok content ∧
    JSON.stringify (Region.feature_collection 2 3 10 20 0 0 4 0 0 5 (-4) (-5)) 2
      = Some content ∧
    JSON.parse content = Ok (Region.feature_collection 2 3 10 20 0 0 4 0 0 5 (-4) (-5)).
Proof.
  intros disk.
  assert (Fs.readFile disk input_path = Ok (Sample.json Sample.region_collection)) as H1
    by (vm_compute; reflexivity).
  assert (JSON.parse (Sample.json Sample.region_collection)
          = Ok (Region.topology 2 3 10 20 0 0 4 0 0 5 (-4) (-5) (region_of true))) as H2
    by (vm_compute; reflexivity).
  assert (main disk = (Ok tt, (main disk).2)) as H3
    by (apply Sample.completed; vm_compute; reflexivity).
  split; [reflexivity|].
  exact (region_polygon_is_decoded disk _ _ true 2 3 10 20 0 0 4 0 0 5 (-4) (-5) H1 H2 H3).
Defined.

(** With [region] bound to the polygon itself, what is written is a
    feature: its type says so and it has no list of features. *)
Lemma polygon_key_gives_a_feature :
  let disk := Sample.with_input Sample.region_polygon in
  ∃ content v,
    main disk = (Ok tt, (main disk).2) ∧
    written (main (num := Z) disk).2 = [(js "./data/region.geojson", content)] ∧
    JSON.parse content = Ok v ∧
    JS.get_own v (js "type") = Ok (JS.VStr (js "Feature")) ∧
    JS.get_own v (js "features") = Ok JS.VUndef ∧
    rbind (JS.get_own v (js "geometry")) (λ g, JS.get_own g (js "coordinates"))
      = Ok (JS.VArr [Region.ring 2 3 10 20 0 0 4 0 0 5 (-4) (-5)]).
Proof.
  intros disk.
  exists (default [] (JSON.stringify (Region.feature 2 3 10 20 0 0 4 0 0 5 (-4) (-5)) 2)),
    (Region.feature 2 3 10 20 0 0 4 0 0 5 (-4) (-5)).
  split_and!; [apply Sample.completed|..]; (vm_compute; reflexivity).
Qed.

(** * Further properties of the script *)

Section ScriptEdges.
Import JS.
Context `{Number num}.
Variable feature : hval num → hval num → HM num (hval num).

Lemma parse_Throw text e : JSON.parse (num := num) text = Throw e → e = SyntaxError.
Proof.
  unfold JSON.parse. destruct (JSON.parse_value _ _) as [[v r]|]; [|congruence].
  destruct (JSON.skip_ws r); congruence.
Qed.

(** X1.  When the input file is read but its text is not JSON, the run
    throws a [SyntaxError] with nothing decoded and nothing written: the
    disk is the one the run started on. *)
Theorem malformed_input_is_a_syntax_error (disk : Fs.FS) text e :
  Fs.readFile disk input_path = Ok text →
  JSON.parse (num := num) text = Throw e →
  e = SyntaxError ∧
  run feature disk = (Throw SyntaxError, mkWorld disk [] []).
Proof.
  intros Hread Hparse. pose proof (parse_Throw _ _ Hparse) as ->.
  split; [done|]. by rewrite run_eq, Hread, Hparse.
Qed.

Lemma get_own_Throw (v : value num) k e : get_own v k = Throw e → e = TypeError.
Proof. destruct v; simpl; congruence. Qed.

(** X2.  When the document has no object mapping to list, because the
    document is [null], or has no member [objects], or has [null] for
    it, the run throws a [TypeError] before the loop: nothing is written
    and the disk is untouched. *)
Theorem missing_mapping_is_a_type_error (disk : Fs.FS) text doc :
  Fs.readFile disk input_path = Ok text →
  JSON.parse text = Ok doc →
  (∀ objects, get_own doc (js "objects") = Ok objects →
     objects = VUndef ∨ objects = VNull) →
  run feature disk = (Throw TypeError, mkWorld disk (alloc doc []).2 []).
Proof.
  intros Hread Hparse Hnone. rewrite run_eq, Hread, Hparse.
  destruct (alloc doc []) as [input h] eqn:Ha. cbn [snd].
  apply alloc_spec in Ha as [_ Hrepr].
  pose proof (get_repr _ _ _ (js "objects") Hrepr) as Hget.
  destruct (get_own doc (js "objects")) as [objects|e] eqn:Hobjects.
  - destruct Hget as (x & -> & Hx).
    pose proof (entries_repr _ _ _ Hx) as Hent.
    by destruct (Hnone _ eq_refl) as [-> | ->]; simpl in Hent; rewrite Hent.
  - rewrite Hget. by rewrite (get_own_Throw _ _ _ Hobjects).
Qed.

(** X3.  When the object mapping is an array, its keys are the indexes:
    a run that completes wrote [./data/0.geojson], [./data/1.geojson] and
    so on, one file per element and in this order. *)
Theorem array_mapping_writes_numbered_files (disk : Fs.FS) text doc l w :
  Fs.readFile disk input_path = Ok text →
  JSON.parse text = Ok doc →
  get_own doc (js "objects") = Ok (VArr l) →
  run feature disk = (Ok tt, w) →
  (written w).*1 =
    (λ i, js "./data/" ++ nat_to_string i ++ js ".geojson") <$> seq 0 (length l).
Proof.
  intros Hread Hparse Hobjects Hrun.
  destruct (run_loop feature _ _ _ _ _ Hread Hparse Hobjects eq_refl)
    as (xs & Hkeys & Heq).
  rewrite Heq in Hrun. apply for_of_Ok in Hrun. rewrite Hkeys in Hrun.
  apply steps_written in Hrun as (texts & Hlen & Hw & _). simpl in Hw.
  rewrite Hw, fst_zip by (rewrite length_fmap; lia).
  rewrite (imap_keys _ nat_to_string) by done.
  by rewrite <- list_fmap_compose.
Qed.

End ScriptEdges.

Section DiskFrame.
Import JS.
Context `{Number num}.
Variable feature : hval num → hval num → HM num (hval num).

(** What a run may do to a disk: it keeps the working directory and the
    directories, deletes no file, and leaves every file alone whose name
    does not end in [.geojson]. *)
Definition only_geojson_touched (before after : Fs.FS) : Prop :=
  Fs.cwd after = Fs.cwd before ∧
  Fs.dirs after = Fs.dirs before ∧
  (∀ l, is_Some (Fs.files before !! l) → is_Some (Fs.files after !! l)) ∧
  (∀ l, ¬ ends_geojson l → Fs.files after !! l = Fs.files before !! l).

Lemma store_keeps m (ws : list (Fs.location * jstring)) l :
  is_Some (m !! l) → is_Some (store m ws !! l).
Proof.
  revert m. induction ws as [|[l' t] ws IH]; intros m Hl; simpl; [done|].
  apply IH. destruct (decide (l' = l)) as [->|Hne].
  - by rewrite lookup_insert_eq.
  - by rewrite lookup_insert_ne.
Qed.

Lemma steps_only_geojson input keys w w' :
  steps feature input keys w w' → only_geojson_touched (fs w) (fs w').
Proof.
  intros Hs. apply steps_files in Hs as (lts & Hloc & _ & Hf & Hc & Hd).
  split_and!; [done|done|..].
  - intros l Hl. rewrite Hf. by apply store_keeps.
  - intros l Hl. rewrite Hf. apply store_other. intros Hin.
    apply list_elem_of_fmap in Hin as ([l' t] & -> & Hin).
    apply list_elem_of_lookup in Hin as [i Hi].
    destruct (Forall2_lookup_r _ _ _ _ _ Hloc Hi) as (key & _ & Hkey).
    by apply locate_output in Hkey.
Qed.

Lemma only_geojson_refl disk : only_geojson_touched disk disk.
Proof. by split_and!. Qed.

(** X4.  However a run ends, it has created and removed no directory,
    deleted no file, and changed no file whose name does not end in
    [.geojson]; the input file in particular reads as before. *)
Theorem run_touches_only_geojson_files (disk : Fs.FS) :
  let after := fs (run feature disk).2 in
  only_geojson_touched disk after ∧
  Fs.readFile after input_path = Fs.readFile disk input_path.
Proof.
  intros after.
  assert (only_geojson_touched disk after) as Hframe.
  { unfold after. rewrite run_eq.
    destruct (Fs.readFile disk input_path) as [text|]; [|apply only_geojson_refl].
    destruct (JSON.parse text) as [doc|]; [|apply only_geojson_refl].
    destruct (alloc doc []) as [input h].
    destruct (get h input (js "objects")) as [os|]; [|apply only_geojson_refl].
    destruct (entries h os) as [xs|]; [|apply only_geojson_refl].
    destruct (for_of xs _ _) as [[[]|e] w] eqn:Hrun; cbn [snd].
    - apply for_of_Ok in Hrun. by apply steps_only_geojson in Hrun.
    - apply for_of_Throw in Hrun as (pre & key & post & w1 & _ & Hpre & Hkey).
      apply convert_entry_Throw in Hkey as [-> _].
      by apply steps_only_geojson in Hpre. }
  split; [done|]. destruct Hframe as (Hc & Hd & _ & Hf).
  by apply readFile_input_agree.
Qed.

End DiskFrame.

Section Directories.
Import JS Fs.
Context `{Number num}.
Variable feature : hval num → hval num → HM num (hval num).

Lemma segments_slash a q :
  Char.SLASH ∉ a → segments (a ++ Char.SLASH :: q) = a :: segments q.
Proof.
  induction a as [|c a IH]; simpl.
  - done.
  - rewrite not_elem_of_cons. intros [Hc Ha].
    rewrite decide_False by done. by rewrite IH.
Qed.

(** The path of a key that starts with a directory name resolves only
    when [./data] holds that directory. *)
Lemma locate_below fs a rest l :
  plain_name a → Char.SLASH ∉ a →
  locate fs (js "./data/" ++ (a ++ Char.SLASH :: rest) ++ js ".geojson") = Ok l →
  cwd fs ++ [js "data"; a] ∈ dirs fs.
Proof.
  intros Hplain Ha. rewrite locate_in_data. case_decide; [done|].
  rewrite (enter_name _ _ _ plain_data).
  case_decide; cbn [rbind]; [|by case_decide].
  rewrite <- app_assoc, <- app_comm_cons, segments_slash by done.
  rewrite walk_cons by apply segments_nonempty.
  rewrite (enter_name _ _ _ Hplain), <- app_assoc. simpl.
  case_decide; [done|]. by case_decide.
Qed.

(** X5.  The script creates no directory.  A key [a/...] whose first
    segment [a] is a name asks for the directory [./data/a]: a run in
    which such a key is listed completes only if that directory was
    there from the start. *)
Theorem key_directory_must_exist (disk : Fs.FS) text doc objects es w a rest :
  Fs.readFile disk input_path = Ok text →
  JSON.parse text = Ok doc →
  get_own doc (js "objects") = Ok objects →
  JS.Object_entries objects = Ok es →
  a ++ Char.SLASH :: rest ∈ es.*1 →
  plain_name a → Char.SLASH ∉ a →
  run feature disk = (Ok tt, w) →
  Fs.cwd disk ++ [js "data"; a] ∈ Fs.dirs disk ∧ Fs.dirs (fs w) = Fs.dirs disk.
Proof.
  intros Hread Hparse Hobjects Hes Hkey Hplain Ha Hrun.
  destruct (run_loop feature _ _ _ _ _ Hread Hparse Hobjects Hes) as (xs & Hkeys & Heq).
  rewrite Heq in Hrun. apply for_of_Ok in Hrun. rewrite Hkeys in Hrun.
  apply steps_files in Hrun as (lts & Hloc & _ & _ & _ & Hd). simpl in *.
  split; [|done].
  apply list_elem_of_lookup in Hkey as [i Hi].
  destruct (Forall2_lookup_l _ _ _ _ _ Hloc Hi) as ([l t] & _ & Hl).
  by apply locate_below in Hl.
Qed.

End Directories.

(** ** Property order *)

Section PropertyOrder.
Import JS JSON.
Context `{Number num}.

Lemma ordered_from_seen seen seen' ks :
  (∀ k, k ∈ seen' → k ∈ seen) → ordered_from seen ks → ordered_from seen' ks.
Proof.
  revert seen seen'. induction ks as [|k ks IH]; intros seen seen' Hsub; [done|].
  simpl. intros (Hk & Hi & Hks). split_and!.
  - intros Hin. by apply Hk, Hsub.
  - intros i Hki. apply Forall_forall. intros x Hx.
    specialize (Hi i Hki). rewrite Forall_forall in Hi. by apply Hi, Hsub.
  - apply (IH (seen ++ [k])); [|done]. intros x. rewrite !elem_of_app.
    intros [?|?]; [left; by apply Hsub | by right].
Qed.

(** A key that holds an array index comes after smaller indexes only. *)
Lemma ordered_from_elem seen ks k i :
  ordered_from seen ks → k ∈ ks → array_index k = Some i →
  Forall (index_below i) seen.
Proof.
  revert seen. induction ks as [|k' ks IH]; intros seen; [by intros _ ?%elem_of_nil|].
  simpl. intros (_ & Hi & Hks). rewrite elem_of_cons. intros [->|Hin] Hk.
  - by apply Hi.
  - specialize (IH _ Hks Hin Hk). by apply Forall_app in IH as [? _].
Qed.

Lemma ordered_from_app seen ks1 ks2 :
  ordered_from seen (ks1 ++ ks2) ↔
  ordered_from seen ks1 ∧ ordered_from (seen ++ ks1) ks2.
Proof.
  revert seen. induction ks1 as [|k ks1 IH]; intros seen; simpl.
  - rewrite app_nil_r. tauto.
  - rewrite IH, <- app_assoc. simpl. tauto.
Qed.

Lemma array_index_inj k1 k2 i :
  array_index k1 = Some i → array_index k2 = Some i → k1 = k2.
Proof.
  unfold array_index.
  destruct (canonical_N k1) as [n1|] eqn:H1; [|done].
  destruct (canonical_N k2) as [n2|] eqn:H2; [|done].
  repeat case_match; try done. intros [= ->] [= ->].
  apply canonical_N_Some in H1, H2. congruence.
Qed.

(** Putting a new key among the seen ones, when every array index that
    follows is larger than its own. *)
Lemma ordered_from_later seen ks k i :
  ordered_from seen ks → k ∉ ks → array_index k = Some i →
  (∀ k2 i2, k2 ∈ ks → array_index k2 = Some i2 → (i < i2)%N) →
  ordered_from (seen ++ [k]) ks.
Proof.
  revert seen. induction ks as [|k2 ks IH]; intros seen; [done|].
  simpl. intros (Hk2 & Hi2 & Hks) Hk Hi Hlater.
  apply not_elem_of_cons in Hk as [Hne Hk]. split_and!.
  - rewrite elem_of_app, list_elem_of_singleton. intros [?|?]; congruence.
  - intros i2 Hki2. apply Forall_app. split; [by apply Hi2|].
    constructor; [|done]. exists i. split; [done|]. apply (Hlater k2); [left|done].
  - apply (ordered_from_seen ((seen ++ [k2]) ++ [k])).
    { intros x. rewrite !elem_of_app. tauto. }
    apply IH; [done..|]. intros k3 i3 Hk3. apply Hlater. by right.
Qed.

Lemma ordered_from_cons seen k ks :
  ordered_from seen (k :: ks) ↔
  (k ∉ seen) ∧ (∀ i, array_index k = Some i → Forall (index_below i) seen) ∧
  ordered_from (seen ++ [k]) ks.
Proof. done. Qed.

Lemma insert_index_ordered {A} i k (v : A) l : ∀ seen,
  ordered_from seen l.*1 → k ∉ seen → k ∉ l.*1 → array_index k = Some i →
  Forall (index_below i) seen →
  ordered_from seen (insert_index i k v l).*1.
Proof.
  induction l as [|[k' v'] l IH]; intros seen Hl Hseen Hk Hi Hbelow.
  - simpl. split_and!; [done| |done]. intros i' Hi'. congruence.
  - csimpl in *. apply not_elem_of_cons in Hk as [Hne Hk].
    assert ((∀ j, array_index k' = Some j → (i < j)%N) →
            ordered_from seen (k :: k' :: l.*1)) as Hfront.
    { intros Hk'. apply ordered_from_cons. split_and!; [done|intros i' ?; congruence|].
      apply (ordered_from_later seen (k' :: l.*1) k i); [exact Hl| |done|].
      - apply not_elem_of_cons. by split.
      - intros k2 i2 [->|Hin]%elem_of_cons Hi2; [by apply Hk'|].
        destruct Hl as (_ & _ & Hl).
        pose proof (ordered_from_elem _ _ _ _ Hl Hin Hi2) as Hb.
        apply Forall_app in Hb as [_ Hb]. apply Forall_cons in Hb as [(j & Hj & Hlt) _].
        specialize (Hk' j Hj). lia. }
    destruct (array_index k') as [j|] eqn:Hj; [|by apply Hfront].
    destruct (j <? i)%N eqn:Hlt.
    + destruct Hl as (Hk' & Hi' & Hl). rewrite fmap_cons. cbn [fst].
      apply ordered_from_cons.
      split_and!.
      * done.
      * intros i0 Hi0. apply Hi'. congruence.
      * apply IH; [done| |done|done|].
        -- rewrite elem_of_app, list_elem_of_singleton. intros [?|?]; congruence.
        -- apply Forall_app. split; [done|]. constructor; [|done].
           exists j. split; [done|]. by apply N.ltb_lt.
    + apply Hfront. intros j' [= <-]. apply N.ltb_ge in Hlt.
      assert (j ≠ i); [|lia]. intros ->. apply Hne. by eapply array_index_inj.
Qed.

(** [CreateDataProperty] keeps the keys of an object in property order. *)
Lemma set_prop_ordered {A} k (v : A) l : ordered l.*1 → ordered (set_prop k v l).*1.
Proof.
  unfold ordered, set_prop. intros Hl.
  destruct (lookup_key k l) eqn:Hk; [by rewrite replace_key_keys|].
  apply lookup_key_None in Hk.
  destruct (array_index k) as [i|] eqn:Hi.
  - apply insert_index_ordered; [done|apply not_elem_of_nil|done|done|constructor].
  - rewrite fmap_app. apply ordered_from_app. split; [done|].
    simpl. split_and!; [done|intros i; congruence|done].
Qed.

Lemma build_object_ordered (ms : list (jstring * value num)) :
  ∃ l, build_object ms = VObj l ∧ ordered l.*1 ∧
       ∀ P : value num → Prop, Forall (λ kv, P kv.2) ms → Forall (λ kv, P kv.2) l.
Proof.
  unfold build_object. eexists. split; [done|].
  assert (∀ o : list (jstring * value num), ordered o.*1 →
            ordered (fold_left (λ o kv, set_prop kv.1 kv.2 o) ms o).*1 ∧
            ∀ P : value num → Prop,
              Forall (λ kv, P kv.2) o → Forall (λ kv, P kv.2) ms →
              Forall (λ kv, P kv.2) (fold_left (λ o kv, set_prop kv.1 kv.2 o) ms o))
    as Hfold.
  { induction ms as [|[k v] ms IH]; intros o Ho; simpl; [done|].
    destruct (IH (set_prop k v o)) as [Hord Hall]; [by apply set_prop_ordered|].
    split; [done|]. intros P Hpo Hpms. apply Forall_cons in Hpms as [Hv Hpms].
    apply Hall; [|done]. by apply set_prop_values. }
  destruct (Hfold [] I) as [Hord Hall]. split; [done|].
  intros P. by apply Hall.
Qed.


(** What holds of every value that the parser builds holds of its result. *)
Lemma parse_value_closed (P : value num → Prop) :
  P VNull → (∀ b, P (VBool b)) → (∀ lit, P (VNum (StringToNumber lit))) →
  (∀ s, P (VStr s)) → (∀ l, Forall P l → P (VArr l)) →
  (∀ ms, Forall (λ kv, P kv.2) ms → P (build_object ms)) →
  ∀ fuel,
    (∀ s v r, parse_value fuel s = Some (v, r) → P v) ∧
    (∀ s vs r, parse_elements fuel s = Some (vs, r) → Forall P vs) ∧
    (∀ s ms r, parse_members fuel s = Some (ms, r) → Forall (λ kv, P kv.2) ms).
Proof.
  intros Hnull Hbool Hnum Hstr Harr Hobj.
  induction fuel as [|fuel (IHv & IHe & IHm)]; [done|].
  split_and!.
  - intros s v r. simpl. destruct s as [|c s]; [done|].
    repeat case_decide.
    + destruct (skip_ws s) as [|c' s']; [done|].
      case_decide; [intros [= <- _]; by apply (Hobj [])|].
      destruct (parse_members fuel (c' :: s')) as [[ms r']|] eqn:Hm; [|done].
      intros [= <- _]. apply Hobj. by eapply IHm.
    + destruct (skip_ws s) as [|c' s']; [done|].
      case_decide; [intros [= <- _]; by apply Harr|].
      destruct (parse_elements fuel (c' :: s')) as [[vs r']|] eqn:He; [|done].
      intros [= <- _]. apply Harr. by eapply IHe.
    + destruct (scan_chars s) as [[str r']|]; [|done].
      intros [= <- _]. apply Hstr.
    + unfold parse_scalar.
      destruct (scan_keyword _ _); [by intros [= <- _]|].
      destruct (scan_keyword _ _); [by intros [= <- _]|].
      destruct (scan_keyword _ _); [by intros [= <- _]|].
      destruct (scan_number _) as [[lit r']|]; [|done].
      by intros [= <- _].
  - intros s vs r. simpl.
    destruct (parse_value fuel s) as [[v r1]|] eqn:Hv; [|done].
    destruct (skip_ws r1) as [|c r2]; [done|].
    repeat case_decide; [| |done].
    + destruct (parse_elements fuel _) as [[vs' r3]|] eqn:He; [|done].
      intros [= <- _]. constructor; [by eapply IHv | by eapply IHe].
    + intros [= <- _]. constructor; [by eapply IHv | done].
  - intros s ms r. simpl. destruct s as [|q s]; [done|].
    case_decide; [|done].
    destruct (scan_chars s) as [[k r1]|]; [|done].
    destruct (skip_ws r1) as [|c r2]; [done|].
    case_decide; [|done].
    destruct (parse_value fuel _) as [[v r3]|] eqn:Hv; [|done].
    destruct (skip_ws r3) as [|c' r4]; [done|].
    repeat case_decide; [| |done].
    + destruct (parse_members fuel _) as [[ms' r5]|] eqn:Hm; [|done].
      intros [= <- _]. constructor; [by eapply IHv | by eapply IHm].
    + intros [= <- _]. constructor; [by eapply IHv | done].
Qed.


(** The values whose objects keep their keys in property order, as every
    object of a JavaScript program does. *)
Inductive key_ordered : value num → Prop :=
| key_ordered_undef : key_ordered VUndef
| key_ordered_null : key_ordered VNull
| key_ordered_bool b : key_ordered (VBool b)
| key_ordered_num n : key_ordered (VNum n)
| key_ordered_str s : key_ordered (VStr s)
| key_ordered_arr l : Forall key_ordered l → key_ordered (VArr l)
| key_ordered_obj l :
    ordered l.*1 → Forall (λ kv, key_ordered kv.2) l → key_ordered (VObj l).

Lemma parse_key_ordered text doc : parse text = Ok doc → key_ordered doc.
Proof.
  unfold parse.
  destruct (parse_value _ _) as [[v r]|] eqn:Hv; [|done].
  destruct (skip_ws r); [|done]. intros [= <-].
  eapply (parse_value_closed key_ordered); [..|exact Hv]; try by constructor.
  intros ms Hms. destruct (build_object_ordered ms) as (l & -> & Hord & Hall).
  constructor; [done|]. by apply Hall.
Qed.

Lemma ordered_from_defined (l : list (jstring * value num)) : ∀ seen,
  ordered_from seen l.*1 → ordered_from seen (defined l).*1.
Proof.
  induction l as [|[k x] l IH]; intros seen; [done|].
  rewrite fmap_cons. cbn [fst]. intros (Hk & Hi & Hl).
  assert (ordered_from seen (defined l).*1) as Hskip.
  { apply (ordered_from_seen (seen ++ [k])); [|by apply IH].
    intros y Hy. apply elem_of_app. by left. }
  destruct x; simpl; try done; (split_and!; [done|done|by apply IH]).
Qed.

Lemma carried_defined (x : value num) : carried x ≠ VUndef.
Proof.
  destruct x as [| |b|n|s|l|l]; try done.
  - simpl. by destruct (NumberToString n).
Qed.

Lemma defined_carried (ms : list (jstring * value num)) :
  defined ((λ kv, (kv.1, carried kv.2)) <$> ms) = (λ kv, (kv.1, carried kv.2)) <$> ms.
Proof.
  induction ms as [|[k x] ms IH]; [done|]. rewrite fmap_cons. cbn [fst snd].
  pose proof (carried_defined x) as Hx.
  simpl. destruct (carried x); by rewrite ?IH.
Qed.

Section Rewriting.
Variable gap : jstring.

(** The text of what a text carries is the text itself. *)
Lemma item_text_carried v :
  key_ordered v → ∀ sb, item_text gap sb (carried v) = item_text gap sb v.
Proof.
  induction v as [| |b|n|s|l IH|l IH] using value_ind; intros Hv sb; try done.
  - unfold item_text. cbn [carried].
    destruct (NumberToString n) eqn:Hn; cbn [serialize]; by rewrite ?Hn.
  - inversion Hv as [| | | | |? Hl|]; subst.
    unfold item_text. cbn [carried]. rewrite !serialize_arr. cbn [default from_option id].
    f_equal. rewrite <- list_fmap_compose. apply list_fmap_ext.
    intros i x Hx. simpl.
    apply list_elem_of_lookup_2 in Hx.
    rewrite Forall_forall in IH, Hl. by apply IH; [|apply Hl].
  - inversion Hv as [| | | | | |? Hord Hl]; subst.
    unfold item_text. rewrite carried_obj, build_ordered.
    2:{ rewrite <- list_fmap_compose. by apply ordered_from_defined in Hord. }
    rewrite !serialize_obj, defined_carried. cbn [default from_option id].
    f_equal. rewrite <- list_fmap_compose. apply list_fmap_ext.
    intros i [k x] Hx. unfold member_text. simpl. f_equal.
    apply list_elem_of_lookup_2 in Hx.
    apply (defined_Forall (λ kv, key_ordered kv.2 → ∀ sb, item_text gap sb (carried kv.2)
                                   = item_text gap sb kv.2)) in IH.
    apply (defined_Forall (λ kv, key_ordered kv.2)) in Hl.
    rewrite Forall_forall in IH, Hl. by apply (IH _ Hx), (Hl _ Hx).
Qed.

End Rewriting.

Lemma serialize_defined gap sb (v : value num) :
  v ≠ VUndef → is_Some (serialize gap sb v).
Proof. destruct v as [| |[]| | | |]; by eauto. Qed.

Lemma ordered_lookup ks i j ki kj :
  ordered ks → i < j → ks !! i = Some ki → ks !! j = Some kj →
  ki ≠ kj ∧ ∀ n, array_index kj = Some n → ∃ m, array_index ki = Some m ∧ (m < n)%N.
Proof.
  intros Hks Hij Hi Hj. unfold ordered in Hks.
  rewrite <- (take_drop_middle ks j kj Hj) in Hks.
  apply ordered_from_app in Hks as [_ (Hnew & Hbelow & _)].
  assert (ki ∈ take j ks) as Hin.
  { apply list_elem_of_lookup. exists i. by rewrite lookup_take_lt. }
  split; [by intros ->|].
  intros n Hn. specialize (Hbelow n Hn). rewrite Forall_forall in Hbelow.
  by apply Hbelow.
Qed.

Lemma key_ordered_mapping doc l :
  key_ordered doc → get_own doc (js "objects") = Ok (VObj l) → ordered l.*1.
Proof.
  destruct 1 as [| |b|n|s|l' Hl|l' Hk Hl]; simpl; try done.
  destruct (lookup_key _ l') as [y|] eqn:Hy; simpl; [|done]. intros [= ->].
    apply lookup_key_Some in Hy. rewrite Forall_forall in Hl.
    specialize (Hl _ Hy). by inversion Hl.
Qed.

End PropertyOrder.

(** X8.  What [JSON.parse] reads in the text that [JSON.stringify] wrote
    for a value, whatever the indentation: the value with every array
    item that is [undefined] turned into null and every member that is
    [undefined] left out; hence the value itself when it holds no
    [undefined]. *)
Theorem text_is_read_back_as_carried `{JS.Number num} (v : JS.value num) space text :
  (∀ n : num, numeral_reads_back n) →
  JSON.stringify v space = Some text →
  JSON.parse text = Ok (carried v) ∧ (jsonable v → JSON.parse text = Ok v).
Proof.
  intros Hnum Hs. split; [by apply (parse_stringify v space)|].
  intros Hv. by apply (parse_stringify_jsonable v space).
Qed.

(** X9.  Reading the text written for a value and writing what was read,
    with the same indentation, gives the same text again. *)
Theorem rewriting_reproduces_the_text `{JS.Number num} (v : JS.value num) space text :
  (∀ n : num, numeral_reads_back n) →
  key_ordered v →
  JSON.stringify v space = Some text →
  ∃ v', JSON.parse text = Ok v' ∧ JSON.stringify v' space = Some text.
Proof.
  intros Hnum Hv Hs. exists (carried v). split; [by apply (parse_stringify v space)|].
  unfold JSON.stringify in *.
  pose proof (item_text_carried (replicate (space `min` 10) Char.SPACE) v Hv []) as Htext.
  unfold item_text in Htext.
  rewrite Hs in Htext.
  destruct (serialize_defined (replicate (space `min` 10) Char.SPACE) []
              (carried v) (carried_defined v)) as [t Ht].
  rewrite Ht in Htext. simpl in Htext. by subst.
Qed.


Section WriteOrder.
Import JS.
Context `{Number num}.
Variable feature : hval num → hval num → HM num (hval num).

(** X6.  The files are written in the property order of the object
    mapping, not in the order of the text: no key comes twice, and a key
    that is an array index comes after smaller array indexes only, so that
    these keys come first and in ascending order. *)
Theorem files_are_written_in_property_order (disk : Fs.FS) text doc l w :
  Fs.readFile disk input_path = Ok text →
  JSON.parse text = Ok doc →
  get_own doc (js "objects") = Ok (VObj l) →
  run feature disk = (Ok tt, w) →
  (written w).*1 = (λ key, js "./data/" ++ key ++ js ".geojson") <$> l.*1 ∧
  ∀ i j ki kj, i < j → l.*1 !! i = Some ki → l.*1 !! j = Some kj →
    ki ≠ kj ∧ ∀ n, array_index kj = Some n → ∃ m, array_index ki = Some m ∧ (m < n)%N.
Proof.
  intros Hread Hparse Hobjects Hrun. split.
  - destruct (run_loop feature _ _ _ _ _ Hread Hparse Hobjects eq_refl)
      as (xs & Hkeys & Heq).
    rewrite Heq in Hrun. apply for_of_Ok in Hrun. rewrite Hkeys in Hrun.
    apply steps_written in Hrun as (texts & Hlen & Hw & _). simpl in Hw.
    by rewrite Hw, fst_zip by (rewrite length_fmap; lia).
  - intros i j ki kj. apply ordered_lookup.
    eapply key_ordered_mapping; [|done]. by eapply parse_key_ordered.
Qed.

End WriteOrder.

(** ** The shape of what the decoder returns *)

Section DecoderShape.
Import JS Topojson.
Context `{Number num}.
Implicit Types (h : heap num).

Lemma hbind_Ok {A B} (m : HM num A) (k : A → HM num B) h b h' :
  hbind m k h = (Ok b, h') → ∃ a h1, m h = (Ok a, h1) ∧ k a h1 = (Ok b, h').
Proof. unfold hbind. destruct (m h) as [[a|e] h1]; [by exists a, h1|done]. Qed.

(** A heap value that is a feature object. *)
Definition feature_at h (x : hval num) : Prop :=
  ∃ l props, x = HRef l ∧ h !! l = Some (CObj props) ∧
    lookup_key (js "type") props = Some (HStr (js "Feature")) ∧
    is_Some (lookup_key (js "properties") props) ∧
    is_Some (lookup_key (js "geometry") props).

(** A heap value that is a feature collection of [n] features. *)
Definition collection_at h (x : hval num) (n : nat) : Prop :=
  ∃ l lf items, x = HRef l ∧
    h !! l = Some (CObj [(js "type", HStr (js "FeatureCollection"));
                         (js "features", HRef lf)]) ∧
    h !! lf = Some (CArr items) ∧ length items = n ∧ Forall (feature_at h) items.

Lemma feature_at_later h h' x :
  feature_at h x → take (length h) h' = h → feature_at h' x.
Proof.
  intros (l & props & -> & Hl & Hprops) Htake. exists l, props.
  destruct Hprops as (? & ? & ?). split_and!; [done| |done..]. rewrite <- Htake in Hl.
  apply lookup_take_Some in Hl. tauto.
Qed.

Lemma feature1_shape topology o h r h' :
  feature1 topology o h = (Ok r, h') → feature_at h' r.
Proof.
  unfold feature1, mbind, HM_bind. intros Hrun.
  apply hbind_Ok in Hrun as (id & h1 & _ & Hrun).
  apply hbind_Ok in Hrun as (bbox & h2 & _ & Hrun).
  apply hbind_Ok in Hrun as (p0 & h3 & _ & Hrun).
  apply hbind_Ok in Hrun as (properties & h4 & _ & Hrun).
  apply hbind_Ok in Hrun as (geometry & h5 & _ & Hrun).
  destruct (nullish id && nullish bbox); [|destruct (nullish bbox)];
    injection Hrun as <- <-; eexists _, _;
    (split_and!; [done|by apply list_lookup_middle|done|by eexists|by eexists]).
Qed.

Lemma hmap_feature1 topology items : ∀ h ys h',
  hmap (feature1 topology) items h = (Ok ys, h') →
  length ys = length items ∧ Forall (feature_at h') ys ∧
  take (length h) h' = h.
Proof.
  induction items as [|o items IH]; intros h ys h'; simpl.
  - intros [= <- <-]. by rewrite take_ge.
  - intros Hrun.
    apply hbind_Ok in Hrun as (y & h1 & Hy & Hrun).
    apply hbind_Ok in Hrun as (ys' & h2 & Hys & Hrun).
    injection Hrun as <- <-.
    destruct (IH _ _ _ Hys) as (Hlen & Hall & Htake).
    destruct (keeps_feature1 (length h) topology o h _ h1 (le_n _) Hy) as (Hle & Hkeep & _).
    rewrite (take_ge h) in Hkeep by lia.
    split_and!.
    + simpl. by rewrite Hlen.
    + constructor; [|done]. eapply feature_at_later; [|done]. by eapply feature1_shape.
    + transitivity (take (length h) (take (length h1) h2)).
      * rewrite take_take. f_equal. lia.
      * by rewrite Htake.
Qed.

(** Anything but a geometry collection is decoded to a feature. *)
Lemma feature_shape_single topology o h type r h' :
  (∀ name, o ≠ HStr name) →
  get h o (js "type") = Ok type →
  is_string type "GeometryCollection" = false →
  feature topology o h = (Ok r, h') → feature_at h' r.
Proof.
  intros Ho Htype Hgc. unfold feature, mbind, HM_bind. intros Hrun.
  apply hbind_Ok in Hrun as (o' & h1 & Ho' & Hrun).
  assert (o' = o ∧ h1 = h) as [-> ->].
  { destruct o; try (by injection Ho' as <- <-). by destruct (Ho s). }
  apply hbind_Ok in Hrun as (type' & h2 & Ht & Hrun).
  unfold prop, hlift in Ht. rewrite Htype in Ht. injection Ht as <- <-.
  rewrite Hgc in Hrun. by eapply feature1_shape.
Qed.

(** A geometry collection is decoded to a feature collection with one
    feature for each of its geometries. *)
Lemma feature_shape_collection topology o h type r h' :
  (∀ name, o ≠ HStr name) →
  get h o (js "type") = Ok type →
  is_string type "GeometryCollection" = true →
  feature topology o h = (Ok r, h') →
  ∃ lg items, get h o (js "geometries") = Ok (HRef lg) ∧
    h !! lg = Some (CArr items) ∧ collection_at h' r (length items).
Proof.
  intros Ho Htype Hgc. unfold feature, mbind, HM_bind. intros Hrun.
  apply hbind_Ok in Hrun as (o' & h1 & Ho' & Hrun).
  assert (o' = o ∧ h1 = h) as [-> ->].
  { destruct o; try (by injection Ho' as <- <-). by destruct (Ho s). }
  apply hbind_Ok in Hrun as (type' & h2 & Ht & Hrun).
  unfold prop, hlift in Ht. rewrite Htype in Ht. injection Ht as <- <-.
  rewrite Hgc in Hrun.
  apply hbind_Ok in Hrun as (gs & h3 & Hgs & Hrun).
  unfold prop, hlift in Hgs.
  destruct (get h o (js "geometries")) as [gs'|] eqn:Hget; [|done].
  injection Hgs as <- <-.
  apply hbind_Ok in Hrun as (fs & h4 & Hfs & Hrun). injection Hrun as <- <-.
  unfold array_map, mbind, HM_bind in Hfs.
  apply hbind_Ok in Hfs as (items & h5 & Hitems & Hfs).
  unfold items_of, hlift in Hitems.
  destruct gs' as [| | | | |lg]; try (injection Hitems as <- <-; done).
  destruct (h !! lg) as [[its|?]|] eqn:Hlg; try (injection Hitems as <- <-; done); [|done].
  injection Hitems as <- <-.
  apply hbind_Ok in Hfs as (ys & h6 & Hys & Hfs). injection Hfs as <- <-.
  apply hmap_feature1 in Hys as (Hlen & Hall & Htake).
  exists lg, its. split_and!; [done..|].
  exists (length (h6 ++ [CArr ys])), (length h6), ys. split_and!.
  - done.
  - by apply list_lookup_middle.
  - rewrite <- app_assoc. by apply list_lookup_middle.
  - done.
  - eapply Forall_impl; [exact Hall|]. intros y Hy.
    eapply feature_at_later; [exact Hy|]. rewrite <- app_assoc. by rewrite take_app_length.
Qed.


(** *** The same, of the values that are serialized *)

Definition is_feature (v : value num) : Prop :=
  ∃ props, v = VObj props ∧
    lookup_key (js "type") props = Some (VStr (js "Feature")) ∧
    is_Some (lookup_key (js "properties") props) ∧
    is_Some (lookup_key (js "geometry") props).

Definition is_feature_collection (n : nat) (v : value num) : Prop :=
  ∃ fs, v = VObj [(js "type", VStr (js "FeatureCollection")); (js "features", VArr fs)] ∧
    length fs = n ∧ Forall is_feature fs.

Lemma reify_feature h x fuel v :
  feature_at h x → reify fuel h x = Some v → is_feature v.
Proof.
  intros (l & props & -> & Hl & Htype & Hprops & Hgeom).
  destruct fuel as [|fuel]; [done|]. simpl. rewrite Hl.
  destruct (omap_list _ props) as [vprops|] eqn:Hvs; [|done]. intros [= <-].
  apply omap_list_Forall2 in Hvs.
  assert (Forall2 (λ p kv, p.1 = kv.1 ∧ reify fuel h p.2 = Some kv.2) props vprops) as Hrel.
  { eapply Forall2_impl; [exact Hvs|]. intros [k y] [k' u]. simpl.
    destruct (reify fuel h y); [|done]. by intros [= <- <-]. }
  exists vprops. split; [done|].
  pose proof (lookup_key_Forall2 (λ y u, reify fuel h y = Some u) (js "type") _ _ Hrel) as H1.
  pose proof (lookup_key_Forall2 (λ y u, reify fuel h y = Some u) (js "properties") _ _ Hrel) as H2.
  pose proof (lookup_key_Forall2 (λ y u, reify fuel h y = Some u) (js "geometry") _ _ Hrel) as H3.
  rewrite Htype in H1. destruct Hprops as [? Hp], Hgeom as [? Hg].
  rewrite Hp in H2. rewrite Hg in H3.
  destruct (lookup_key (js "type") vprops) as [t|]; [|done].
  destruct (lookup_key (js "properties") vprops); [|done].
  destruct (lookup_key (js "geometry") vprops); [|done].
  rewrite reify_prim in H1 by done. injection H1 as <-. by split_and!.
Qed.

Lemma reify_collection h x n fuel v :
  collection_at h x n → reify fuel h x = Some v → is_feature_collection n v.
Proof.
  intros (l & lf & items & -> & Hl & Hlf & Hlen & Hall).
  destruct fuel as [|fuel]; [done|]. simpl. rewrite Hl. simpl.
  destruct fuel as [|fuel]; [done|]. simpl. rewrite Hlf.
  destruct (omap_list _ items) as [fs|] eqn:Hfs; [|done]. simpl. intros [= <-].
  apply omap_list_Forall2 in Hfs.
  exists fs. split_and!; [done| |].
  - by rewrite <- (Forall2_length _ _ _ Hfs).
  - apply Forall_forall. intros f Hf.
    apply list_elem_of_lookup in Hf as [i Hi].
    destruct (Forall2_lookup_r _ _ _ _ _ Hfs Hi) as (y & Hy & Hr).
    eapply reify_feature; [|exact Hr].
    rewrite Forall_forall in Hall. apply Hall. by eapply list_elem_of_lookup_2.
Qed.

Lemma repr_string h x s : repr h x (VStr s) → x = HStr s.
Proof.
  intros [fuel Hr].
  destruct x as [| |b|n|s0|l]; destruct fuel as [|fuel]; simpl in Hr; try congruence.
  destruct (h !! l) as [[items|props]|]; [| |done].
  - by destruct (omap_list _ items).
  - by destruct (omap_list _ props).
Qed.

Lemma repr_not_string h x v : repr h x v → (∀ s, v ≠ VStr s) → ∀ s, x ≠ HStr s.
Proof. intros [fuel Hr] Hv s ->. rewrite reify_prim in Hr by done. injection Hr as <-. by destruct (Hv s). Qed.

Lemma is_string_repr h x v s :
  repr h x v → is_string x s = true ↔ v = VStr (js s).
Proof.
  intros Hr. split.
  - destruct x; try done. simpl. intros ->%bool_decide_eq_true.
    destruct Hr as [fuel Hr]. rewrite reify_prim in Hr by done. by injection Hr as <-.
  - intros ->. apply repr_string in Hr as ->. simpl. by apply bool_decide_eq_true.
Qed.

Lemma repr_array h l items v :
  repr h (HRef l) v → h !! l = Some (CArr items) →
  ∃ vs, v = VArr vs ∧ length vs = length items.
Proof.
  intros [fuel Hr] Hl. destruct fuel as [|fuel]; [done|]. simpl in Hr. rewrite Hl in Hr.
  destruct (omap_list _ items) as [vs|] eqn:Hvs; [|done]. injection Hr as <-.
  exists vs. split; [done|]. apply omap_list_Forall2 in Hvs.
  by rewrite (Forall2_length _ _ _ Hvs).
Qed.

Lemma steps_appends feature input keys w w' :
  (∀ topology o h r h', feature topology o h = (r, h') → ∃ ext, h' = h ++ ext) →
  steps feature input keys w w' → ∃ ext, mem w' = mem w ++ ext.
Proof.
  intros Hf. induction 1 as [w|key keys w w1 w' He _ [ext2 IH]].
  - exists []. by rewrite app_nil_r.
  - apply (convert_entry_appends feature Hf) in He as [ext1 He].
    exists (ext1 ++ ext2). by rewrite IH, He, app_assoc.
Qed.

(** X7.  What is written for a key whose object is not a string: when
    the object has the type [GeometryCollection], the text of a feature
    collection with one feature for each geometry of the collection;
    otherwise, whatever the object is, the text of one feature. *)
Theorem key_gives_a_feature_or_a_collection (disk : Fs.FS) text doc objects es w :
  Fs.readFile disk input_path = Ok text →
  JSON.parse text = Ok doc →
  get_own doc (js "objects") = Ok objects →
  JS.Object_entries objects = Ok es →
  main disk = (Ok tt, w) →
  ∀ i key x, es.*1 !! i = Some key →
    get_own objects key = Ok x → (∀ s, x ≠ VStr s) →
    ∃ v content,
      written w !! i = Some (js "./data/" ++ key ++ js ".geojson", content) ∧
      JSON.stringify v 2 = Some content ∧
      (get_own x (js "type") = Ok (VStr (js "GeometryCollection")) →
         ∃ gs, get_own x (js "geometries") = Ok (VArr gs) ∧
               is_feature_collection (length gs) v) ∧
      (get_own x (js "type") ≠ Ok (VStr (js "GeometryCollection")) → is_feature v).
Proof.
  intros Hread Hparse Hobjects Hes Hrun i key x Hi Hx Hnot.
  destruct (key_iteration Topojson.feature disk text doc objects es w
              Hread Hparse Hobjects Hes Hrun i key Hi)
    as (wi & wi' & os & o & geojson & v & content &
        Hpre & Hos & Ho & Hf & Hv & Hs & _ & _ & _ & Hw).
  exists v, content. split; [done|]. split; [done|].
  destruct (alloc doc []) as [input h0] eqn:Ha. cbn [fst snd] in *.
  apply alloc_spec in Ha as [_ Hdoc].
  destruct (steps_appends _ _ _ _ _ feature_appends Hpre) as [ext Hext].
  cbn [mem] in Hext. rewrite Hext in *.
  apply (repr_weaken _ _ _ ext) in Hdoc.
  pose proof (get_repr _ _ _ (js "objects") Hdoc) as Hget.
  rewrite Hobjects, Hos in Hget. destruct Hget as (? & [= <-] & Hobjs).
  pose proof (get_repr _ _ _ key Hobjs) as Hget.
  rewrite Hx, Ho in Hget. destruct Hget as (? & [= <-] & Hrepr).
  pose proof (repr_not_string _ _ _ Hrepr Hnot) as Hnots.
  pose proof (get_repr _ _ _ (js "type") Hrepr) as Htype.
  destruct (get_own x (js "type")) as [tv|e] eqn:Htv.
  2:{ exfalso. unfold Topojson.feature, mbind, HM_bind in Hf.
      apply hbind_Ok in Hf as (o' & h1 & Ho' & Hf).
      assert (o' = o ∧ h1 = h0 ++ ext) as [-> ->].
      { destruct o; try (by injection Ho' as <- <-). by destruct (Hnots s). }
      apply hbind_Ok in Hf as (? & ? & Ht & _).
      unfold prop, hlift in Ht. by rewrite Htype in Ht. }
  destruct Htype as (type & Htype & Hrt).
  pose proof (is_string_repr _ _ _ "GeometryCollection" Hrt) as Hgc.
  destruct (is_string type "GeometryCollection") eqn:Hstr.
  - assert (tv = VStr (js "GeometryCollection")) as -> by by apply Hgc.
    split; [|done]. intros _.
    destruct (feature_shape_collection _ _ _ _ _ _ Hnots Htype Hstr Hf)
      as (lg & items & Hgs & Hlg & Hcoll).
    pose proof (get_repr _ _ _ (js "geometries") Hrepr) as Hgeo.
    destruct (get_own x (js "geometries")) as [gv|] eqn:Hgv; [|by rewrite Hgeo in Hgs].
    destruct Hgeo as (? & Hgs' & Hrg). rewrite Hgs in Hgs'. injection Hgs' as <-.
    destruct (repr_array _ _ _ _ Hrg Hlg) as (gs & -> & Hlen).
    exists gs. split; [done|]. rewrite Hlen. by eapply reify_collection.
  - split.
    + intros [= ->]. destruct Hgc as [_ Hgc]. by specialize (Hgc eq_refl).
    + intros _. eapply reify_feature; [|exact Hv].
      by eapply feature_shape_single.
Qed.

End DecoderShape.

(** ** Sample runs of the further properties *)

Module MoreSamples.
Import JS.

(** A text that stops in the middle. *)
Definition cut_short : string := "{'objects':".

Definition no_mapping : string := "{'arcs':[]}".

(** The object mapping as an array. *)
Definition array_mapping : string :=
  "{'objects':[{'type':null},{'type':null}],'arcs':[]}".

(** Keys that the text lists in another order than the object does. *)
Definition mixed_keys : string :=
  "{'objects':{'b':{'type':null},'2':{'type':null},'1':{'type':null}},'arcs':[]}".

(** The sample disk with the directory [data/a] besides. *)
Definition deeper (text : string) : Fs.FS :=
  {| Fs.cwd := [js "repo"];
     Fs.dirs := {[ []; [js "repo"]; [js "repo"; js "data"];
                   [js "repo"; js "data"; js "a"] ]};
     Fs.files := {[ [js "repo"; js "data"; js "swiss_stuffes.json"] := Sample.json text ]} |}.

(** A value with [undefined] in an array and in an object. *)
Definition holed : value Z :=
  VArr [VUndef; VObj [(js "a", VUndef); (js "b", VNum 1%Z)]].
End MoreSamples.

Lemma malformed_input_is_a_syntax_error_witness :
  let disk := Sample.with_input MoreSamples.cut_short in
  run Sample.echo disk = (Throw SyntaxError, mkWorld disk [] []).
Proof.
  intros disk.
  assert (Fs.readFile disk input_path = Ok (Sample.json MoreSamples.cut_short)) as H1
    by (vm_compute; reflexivity).
  assert (JSON.parse (num := Z) (Sample.json MoreSamples.cut_short) = Throw SyntaxError)
    as H2 by (vm_compute; reflexivity).
  exact (proj2 (malformed_input_is_a_syntax_error Sample.echo disk _ _ H1 H2)).
Defined.

Lemma missing_mapping_is_a_type_error_witness :
  let disk := Sample.with_input MoreSamples.no_mapping in
  let doc := Sample.document MoreSamples.no_mapping in
  run Sample.echo disk = (Throw TypeError, mkWorld disk (JS.alloc doc []).2 []).
Proof.
  intros disk doc.
  assert (Fs.readFile disk input_path = Ok (Sample.json MoreSamples.no_mapping)) as H1
    by (vm_compute; reflexivity).
  assert (JSON.parse (Sample.json MoreSamples.no_mapping) = Ok doc) as H2
    by (vm_compute; reflexivity).
  assert (∀ objects, JS.get_own doc (js "objects") = Ok objects →
            objects = JS.VUndef ∨ objects = JS.VNull) as H3.
  { intros objects Hobjects. vm_compute in Hobjects. injection Hobjects as <-. by left. }
  exact (missing_mapping_is_a_type_error Sample.echo disk _ doc H1 H2 H3).
Defined.

Lemma array_mapping_writes_numbered_files_witness :
  let disk := Sample.with_input MoreSamples.array_mapping in
  (written (run Sample.echo disk).2).*1 = [js "./data/0.geojson"; js "./data/1.geojson"].
Proof.
  intros disk.
  assert (Fs.readFile disk input_path = Ok (Sample.json MoreSamples.array_mapping)) as H1
    by (vm_compute; reflexivity).
  assert (JSON.parse (Sample.json MoreSamples.array_mapping)
          = Ok (Sample.document MoreSamples.array_mapping)) as H2
    by (vm_compute; reflexivity).
  assert (JS.get_own (Sample.document MoreSamples.array_mapping) (js "objects")
          = Ok (JS.VArr [JS.VObj [(js "type", JS.VNull)]; JS.VObj [(js "type", JS.VNull)]]))
    as H3 by (vm_compute; reflexivity).
  assert (run Sample.echo disk = (Ok tt, (run Sample.echo disk).2)) as H4
    by (apply Sample.completed; vm_compute; reflexivity).
  exact (array_mapping_writes_numbered_files Sample.echo disk _ _ _ _ H1 H2 H3 H4).
Defined.

Lemma key_directory_must_exist_witness :
  let disk := MoreSamples.deeper Sample.nested_key in
  Fs.cwd disk ++ [js "data"; js "a"] ∈ Fs.dirs disk ∧
  Fs.dirs (fs (run Sample.echo disk).2) = Fs.dirs disk.
Proof.
  intros disk.
  assert (Fs.readFile disk input_path = Ok (Sample.json Sample.nested_key)) as H1
    by (vm_compute; reflexivity).
  assert (JSON.parse (Sample.json Sample.nested_key) = Ok (Sample.document Sample.nested_key))
    as H2 by (vm_compute; reflexivity).
  assert (JS.get_own (Sample.document Sample.nested_key) (js "objects")
          = Ok (Sample.mapping Sample.nested_key)) as H3 by (vm_compute; reflexivity).
  assert (JS.Object_entries (Sample.mapping Sample.nested_key)
          = Ok (Sample.entries_of Sample.nested_key)) as H4 by (vm_compute; reflexivity).
  assert (js "a" ++ Char.SLASH :: js "b" ∈ (Sample.entries_of Sample.nested_key).*1) as H5.
  { apply (bool_decide_unpack _). vm_compute. exact I. }
  assert (plain_name (js "a")) as H6 by (by vm_compute).
  assert (Char.SLASH ∉ js "a") as H7.
  { apply (bool_decide_unpack _). vm_compute. exact I. }
  assert (run Sample.echo disk = (Ok tt, (run Sample.echo disk).2)) as H8
    by (apply Sample.completed; vm_compute; reflexivity).
  exact (key_directory_must_exist Sample.echo disk _ _ _ _ _ (js "a") (js "b")
           H1 H2 H3 H4 H5 H6 H7 H8).
Defined.

Lemma files_are_written_in_property_order_witness :
  let disk := Sample.with_input MoreSamples.mixed_keys in
  (written (run Sample.echo disk).2).*1
    = [js "./data/1.geojson"; js "./data/2.geojson"; js "./data/b.geojson"].
Proof.
  intros disk.
  assert (Fs.readFile disk input_path = Ok (Sample.json MoreSamples.mixed_keys)) as H1
    by (vm_compute; reflexivity).
  assert (JSON.parse (Sample.json MoreSamples.mixed_keys)
          = Ok (Sample.document MoreSamples.mixed_keys)) as H2
    by (vm_compute; reflexivity).
  assert (JS.get_own (Sample.document MoreSamples.mixed_keys) (js "objects")
          = Ok (JS.VObj [(js "1", JS.VObj [(js "type", JS.VNull)]);
                         (js "2", JS.VObj [(js "type", JS.VNull)]);
                         (js "b", JS.VObj [(js "type", JS.VNull)])]))
    as H3 by (vm_compute; reflexivity).
  assert (run Sample.echo disk = (Ok tt, (run Sample.echo disk).2)) as H4
    by (apply Sample.completed; vm_compute; reflexivity).
  exact (proj1 (files_are_written_in_property_order Sample.echo disk _ _ _ _ H1 H2 H3 H4)).
Defined.

Lemma text_is_read_back_as_carried_witness :
  ∃ text,
    JSON.stringify MoreSamples.holed 2 = Some text ∧
    JSON.parse text
      = Ok (JS.VArr [JS.VNull; JS.VObj [(js "b", JS.VNum 1%Z)]]).
Proof.
  exists (default [] (JSON.stringify MoreSamples.holed 2)).
  assert (JSON.stringify MoreSamples.holed 2
          = Some (default [] (JSON.stringify MoreSamples.holed 2))) as H1
    by (vm_compute; reflexivity).
  split; [exact H1|].
  exact (proj1 (text_is_read_back_as_carried MoreSamples.holed 2 _ integer_reads_back H1)).
Defined.

Lemma rewriting_reproduces_the_text_witness :
  ∃ text v',
    JSON.stringify MoreSamples.holed 2 = Some text ∧
    JSON.parse text = Ok v' ∧ JSON.stringify v' 2 = Some text.
Proof.
  assert (JSON.stringify MoreSamples.holed 2
          = Some (default [] (JSON.stringify MoreSamples.holed 2))) as H1
    by (vm_compute; reflexivity).
  assert (key_ordered MoreSamples.holed) as H2.
  { apply key_ordered_arr. apply Forall_cons_2; [constructor|].
    apply Forall_cons_2; [|constructor]. apply key_ordered_obj.
    - apply plain_keys_ordered; [|by repeat constructor].
      apply (bool_decide_unpack _). vm_compute. exact I.
    - by repeat constructor. }
  destruct (rewriting_reproduces_the_text MoreSamples.holed 2 _ integer_reads_back H2 H1)
    as (v' & Hp & Hs).
  exists (default [] (JSON.stringify MoreSamples.holed 2)), v'.
  exact (conj H1 (conj Hp Hs)).
Defined.


Lemma key_gives_a_feature_or_a_collection_witness :
  let disk := Sample.with_input Sample.region_collection in
  ∃ v content,
    written (main (num := Z) disk).2 !! 0%nat
      = Some (js "./data/" ++ js "region" ++ js ".geojson", content) ∧
    JSON.stringify v 2 = Some content ∧
    is_feature_collection 1 v.
Proof.
  intros disk.
  assert (Fs.readFile disk input_path = Ok (Sample.json Sample.region_collection)) as H1
    by (vm_compute; reflexivity).
  assert (JSON.parse (Sample.json Sample.region_collection)
          = Ok (Sample.document Sample.region_collection)) as H2
    by (vm_compute; reflexivity).
  assert (JS.get_own (Sample.document Sample.region_collection) (js "objects")
          = Ok (Sample.mapping Sample.region_collection)) as H3
    by (vm_compute; reflexivity).
  assert (JS.Object_entries (Sample.mapping Sample.region_collection)
          = Ok (Sample.entries_of Sample.region_collection)) as H4
    by (vm_compute; reflexivity).
  assert (main disk = (Ok tt, (main disk).2)) as H5
    by (apply Sample.completed; vm_compute; reflexivity).
  assert ((Sample.entries_of Sample.region_collection).*1 !! 0%nat = Some (js "region"))
    as H6 by (vm_compute; reflexivity).
  assert (JS.get_own (Sample.mapping Sample.region_collection) (js "region")
          = Ok Region.collection_object) as H7 by (vm_compute; reflexivity).
  assert (∀ s, Region.collection_object ≠ JS.VStr s) as H8 by done.
  assert (JS.get_own Region.collection_object (js "type")
          = Ok (JS.VStr (js "GeometryCollection"))) as H9 by (vm_compute; reflexivity).
  destruct (key_gives_a_feature_or_a_collection disk _ _ _ _ _ H1 H2 H3 H4 H5
              0%nat (js "region") _ H6 H7 H8)
    as (v & content & Hw & Hs & Hcoll & _).
  destruct (Hcoll H9) as (gs & Hgs & Hv).
  assert (gs = [Region.polygon_object]) as ->.
  { vm_compute in Hgs. by injection Hgs as <-. }
  exists v, content. exact (conj Hw (conj Hs Hv)).
Defined.

(** ** The members of a feature *)

Section FeatureMembers.
Import JS Topojson.
Context `{Number num}.
Implicit Types (h : heap num).

(** [v == null]. *)
Definition is_nullish (v : value num) : bool :=
  match v with VUndef | VNull => true | _ => false end.

(** The member [k] of [x], [undefined] where [x] has none. *)
Definition member_of (x : value num) (k : string) : value num :=
  match get_own x (js k) with Ok v => v | Throw _ => VUndef end.

(** The feature that feature.js makes of the object [x] and of the geometry
    [g] that it decoded for it. *)
Definition feature_of (x g : value num) : value num :=
  let id := member_of x "id" in
  let bbox := member_of x "bbox" in
  let properties :=
    if is_nullish (member_of x "properties") then VObj [] else member_of x "properties" in
  if is_nullish id && is_nullish bbox then
    VObj [(js "type", VStr (js "Feature")); (js "properties", properties);
          (js "geometry", g)]
  else if is_nullish bbox then
    VObj [(js "type", VStr (js "Feature")); (js "id", id);
          (js "properties", properties); (js "geometry", g)]
  else
    VObj [(js "type", VStr (js "Feature")); (js "id", id); (js "bbox", bbox);
          (js "properties", properties); (js "geometry", g)].

Lemma reify_agree h x f1 f2 v1 v2 :
  reify f1 h x = Some v1 → reify f2 h x = Some v2 → v1 = v2.
Proof.
  intros H1 H2.
  pose proof (reify_weaken _ _ _ _ (f1 `max` f2) [] H1 ltac:(lia)) as H1'.
  pose proof (reify_weaken _ _ _ _ (f1 `max` f2) [] H2 ltac:(lia)) as H2'.
  congruence.
Qed.

Lemma repr_agree h x v1 v2 : repr h x v1 → repr h x v2 → v1 = v2.
Proof. intros [f1 H1] [f2 H2]. by eapply reify_agree. Qed.

Lemma nullish_repr h x v : repr h x v → nullish x = is_nullish v.
Proof.
  intros [fuel Hr]. destruct x as [| |b|n|s|l]; destruct fuel as [|fuel];
    simpl in Hr; try (by injection Hr as <-); try done.
  destruct (h !! l) as [[items|props]|]; [| |done].
  - destruct (omap_list _ items); simpl in Hr; [injection Hr as <-|]; done.
  - destruct (omap_list _ props); simpl in Hr; [injection Hr as <-|]; done.
Qed.

(** Reading a member of a represented value that is not [null]. *)
Lemma prop_repr h o x k y h1 :
  repr h o x → prop o k h = (Ok y, h1) → h1 = h ∧ repr h y (member_of x k).
Proof.
  intros Hr. unfold prop, hlift. intros Hget.
  pose proof (get_repr _ _ _ (js k) Hr) as Hk. unfold member_of.
  destruct (get_own x (js k)) as [u|e].
  - destruct Hk as (y' & Hy & Hu). rewrite Hy in Hget. by injection Hget as <- <-.
  - by rewrite Hk in Hget.
Qed.

Lemma repr_later h h' x v :
  repr h x v → take (length h) h' = h → repr h' x v.
Proof.
  intros Hr Htake. rewrite <- (take_drop (length h) h'), Htake. by apply repr_weaken.
Qed.

Lemma reify_members h fuel (props : list (jstring * hval num)) vprops l :
  omap_list (λ kx, pair kx.1 <$> reify fuel h kx.2) props = Some vprops →
  Forall2 (repr_prop h) props l → vprops = l.
Proof.
  intros Hvs Hl. revert vprops Hvs.
  induction Hl as [|[k y] [k' u] props l [Hk [f Hu]] _ IH]; intros vprops; simpl.
  - by intros [= <-].
  - simpl in Hk, Hu. subst k'.
    destruct (reify fuel h y) as [u'|] eqn:Hy; [|done]. simpl.
    destruct (omap_list _ props) as [vs|]; [|done]. intros [= <-].
    by rewrite (reify_agree _ _ _ _ _ _ Hy Hu), (IH _ eq_refl).
Qed.

(** The value of a feature: its members are those of the object, its
    geometry is what [object] decoded. *)
Lemma feature1_members topology o x h r h' fuel v :
  repr h o x →
  feature1 topology o h = (Ok r, h') →
  reify fuel h' r = Some v →
  ∃ g y h4 h5,
    v = feature_of x g ∧
    object topology o h4 = (Ok y, h5) ∧ take (length h) h4 = h ∧
    take (length h5) h' = h5 ∧ repr h' y g.
Proof.
  intros Hx. unfold feature1, mbind, HM_bind. intros Hrun Hv.
  apply hbind_Ok in Hrun as (id & h1 & Hid & Hrun).
  apply (prop_repr _ _ _ _ _ _ Hx) in Hid as [-> Hid].
  apply hbind_Ok in Hrun as (bbox & h2 & Hbbox & Hrun).
  apply (prop_repr _ _ _ _ _ _ Hx) in Hbbox as [-> Hbbox].
  apply hbind_Ok in Hrun as (p0 & h3 & Hp0 & Hrun).
  apply (prop_repr _ _ _ _ _ _ Hx) in Hp0 as [-> Hp0].
  apply hbind_Ok in Hrun as (properties & h4 & Hp & Hrun).
  apply hbind_Ok in Hrun as (y & h5 & Hy & Hrun).
  set (P := if is_nullish (member_of x "properties") then VObj []
            else member_of x "properties").
  assert (take (length h) h4 = h ∧ repr h4 properties P) as [H4 Hprops].
  { unfold P. rewrite <- (nullish_repr _ _ _ Hp0).
    destruct (nullish p0); injection Hp as <- <-.
    - split; [by rewrite take_app_length|]. exists 1. simpl.
      by rewrite list_lookup_middle. 
    - split; [by rewrite take_ge|done]. }
  destruct (keeps_object (length h4) topology o h4 _ h5 (le_n _) Hy) as (Hle & H5 & _).
  rewrite (take_ge h4) in H5 by lia.
  assert (take (length h5) h' = h5 ∧ ∃ props, h' !! length h5 = Some (CObj props) ∧
          r = HRef (length h5) ∧
          props =
            (if nullish id && nullish bbox then
               [(js "type", HStr (js "Feature")); (js "properties", properties);
                (js "geometry", y)]
             else if nullish bbox then
               [(js "type", HStr (js "Feature")); (js "id", id);
                (js "properties", properties); (js "geometry", y)]
             else
               [(js "type", HStr (js "Feature")); (js "id", id); (js "bbox", bbox);
                (js "properties", properties); (js "geometry", y)]))
    as (H' & props & Hcell & -> & Hshape).
  { destruct (nullish id && nullish bbox); [|destruct (nullish bbox)];
      injection Hrun as <- <-;
      (split; [by rewrite take_app_length|]); eexists;
      (split_and!; [by apply list_lookup_middle|done|done]). }
  assert (take (length h4) h' = h4) as H4'.
  { transitivity (take (length h4) (take (length h5) h')); [|by rewrite H'].
    rewrite take_take. f_equal. lia. }
  assert (take (length h) h' = h) as H0.
  { transitivity (take (length h) (take (length h4) h')); [|by rewrite H4'].
    rewrite take_take. f_equal. apply (f_equal length) in H4.
    rewrite length_take in H4. lia. }
  pose proof (repr_later _ _ _ _ Hid H0) as Hid'.
  pose proof (repr_later _ _ _ _ Hbbox H0) as Hbbox'.
  pose proof (repr_later _ _ _ _ Hprops H4') as Hprops'.
  destruct fuel as [|fuel]; [done|]. simpl in Hv. rewrite Hcell in Hv.
  destruct (omap_list _ props) as [vprops|] eqn:Hvs; [|done]. injection Hv as <-.
  rewrite (nullish_repr _ _ _ Hid), (nullish_repr _ _ _ Hbbox) in Hshape.
  assert (∃ g, reify fuel h' y = Some g) as [g Hg].
  { revert Hvs. rewrite Hshape.
    destruct (is_nullish (member_of x "id") && is_nullish (member_of x "bbox"));
      [|destruct (is_nullish (member_of x "bbox"))]; simpl;
      repeat (destruct (reify fuel h' _); [|done]); eauto. }
  exists g, y, h4, h5. split_and!; [|done|done|done|by exists fuel].
  assert (repr h' (HStr (js "Feature")) (VStr (js "Feature"))) as Htype by by exists 0.
  assert (repr h' y g) as Hgeom by by exists fuel.
  unfold feature_of. fold P. rewrite Hshape in Hvs.
  destruct (is_nullish (member_of x "id") && is_nullish (member_of x "bbox"));
    [|destruct (is_nullish (member_of x "bbox"))];
    f_equal; (eapply reify_members; [exact Hvs|]); by repeat constructor.
Qed.


(** The types that [geometry] decodes. *)
Definition geometry_types : list string :=
  ["GeometryCollection"; "Point"; "MultiPoint"; "LineString"; "MultiLineString";
   "Polygon"; "MultiPolygon"]%string.



Lemma repr_null h x : repr h x VNull → x = HNull.
Proof.
  intros [fuel Hr].
  destruct x as [| |b|n|s|l]; destruct fuel as [|fuel]; simpl in Hr; try congruence.
  destruct (h !! l) as [[items|props]|]; [| |done].
  - by destruct (omap_list _ items).
  - by destruct (omap_list _ props).
Qed.

(** On an object that is neither a name nor a geometry collection,
    [feature] is [feature1]. *)
Lemma feature_single topology o h type :
  (∀ name, o ≠ HStr name) →
  get h o (js "type") = Ok type →
  is_string type "GeometryCollection" = false →
  feature topology o h = feature1 topology o h.
Proof.
  intros Ho Htype Hgc. unfold feature, mbind, HM_bind.
  assert (match o with HStr name => named_object topology name | _ => mret o end
          = hret o) as ->.
  { destruct o; try done. by destruct (Ho s). }
  unfold hbind at 1. unfold hret at 1. unfold hbind at 1, prop at 1, hlift at 1.
  by rewrite Htype, Hgc.
Qed.

(** The iteration of a key, with the object of the key as the document
    has it. *)
Lemma decoded_for_key (disk : Fs.FS) text doc objects es w :
  Fs.readFile disk input_path = Ok text →
  JSON.parse text = Ok doc →
  get_own doc (js "objects") = Ok objects →
  JS.Object_entries objects = Ok es →
  main disk = (Ok tt, w) →
  ∀ i key x, es.*1 !! i = Some key → get_own objects key = Ok x →
    ∃ h o geojson h' v content,
      repr h (alloc doc []).1 doc ∧ repr h o x ∧
      feature (alloc doc []).1 o h = (Ok geojson, h') ∧
      reify (S (length h')) h' geojson = Some v ∧
      JSON.stringify v 2 = Some content ∧
      written w !! i = Some (js "./data/" ++ key ++ js ".geojson", content).
Proof.
  intros Hread Hparse Hobjects Hes Hrun i key x Hi Hx.
  destruct (key_iteration Topojson.feature disk text doc objects es w
              Hread Hparse Hobjects Hes Hrun i key Hi)
    as (wi & wi' & os & o & geojson & v & content &
        Hpre & Hos & Ho & Hf & Hv & Hs & _ & _ & _ & Hw).
  exists (mem wi), o, geojson, (mem wi'), v, content.
  destruct (alloc doc []) as [input h0] eqn:Ha. cbn [fst snd] in *.
  apply alloc_spec in Ha as [_ Hdoc].
  destruct (steps_appends _ _ _ _ _ feature_appends Hpre) as [ext Hext].
  cbn [mem] in Hext. rewrite Hext in *.
  apply (repr_weaken _ _ _ ext) in Hdoc.
  pose proof (get_repr _ _ _ (js "objects") Hdoc) as Hget.
  rewrite Hobjects, Hos in Hget. destruct Hget as (? & [= <-] & Hobjs).
  pose proof (get_repr _ _ _ key Hobjs) as Hget.
  rewrite Hx, Ho in Hget. destruct Hget as (? & [= <-] & Hrepr).
  by split_and!.
Qed.

(** X11.  The feature written for a key whose object is neither a string
    nor a geometry collection: its [properties] are those of the object,
    or an empty object when the object has none or [null]; it has the
    [id] of the object when the object has an [id] or a [bbox], and its
    [bbox] when it has one; its [geometry] is what was decoded. *)
Theorem feature_members_are_those_of_the_object (disk : Fs.FS) text doc objects es w :
  Fs.readFile disk input_path = Ok text →
  JSON.parse text = Ok doc →
  get_own doc (js "objects") = Ok objects →
  JS.Object_entries objects = Ok es →
  main disk = (Ok tt, w) →
  ∀ i key x, es.*1 !! i = Some key →
    get_own objects key = Ok x → (∀ s, x ≠ VStr s) →
    member_of x "type" ≠ VStr (js "GeometryCollection") →
    ∃ g content,
      written w !! i = Some (js "./data/" ++ key ++ js ".geojson", content) ∧
      JSON.stringify (feature_of x g) 2 = Some content.
Proof.
  intros Hread Hparse Hobjects Hes Hrun i key x Hi Hx Hnot Hgc.
  destruct (decoded_for_key disk text doc objects es w Hread Hparse Hobjects Hes Hrun
              i key x Hi Hx)
    as (h & o & geojson & h' & v & content & _ & Hrepr & Hf & Hv & Hs & Hw).
  assert (∃ type, get h o (js "type") = Ok type ∧ repr h type (member_of x "type"))
    as (type & Htype & Hrt).
  { pose proof (get_repr _ _ _ (js "type") Hrepr) as Hget. unfold member_of.
    destruct (get_own x (js "type")) as [tv|e]; [by destruct Hget as (t & ? & ?); eauto|].
    exfalso. unfold feature, mbind, HM_bind in Hf.
    apply hbind_Ok in Hf as (o' & h1 & Ho' & Hf).
    assert (o' = o ∧ h1 = h) as [-> ->].
    { destruct o; try (by injection Ho' as <- <-).
      by destruct (repr_not_string _ _ _ Hrepr Hnot s). }
    apply hbind_Ok in Hf as (? & ? & Ht & _).
    unfold prop, hlift in Ht. by rewrite Hget in Ht. }
  assert (is_string type "GeometryCollection" = false) as Hstr.
  { destruct (is_string type "GeometryCollection") eqn:Hstr; [|done].
    by apply (is_string_repr _ _ _ _ Hrt) in Hstr. }
  rewrite (feature_single _ _ _ _ (repr_not_string _ _ _ Hrepr Hnot) Htype Hstr) in Hf.
  destruct (feature1_members _ _ _ _ _ _ _ _ Hrepr Hf Hv) as (g & _ & _ & _ & -> & _).
  by exists g, content.
Qed.


(** X13.  A key bound to [null] stops the run: once the keys before it
    are done, the decoder throws a [TypeError] on it, and the run ends
    there with the disk and the record of writes as those keys left
    them. *)
Theorem null_object_is_a_type_error (disk : Fs.FS) text doc objects es pre key post w1 :
  Fs.readFile disk input_path = Ok text →
  JSON.parse text = Ok doc →
  get_own doc (js "objects") = Ok objects →
  JS.Object_entries objects = Ok es →
  es.*1 = pre ++ key :: post →
  get_own objects key = Ok VNull →
  steps feature (alloc doc []).1 pre (mkWorld disk (alloc doc []).2 []) w1 →
  main disk = (Throw TypeError, w1).
Proof.
  intros Hread Hparse Hobjects Hes Hkeys Hnull Hpre.
  destruct (run_loop feature _ _ _ _ _ Hread Hparse Hobjects Hes) as (xs & Hxs & Heq).
  unfold main. rewrite Heq. apply for_of_Throw. exists pre, key, post, w1.
  split_and!; [congruence|done|].
  destruct (alloc doc []) as [input h0] eqn:Ha. cbn [fst snd] in *.
  apply alloc_spec in Ha as [_ Hdoc].
  destruct (steps_appends _ _ _ _ _ feature_appends Hpre) as [ext Hext].
  cbn [mem] in Hext. apply (repr_weaken _ _ _ ext) in Hdoc. rewrite <- Hext in Hdoc.
  pose proof (get_repr _ _ _ (js "objects") Hdoc) as Hget.
  rewrite Hobjects in Hget. destruct Hget as (os & Hos & Hobjs).
  pose proof (get_repr _ _ _ key Hobjs) as Hget.
  rewrite Hnull in Hget. destruct Hget as (o & Ho & ->%repr_null).
  rewrite convert_entry_eq. unfold render. rewrite Hos, Ho.
  by destruct w1.
Qed.

End FeatureMembers.

Module FeatureSamples.
Import JS.



(** A key bound to [null] before another key. *)
Definition null_object : string :=
  "{'objects':{'a':null,'b':{'type':null}},'arcs':[]}".
End FeatureSamples.

Lemma feature_members_are_those_of_the_object_witness :
  let disk := Sample.with_input Sample.region_polygon in
  ∃ g content,
    written (main (num := Z) disk).2 !! 0%nat
      = Some (js "./data/" ++ js "region" ++ js ".geojson", content) ∧
    JSON.stringify
      (JS.VObj [(js "type", JS.VStr (js "Feature")); (js "properties", JS.VObj []);
                (js "geometry", g)]) 2 = Some content.
Proof.
  intros disk.
  assert (Fs.readFile disk input_path = Ok (Sample.json Sample.region_polygon)) as H1
    by (vm_compute; reflexivity).
  assert (JSON.parse (Sample.json Sample.region_polygon)
          = Ok (Sample.document Sample.region_polygon)) as H2
    by (vm_compute; reflexivity).
  assert (JS.get_own (Sample.document Sample.region_polygon) (js "objects")
          = Ok (Sample.mapping Sample.region_polygon)) as H3
    by (vm_compute; reflexivity).
  assert (JS.Object_entries (Sample.mapping Sample.region_polygon)
          = Ok (Sample.entries_of Sample.region_polygon)) as H4
    by (vm_compute; reflexivity).
  assert (main disk = (Ok tt, (main disk).2)) as H5
    by (apply Sample.completed; vm_compute; reflexivity).
  assert ((Sample.entries_of Sample.region_polygon).*1 !! 0%nat = Some (js "region"))
    as H6 by (vm_compute; reflexivity).
  assert (JS.get_own (Sample.mapping Sample.region_polygon) (js "region")
          = Ok Region.polygon_object) as H7 by (vm_compute; reflexivity).
  assert (∀ s, Region.polygon_object ≠ JS.VStr s) as H8 by done.
  assert (member_of Region.polygon_object "type" ≠ JS.VStr (js "GeometryCollection"))
    as H9 by (vm_compute; discriminate).
  exact (feature_members_are_those_of_the_object disk _ _ _ _ _ H1 H2 H3 H4 H5
           0%nat (js "region") _ H6 H7 H8 H9).
Defined.


Lemma null_object_is_a_type_error_witness :
  let disk := Sample.with_input FeatureSamples.null_object in
  main (num := Z) disk = (Throw TypeError, Sample.loaded FeatureSamples.null_object).
Proof.
  intros disk.
  assert (Fs.readFile disk input_path = Ok (Sample.json FeatureSamples.null_object)) as H1
    by (vm_compute; reflexivity).
  assert (JSON.parse (Sample.json FeatureSamples.null_object)
          = Ok (Sample.document FeatureSamples.null_object)) as H2
    by (vm_compute; reflexivity).
  assert (JS.get_own (Sample.document FeatureSamples.null_object) (js "objects")
          = Ok (Sample.mapping FeatureSamples.null_object)) as H3
    by (vm_compute; reflexivity).
  assert (JS.Object_entries (Sample.mapping FeatureSamples.null_object)
          = Ok (Sample.entries_of FeatureSamples.null_object)) as H4
    by (vm_compute; reflexivity).
  assert ((Sample.entries_of FeatureSamples.null_object).*1 = [] ++ js "a" :: [js "b"])
    as H5 by (vm_compute; reflexivity).
  assert (JS.get_own (Sample.mapping FeatureSamples.null_object) (js "a") = Ok JS.VNull)
    as H6 by (vm_compute; reflexivity).
  exact (null_object_is_a_type_error disk _ _ _ _ _ _ _ _ H1 H2 H3 H4 H5 H6
           (steps_nil _ _ _)).
Defined.

(** ** The geometries

    What the decoder makes of each type of geometry.  In a topology with
    a transform the arcs are sequences of deltas and the points of the
    objects are quantized positions; in a topology without one they are
    the positions themselves. *)

Section ArcDecoding.
Import JS Topojson.
Context `{Number num}.
Open Scope nat_scope.
Implicit Types (h pre post : heap num).

Lemma hbind_run {A B} (m : HM num A) (k : A → HM num B) h a h1 :
  m h = (Ok a, h1) → hbind m k h = k a h1.
Proof. unfold hbind. by intros ->. Qed.

Lemma repr_number h x n : repr h x (VNum n) → x = HNum n.
Proof.
  intros [fuel Hr].
  destruct x as [| |b|n0|s|l]; destruct fuel as [|fuel]; simpl in Hr; try congruence.
  destruct (h !! l) as [[items|props]|]; [| |done].
  - by destruct (omap_list _ items).
  - by destruct (omap_list _ props).
Qed.

Lemma repr_items h x vs :
  repr h x (VArr vs) →
  ∃ l items, x = HRef l ∧ h !! l = Some (CArr items) ∧ Forall2 (repr h) items vs.
Proof.
  intros [fuel Hr].
  destruct x as [| |b|n|s|l]; destruct fuel as [|fuel]; simpl in Hr; try congruence.
  destruct (h !! l) as [[items|props]|] eqn:Hl; [| |done].
  - destruct (omap_list _ items) as [vs'|] eqn:Hvs; simpl in Hr; [|done].
    injection Hr as <-. exists l, items. split_and!; [done..|].
    apply omap_list_Forall2 in Hvs.
    eapply Forall2_impl; [exact Hvs|]. intros y v Hy. by exists fuel.
  - by destruct (omap_list _ props).
Qed.

Lemma reify_object fuel h l props vs :
  h !! l = Some (CObj props) →
  omap_list (λ kx, pair kx.1 <$> reify fuel h kx.2) props = Some vs →
  reify (S fuel) h (HRef l) = Some (VObj vs).
Proof. intros Hl Hvs. cbn [reify]. by rewrite Hl, Hvs. Qed.

Lemma prop_run h o x k v :
  repr h o x → get_own x (js k) = Ok v → ∃ y, prop o k h = (Ok y, h) ∧ repr h y v.
Proof.
  intros Hr Hk. pose proof (get_repr _ _ _ (js k) Hr) as Hg. rewrite Hk in Hg.
  destruct Hg as (y & Hy & Hv). exists y. unfold prop, hlift. by rewrite Hy.
Qed.

Lemma array_loop_run h l items :
  h !! l = Some (CArr items) → array_loop (HRef l) h = (Ok items, h).
Proof.
  intros Hl. unfold array_loop, mbind, HM_bind, items_of, hlift, hbind. by rewrite Hl.
Qed.

Lemma modify_run pre items post f :
  modify (length pre) f (pre ++ CArr items :: post) = (Ok tt, pre ++ CArr (f items) :: post).
Proof.
  unfold modify. rewrite list_lookup_middle by done.
  rewrite (insert_app_r_alt pre _ (length pre)) by lia.
  by rewrite Nat.sub_diag.
Qed.

Lemma hbind_throws {A B} (m : HM num A) (k : A → HM num B) h e h1 :
  m h = (Throw e, h1) → hbind m k h = (Throw e, h1).
Proof. unfold hbind. by intros ->. Qed.

Lemma array_repr h l items vs :
  h !! l = Some (CArr items) → Forall2 (repr h) items vs → repr h (HRef l) (VArr vs).
Proof.
  intros Hl Hvs. destruct (reify_items h items vs [] Hvs) as [fuel Hf].
  rewrite app_nil_r in Hf. exists (S fuel). cbn [reify]. by rewrite Hl, Hf.
Qed.

(** The positions that the deltas of an arc lead to, from the position
    [(x0, y0)]. *)
Fixpoint sums (x0 y0 : num) (deltas : list (num * num)) : list (num * num) :=
  match deltas with
  | [] => []
  | (x, y) :: deltas =>
      let x1 := num_add x0 x in
      let y1 := num_add y0 y in
      (x1, y1) :: sums x1 y1 deltas
  end.

Lemma length_sums x0 y0 deltas : length (sums x0 y0 deltas) = length deltas.
Proof.
  revert x0 y0. induction deltas as [|[x y] deltas IH]; intros x0 y0; simpl; [done|].
  by rewrite IH.
Qed.

(** A position, scaled and translated. *)
Definition scaled (kx ky dx dy : num) (p : num * num) : num * num :=
  (num_add (num_mul p.1 kx) dx, num_add (num_mul p.2 ky) dy).

(** The arc that the index [n] names: [arcs[n < 0 ? ~n : n]]. *)
Definition arc_index (n : num) : option N :=
  if num_ltz n then
    let j := Z.lnot (ToInt32 n) in
    if (0 <=? j)%Z then Some (Z.to_N j) else None
  else num_index n.

(** A negative index takes the arc backwards. *)
Definition oriented {A} (n : num) (l : list A) : list A :=
  if num_ltz n then rev l else l.

Definition point_value (p : num * num) : value num := VArr [VNum p.1; VNum p.2].

Definition point_cell (p : num * num) : cell num := CArr [HNum p.1; HNum p.2].

(** What [line] leaves of the points of its arcs: a line has two points
    at least. *)
Definition line_points (ps : list (value num)) : list (value num) :=
  if decide (length ps < 2) then ps ++ [default VUndef (head ps)] else ps.

(** What [ring] leaves of them: a ring has four points at least. *)
Definition ring_points (ps : list (value num)) : list (value num) :=
  let l := line_points ps in l ++ replicate (4 - length l) (default VUndef (head l)).

(** A geometry with coordinates. *)
Definition geometry_of (type : string) (coordinates : value num) : value num :=
  VObj [(js "type", VStr (js type)); (js "coordinates", coordinates)].

(** The indexes of arcs that are given with their points. *)
Definition indexes (arcs : list (num * list (num * num))) : value num :=
  VArr (VNum ∘ fst <$> arcs).

(** The same on the references of the heap. *)
Definition line_refs (items : list (hval num)) : list (hval num) :=
  if decide (length items < 2) then items ++ [default HUndef (head items)] else items.

Definition ring_refs (items : list (hval num)) : list (hval num) :=
  let l := line_refs items in l ++ replicate (4 - length l) (default HUndef (head l)).

Lemma line_refs_Forall2 (P : hval num → value num → Prop) refs vals :
  Forall2 P refs vals → P HUndef VUndef →
  Forall2 P (line_refs refs) (line_points vals).
Proof.
  intros Hall Hu. unfold line_refs, line_points.
  rewrite <- (Forall2_length _ _ _ Hall).
  case_decide; [|done]. apply Forall2_app; [done|].
  constructor; [|constructor]. by destruct Hall.
Qed.

Lemma ring_refs_Forall2 (P : hval num → value num → Prop) refs vals :
  Forall2 P refs vals → P HUndef VUndef →
  Forall2 P (ring_refs refs) (ring_points vals).
Proof.
  intros Hall Hu. unfold ring_refs, ring_points.
  pose proof (line_refs_Forall2 P refs vals Hall Hu) as Hline.
  rewrite <- (Forall2_length _ _ _ Hline).
  apply Forall2_app; [done|]. apply Forall2_replicate. by destruct Hline.
Qed.

Lemma Forall2_removelast {A B} (P : A → B → Prop) l k :
  Forall2 P l k → Forall2 P (removelast l) (removelast k).
Proof.
  induction 1 as [|x y l k Hxy Hlk IH]; [constructor|].
  destruct Hlk; simpl in *; [constructor|]. by constructor.
Qed.

Lemma Forall2_rev {A B} (P : A → B → Prop) l k :
  Forall2 P l k → Forall2 P (rev l) (rev k).
Proof.
  induction 1 as [|x y l k Hxy Hlk IH]; simpl; [constructor|].
  apply Forall2_app; [done|]. by repeat constructor.
Qed.

Lemma Forall2_oriented {A B} (P : A → B → Prop) n l k :
  Forall2 P l k → Forall2 P (oriented n l) (oriented n k).
Proof. unfold oriented. destruct (num_ltz n); [apply Forall2_rev|done]. Qed.

Lemma push_run l q h items :
  h !! l = Some (CArr items) →
  push l q h = (Ok tt, <[l := CArr (items ++ [q])]> h).
Proof. unfold push, modify. by intros ->. Qed.

Lemma reverse_tail_app (l1 l2 : list (hval num)) :
  reverse_tail (length l2) (l1 ++ l2) = l1 ++ rev l2.
Proof.
  unfold reverse_tail. rewrite length_app.
  replace (length l1 + length l2 - length l2) with (length l1) by lia.
  by rewrite take_app_length, drop_app_length.
Qed.

(** The points of an arc table entry, in the heap [pre]. *)
Definition deltas_at pre (ps : list (hval num)) (deltas : list (num * num)) : Prop :=
  Forall2 (λ p d, ∃ lp, p = HRef lp ∧ pre !! lp = Some (CArr [HNum d.1; HNum d.2]))
    ps deltas.

(** A reference of the array of a line, the cell after [pre], to the
    point [p]: whatever the array holds and whatever comes after [post]. *)
Definition stable pre post (r : hval num) (p : num * num) : Prop :=
  ∀ c rest, repr (pre ++ c :: post ++ rest) r (point_value p).

Lemma stable_later pre post new r p : stable pre post r p → stable pre (post ++ new) r p.
Proof. intros Hr c rest. rewrite <- app_assoc. apply Hr. Qed.

Lemma stable_old pre post lp p :
  pre !! lp = Some (point_cell p) → stable pre post (HRef lp) p.
Proof.
  intros Hlp c rest. exists 1. cbn [reify].
  by rewrite (lookup_app_l_Some _ _ _ _ Hlp).
Qed.

Lemma stable_new pre post j p :
  post !! j = Some (point_cell p) → stable pre post (HRef (S (length pre + j))) p.
Proof.
  intros Hj c rest. exists 1. cbn [reify].
  rewrite lookup_app_r by lia.
  replace (S (length pre + j) - length pre) with (S j) by lia. cbn [lookup list_lookup].
  by rewrite (lookup_app_l_Some _ _ _ _ Hj).
Qed.

Section Scaled.
Variables (kx ky dx dy : num).

Let a : affine num := {| Topojson.kx := HNum kx; Topojson.ky := HNum ky;
                         Topojson.dx := HNum dx; Topojson.dy := HNum dy |}.

Lemma transform_point_run st lp x y (first : bool) h x0 y0 :
  h !! lp = Some (CArr [HNum x; HNum y]) →
  (if first then (num_zero, num_zero) else st) = (x0, y0) →
  transform_point (Some a) st (HRef lp) first h =
    (Ok (HRef (length h), (num_add x0 x, num_add y0 y)),
     h ++ [point_cell (scaled kx ky dx dy (num_add x0 x, num_add y0 y))]).
Proof.
  intros Hlp Hst. unfold transform_point. rewrite Hst.
  unfold mbind, HM_bind, array_loop, mbind, HM_bind, items_of, hlift, hbind.
  by rewrite Hlp.
Qed.

Lemma push_points_scaled pre ps deltas :
  deltas_at pre ps deltas →
  ∀ st k items post,
    (k = 0 → st = (num_zero, num_zero)) →
    push_points (Some a) (length pre) st k ps (pre ++ CArr items :: post) =
      (Ok tt,
       pre ++ CArr (items ++ (HRef <$> seq (S (length pre + length post)) (length deltas)))
           :: (post ++ (point_cell ∘ scaled kx ky dx dy <$> sums st.1 st.2 deltas))).
Proof.
  induction 1 as [|p [x y] ps deltas (lp & -> & Hlp) _ IH]; intros st k items post Hk.
  - simpl. by rewrite !app_nil_r.
  - cbn [push_points]. unfold mbind, HM_bind.
    destruct st as [x0 y0].
    erewrite hbind_run; last first.
    { apply transform_point_run with (x0 := x0) (y0 := y0);
        [by apply lookup_app_l_Some|].
      case_bool_decide; [by rewrite Hk|done]. }
    cbn [fst snd].
    erewrite hbind_run; last first.
    { apply push_run. rewrite <- app_assoc. by apply list_lookup_middle. }
    rewrite <- app_assoc, <- app_comm_cons.
    rewrite (insert_app_r_alt pre _ (length pre)) by lia.
    rewrite Nat.sub_diag. cbn [insert list_insert].
    rewrite (IH (num_add x0 x, num_add y0 y) (S k)) by done.
    cbn [sums fst snd length seq fmap list_fmap compose].
    rewrite !length_app. cbn [length].
    rewrite <- !app_assoc. cbn [app].
    by replace (length pre + S (length post)) with (S (length pre + length post)) by lia;
       replace (length post + 1) with (S (length post)) by lia;
       replace (length pre + S (length post)) with (S (length pre + length post)) by lia.
Qed.

End Scaled.

(** Without a transform the points go into the line as they are. *)
Lemma push_points_plain pre ps :
  ∀ st k items post,
    push_points None (length pre) st k ps (pre ++ CArr items :: post) =
      (Ok tt, pre ++ CArr (items ++ ps) :: post).
Proof.
  induction ps as [|p ps IH]; intros st k items post.
  - simpl. by rewrite app_nil_r.
  - cbn [push_points transform_point]. unfold mbind, HM_bind, mret, HM_ret.
    unfold hbind at 1, hret at 1.
    erewrite hbind_run; last first.
    { apply push_run. by apply list_lookup_middle. }
    rewrite (insert_app_r_alt pre _ (length pre)) by lia.
    rewrite Nat.sub_diag. cbn [insert list_insert].
    rewrite IH. by rewrite <- app_assoc.
Qed.

Section Transformed.
(** The transform of the topology: its scale and its translate, or
    none. *)
Variable tr : option (num * num * num * num).

(** A position of the topology, in the coordinates of the output. *)
Definition place (p : num * num) : num * num :=
  match tr with
  | Some (kx, ky, dx, dy) => scaled kx ky dx dy p
  | None => p
  end.

(** The position of a point that stands alone. *)
Definition placed (d : num * num) : num * num :=
  match tr with
  | Some _ => place (num_add num_zero d.1, num_add num_zero d.2)
  | None => d
  end.

(** The points of an arc: with a transform the arc holds deltas. *)
Definition positions (deltas : list (num * num)) : list (num * num) :=
  match tr with
  | Some _ => place <$> sums num_zero num_zero deltas
  | None => deltas
  end.

(** The points of a line along arcs, each given by its index and its
    points: an arc starts where the arc before it ends, and that point
    is there once. *)
Fixpoint along (arcs : list (num * list (num * num))) (acc : list (num * num))
    : list (num * num) :=
  match arcs with
  | [] => acc
  | (n, deltas) :: arcs => along arcs (removelast acc ++ oriented n (positions deltas))
  end.

(** The coordinates of a line and of a ring along arcs. *)
Definition line_coordinates (arcs : list (num * list (num * num))) : value num :=
  VArr (line_points (point_value <$> along arcs [])).

Definition ring_coordinates (arcs : list (num * list (num * num))) : value num :=
  VArr (ring_points (point_value <$> along arcs [])).

(** The document has the transform [tr]. *)
Definition transform_of (doc : value num) : Prop :=
  ∃ t, get_own doc (js "transform") = Ok t ∧
       match tr with
       | Some (kx, ky, dx, dy) =>
           get_own t (js "scale") = Ok (VArr [VNum kx; VNum ky]) ∧
           get_own t (js "translate") = Ok (VArr [VNum dx; VNum dy])
       | None => is_nullish t = true
       end.

(** What [transform] makes of it. *)
Definition affine_of : option (affine num) :=
  (λ '(kx, ky, dx, dy), {| Topojson.kx := HNum kx; Topojson.ky := HNum ky;
                           Topojson.dx := HNum dx; Topojson.dy := HNum dy |}) <$> tr.

Lemma transform_run h topology doc :
  repr h topology doc → transform_of doc →
  ∃ t, prop topology "transform" h = (Ok t, h) ∧ transform t h = (Ok affine_of, h).
Proof.
  intros Hdoc (tv & Htv & Htr).
  destruct (prop_run _ _ _ "transform" _ Hdoc Htv) as (t & Hprop & Ht).
  exists t. split; [done|]. unfold transform, affine_of.
  rewrite (nullish_repr _ _ _ Ht).
  destruct tr as [[[[kx ky] dx] dy]|]; [|by rewrite Htr].
  destruct Htr as [Hscale Htranslate].
  assert (is_nullish tv = false) as -> by by destruct tv.
  destruct (prop_run _ _ _ "scale" _ Ht Hscale) as (scale & Hs & Hsr).
  destruct (prop_run _ _ _ "translate" _ Ht Htranslate) as (translate & Htl & Htlr).
  destruct (prop_run _ _ _ "0" (VNum kx) Hsr eq_refl) as (s0 & Hs0 & ->%repr_number).
  destruct (prop_run _ _ _ "1" (VNum ky) Hsr eq_refl) as (s1 & Hs1 & ->%repr_number).
  destruct (prop_run _ _ _ "0" (VNum dx) Htlr eq_refl) as (t0 & Ht0 & ->%repr_number).
  destruct (prop_run _ _ _ "1" (VNum dy) Htlr eq_refl) as (t1 & Ht1 & ->%repr_number).
  unfold mbind, HM_bind.
  rewrite (hbind_run _ _ _ _ _ Hs), (hbind_run _ _ _ _ _ Hs0).
  rewrite (hbind_run _ _ _ _ _ Hs), (hbind_run _ _ _ _ _ Hs1).
  rewrite (hbind_run _ _ _ _ _ Htl), (hbind_run _ _ _ _ _ Ht0).
  rewrite (hbind_run _ _ _ _ _ Htl), (hbind_run _ _ _ _ _ Ht1).
  done.
Qed.

Lemma push_points_run pre ps deltas items post :
  deltas_at pre ps deltas →
  ∃ refs new,
    push_points affine_of (length pre) (num_zero, num_zero) 0 ps
        (pre ++ CArr items :: post)
      = (Ok tt, pre ++ CArr (items ++ refs) :: (post ++ new)) ∧
    length refs = length ps ∧
    Forall2 (stable pre (post ++ new)) refs (positions deltas).
Proof.
  intros Hps. unfold affine_of, positions, place.
  destruct tr as [[[[kx ky] dx] dy]|]; cbn [fmap option_fmap option_map].
  - eexists _, _. split; [by apply push_points_scaled|].
    rewrite length_fmap, length_seq. split; [by rewrite (Forall2_length _ _ _ Hps)|].
    cbn [fst snd]. set (ps' := sums _ _ deltas).
    assert (length deltas = length ps') as -> by (unfold ps'; by rewrite length_sums).
    clearbody ps'. rewrite list_fmap_compose.
    apply Forall2_same_length_lookup_2.
    { apply Forall2_same_length. apply Forall2_true; [done|].
      by rewrite !length_fmap, length_seq. }
    intros i r p Hr Hp. rewrite list_lookup_fmap in Hr.
    rewrite lookup_seq_lt in Hr
      by (apply lookup_lt_Some in Hp; by rewrite length_fmap in Hp).
    injection Hr as <-.
    replace (S (length pre + length post + i)) with (S (length pre + (length post + i)))
      by lia.
    apply stable_new. rewrite lookup_app_r by lia.
    replace (length post + i - length post) with i by lia.
    rewrite list_lookup_fmap.
    change (scaled kx ky dx dy <$> ps') with ((λ p, scaled kx ky dx dy p) <$> ps').
    by rewrite Hp.
  - exists ps, []. split; [by rewrite push_points_plain, app_nil_r|]. split; [done|].
    eapply Forall2_impl; [exact Hps|]. intros p d (lp & -> & Hlp). by apply stable_old.
Qed.

Lemma arc_run pre lt table n k lq ps deltas items post :
  pre !! lt = Some (CArr table) →
  arc_index n = Some k →
  table !! N.to_nat k = Some (HRef lq) →
  pre !! lq = Some (CArr ps) →
  deltas_at pre ps deltas →
  ∃ refs new,
    arc affine_of (HRef lt) (HNum n) (length pre) (pre ++ CArr items :: post)
      = (Ok tt, pre ++ CArr (removelast items ++ oriented n refs) :: (post ++ new)) ∧
    Forall2 (stable pre (post ++ new)) refs (positions deltas).
Proof.
  intros Hlt Hk Hq Hlq Hps.
  destruct (push_points_run pre ps deltas (removelast items) post Hps)
    as (refs & new & Hpush & Hlen & Hrefs).
  exists refs, new. split; [|done]. unfold arc, mbind, HM_bind.
  rewrite (hbind_run _ _ _ _ _ (modify_run pre items post (λ items, removelast items))).
  unfold number at 1, mret, HM_ret. unfold hbind at 1, hret at 1.
  unfold arc_at, mbind, HM_bind. unfold arc_index in Hk. rewrite Hk.
  erewrite (hbind_run (hbind _ _)); last first.
  { erewrite hbind_run; [|apply array_loop_run; by apply lookup_app_l_Some].
    unfold mret, HM_ret, hret. cbn [mbind option_bind]. rewrite Hq. done. }
  cbn [default from_option id].
  erewrite hbind_run; [|apply array_loop_run; by apply lookup_app_l_Some].
  rewrite (hbind_run _ _ _ _ _ Hpush).
  unfold oriented. destruct (num_ltz n); [|done].
  rewrite modify_run. do 4 f_equal. rewrite <- Hlen. apply reverse_tail_app.
Qed.

(** An arc of the object, in the table of the heap [pre]. *)
Definition arc_at_table pre (table : list (hval num)) (nd : num * list (num * num))
    : Prop :=
  ∃ k lq ps, arc_index nd.1 = Some k ∧ table !! N.to_nat k = Some (HRef lq) ∧
             pre !! lq = Some (CArr ps) ∧ deltas_at pre ps nd.2.

Lemma arc_at_table_later pre ext table nd :
  arc_at_table pre table nd → arc_at_table (pre ++ ext) table nd.
Proof.
  intros (k & lq & ps & Hk & Hq & Hlq & Hps). exists k, lq, ps.
  split_and!; [done|done|by apply lookup_app_l_Some|].
  eapply Forall2_impl; [exact Hps|]. intros p d (lp & -> & Hlp).
  exists lp. split; [done|]. by apply lookup_app_l_Some.
Qed.

Lemma each_arc_run pre lt table arcs :
  pre !! lt = Some (CArr table) →
  Forall (arc_at_table pre table) arcs →
  ∀ items post acc,
    Forall2 (stable pre post) items acc →
    ∃ items' post',
      each_arc affine_of (HRef lt) (HNum ∘ fst <$> arcs) (length pre)
          (pre ++ CArr items :: post)
        = (Ok tt, pre ++ CArr items' :: post') ∧
      Forall2 (stable pre post') items' (along arcs acc).
Proof.
  intros Hlt. induction 1 as [|[n deltas] arcs (k & lq & ps & Hk & Hq & Hlq & Hps) _ IH];
    intros items post acc Hinv.
  - exists items, post. by split.
  - cbn [fmap list_fmap compose fst snd each_arc along] in *.
    destruct (arc_run pre lt table n k lq ps deltas items post Hlt Hk Hq Hlq Hps)
      as (refs & new & Harc & Hrefs).
    unfold mbind, HM_bind. rewrite (hbind_run _ _ _ _ _ Harc).
    apply IH. apply Forall2_app.
    + apply Forall2_removelast. eapply Forall2_impl; [exact Hinv|].
      intros r p. apply stable_later.
    + by apply Forall2_oriented.
Qed.

Lemma line_cell_run h la lt table arcs :
  h !! la = Some (CArr (HNum ∘ fst <$> arcs)) →
  h !! lt = Some (CArr table) →
  Forall (arc_at_table h table) arcs →
  ∃ items post,
    line_cell affine_of (HRef lt) (HRef la) h
      = (Ok (length h), h ++ CArr (line_refs items) :: post) ∧
    Forall2 (stable h post) items (along arcs []).
Proof.
  intros Hla Hlt Harcs.
  destruct (each_arc_run h lt table arcs Hlt Harcs [] [] []) as (items & post & Hrun & Hinv);
    [constructor|].
  exists items, post. split; [|done].
  unfold line_cell, mbind, HM_bind.
  unfold hbind at 1.
  erewrite hbind_run; [|apply array_loop_run; by apply lookup_app_l_Some].
  rewrite (hbind_run _ _ _ _ _ Hrun).
  erewrite hbind_run; [|apply modify_run]. done.
Qed.

Lemma stable_repr h c post items acc :
  Forall2 (stable h post) items acc →
  Forall2 (repr (h ++ c :: post)) items (point_value <$> acc).
Proof.
  intros Hinv. apply Forall2_fmap_r. eapply Forall2_impl; [exact Hinv|].
  intros r p Hr. specialize (Hr c []). by rewrite app_nil_r in Hr.
Qed.

(** [f] decodes, in a heap that starts with [h], what [R] relates its
    argument to, and gives the value [V] of it. *)
Definition decodes {B} h (f : hval num → HM num (hval num))
    (R : hval num → B → Prop) (V : B → value num) : Prop :=
  ∀ x b ext, R x b →
    ∃ y ext', f x (h ++ ext) = (Ok y, (h ++ ext) ++ ext') ∧
              repr ((h ++ ext) ++ ext') y (V b).

(** The arcs of a line or ring, in the heap [h]. *)
Definition arcs_in h (table : list (hval num)) (x : hval num)
    (arcs : list (num * list (num * num))) : Prop :=
  ∃ la, x = HRef la ∧ h !! la = Some (CArr (HNum ∘ fst <$> arcs)) ∧
        Forall (arc_at_table h table) arcs.

(** An array of the heap [h] whose elements [R] relates to [bs]. *)
Definition array_in {B} h (R : hval num → B → Prop) (x : hval num) (bs : list B) : Prop :=
  ∃ l xs, x = HRef l ∧ h !! l = Some (CArr xs) ∧ Forall2 R xs bs.

Lemma line_decodes h lt table :
  h !! lt = Some (CArr table) →
  decodes h (line affine_of (HRef lt)) (arcs_in h table) line_coordinates.
Proof.
  intros Hlt x arcs ext (la & -> & Hla & Harcs).
  destruct (line_cell_run (h ++ ext) la lt table arcs) as (items & post & Hrun & Hinv);
    [by apply lookup_app_l_Some..| |].
  { eapply Forall_impl; [exact Harcs|]. intros nd. apply arc_at_table_later. }
  exists (HRef (length (h ++ ext))), (CArr (line_refs items) :: post). split.
  - unfold line, mbind, HM_bind. by rewrite (hbind_run _ _ _ _ _ Hrun).
  - apply array_repr with (items := line_refs items); [by apply list_lookup_middle|].
    apply line_refs_Forall2; [by apply stable_repr|by exists 0].
Qed.

Lemma ring_decodes h lt table :
  h !! lt = Some (CArr table) →
  decodes h (ring affine_of (HRef lt)) (arcs_in h table) ring_coordinates.
Proof.
  intros Hlt x arcs ext (la & -> & Hla & Harcs).
  destruct (line_cell_run (h ++ ext) la lt table arcs) as (items & post & Hrun & Hinv);
    [by apply lookup_app_l_Some..| |].
  { eapply Forall_impl; [exact Harcs|]. intros nd. apply arc_at_table_later. }
  exists (HRef (length (h ++ ext))), (CArr (ring_refs items) :: post). split.
  - unfold ring, mbind, HM_bind. rewrite (hbind_run _ _ _ _ _ Hrun).
    by rewrite (hbind_run _ _ _ _ _ (modify_run _ _ _ _)).
  - apply array_repr with (items := ring_refs items); [by apply list_lookup_middle|].
    apply ring_refs_Forall2; [by apply stable_repr|by exists 0].
Qed.

Lemma hmap_decodes {B} h f (R : hval num → B → Prop) V xs bs :
  decodes h f R V → Forall2 R xs bs →
  ∀ ext, ∃ ys ext',
    hmap f xs (h ++ ext) = (Ok ys, (h ++ ext) ++ ext') ∧
    Forall2 (λ y b, repr ((h ++ ext) ++ ext') y (V b)) ys bs.
Proof.
  intros Hf. induction 1 as [|x b xs bs Hxb _ IH]; intros ext.
  - exists [], []. split; [by rewrite app_nil_r|constructor].
  - destruct (Hf x b ext Hxb) as (y & e1 & Hy & Hr).
    destruct (IH (ext ++ e1)) as (ys & e2 & Hys & Hrs).
    exists (y :: ys), (e1 ++ e2). cbn [hmap].
    rewrite (hbind_run _ _ _ _ _ Hy). rewrite <- (app_assoc h ext e1).
    rewrite (hbind_run _ _ _ _ _ Hys).
    rewrite !app_assoc in *. split; [done|].
    constructor; [by apply repr_weaken|done].
Qed.

Lemma map_decodes {B} h f (R : hval num → B → Prop) V :
  decodes h f R V →
  decodes h (λ x, array_map x f) (array_in h R) (λ bs, VArr (V <$> bs)).
Proof.
  intros Hf x bs ext (l & xs & -> & Hl & Hxs).
  destruct (hmap_decodes h f R V xs bs Hf Hxs ext) as (ys & e & Hys & Hrs).
  exists (HRef (length ((h ++ ext) ++ e))), (e ++ [CArr ys]). split.
  - unfold array_map, mbind, HM_bind.
    erewrite hbind_run; last first.
    { unfold items_of, hlift. by rewrite (lookup_app_l_Some _ _ _ _ Hl). }
    cbv beta iota. rewrite (hbind_run _ _ _ _ _ Hys). unfold new. by rewrite app_assoc.
  - rewrite app_assoc.
    destruct (reify_items ((h ++ ext) ++ e) ys (V <$> bs) [CArr ys]) as [fuel Hvs].
    { by apply Forall2_fmap_r. }
    exists (S fuel). cbn [reify]. rewrite list_lookup_middle by done. by rewrite Hvs.
Qed.

(** The geometry that is made of the coordinates that [f] decodes. *)
Lemma with_coordinates_run {B} h f (R : hval num → B → Prop) V type x b :
  decodes h f R V → R x b →
  ∃ y h',
    hbind (f x) (with_coordinates (HStr (js type))) h = (Ok y, h') ∧
    repr h' y (geometry_of type (V b)).
Proof.
  intros Hf Hxb. destruct (Hf x b [] Hxb) as (c & e & Hc & Hr).
  rewrite app_nil_r in *. eexists _, _. split.
  - by rewrite (hbind_run _ _ _ _ _ Hc).
  - destruct Hr as [fuel Hr]. exists (S fuel).
    apply reify_object with
      (props := [(js "type", HStr (js type)); (js "coordinates", c)]);
      [by apply list_lookup_middle|].
    cbn [omap_list fst snd].
    rewrite (reify_weaken _ _ _ _ fuel _ Hr) by done.
    by rewrite reify_prim.
Qed.

(** An arc that the document has, the index with the deltas. *)
Definition arc_named (table : list (value num)) (nd : num * list (num * num)) : Prop :=
  ∃ k, arc_index nd.1 = Some k ∧
       table !! N.to_nat k = Some (VArr (point_value <$> nd.2)).

Lemma point_repr h p d :
  repr h p (point_value d) →
  ∃ lp, p = HRef lp ∧ h !! lp = Some (CArr [HNum d.1; HNum d.2]).
Proof.
  intros (lp & items & -> & Hlp & Hitems)%repr_items. exists lp. split; [done|].
  apply Forall2_cons_inv_r in Hitems as (x & rest & ->%repr_number & Hrest & ->).
  apply Forall2_cons_inv_r in Hrest as (y & rest' & ->%repr_number & Hrest & ->).
  by apply Forall2_nil_inv_r in Hrest as ->.
Qed.

Lemma numbers_repr h items (ns : list num) :
  Forall2 (repr h) items (VNum <$> ns) → items = HNum <$> ns.
Proof.
  rewrite Forall2_fmap_r. induction 1 as [|x n items ns ->%repr_number _ IH]; [done|].
  simpl. by rewrite IH.
Qed.

Lemma indexes_in h table tablev x arcs :
  Forall2 (repr h) table tablev →
  repr h x (indexes arcs) → Forall (arc_named tablev) arcs →
  arcs_in h table x arcs.
Proof.
  intros Htable (la & items & -> & Hla & Hitems)%repr_items Hall.
  rewrite list_fmap_compose in Hitems. apply numbers_repr in Hitems as ->.
  rewrite <- list_fmap_compose in Hla. exists la. split_and!; [done..|].
  eapply Forall_impl; [exact Hall|]. intros [n deltas] (k & Hk & Hq).
  destruct (Forall2_lookup_r _ _ _ _ _ Htable Hq) as (q & Hqi & Hqr).
  apply repr_items in Hqr as (lq & ps & -> & Hlq & Hps).
  rewrite Forall2_fmap_r in Hps.
  exists k, lq, ps. split_and!; [done..|].
  eapply Forall2_impl; [exact Hps|]. intros p d. apply point_repr.
Qed.

Lemma values_in {B} h (R : hval num → B → Prop) (W : B → value num) (P : B → Prop) x bs :
  (∀ x b, repr h x (W b) → P b → R x b) →
  repr h x (VArr (W <$> bs)) → Forall P bs → array_in h R x bs.
Proof.
  intros HR (l & xs & -> & Hl & Hxs)%repr_items Hall. exists l, xs.
  split_and!; [done..|]. rewrite Forall2_fmap_r in Hxs. clear Hl.
  induction Hxs as [|y b xs bs Hy _ IH]; [constructor|].
  apply Forall_cons in Hall as [Hb Hall]. constructor; [by apply HR|by apply IH].
Qed.

(** A point of two numbers, in the heap [h]. *)
Definition point_in h (x : hval num) (d : num * num) : Prop :=
  ∃ lp, x = HRef lp ∧ h !! lp = Some (CArr [HNum d.1; HNum d.2]).

Lemma point_decodes h :
  decodes h (point affine_of) (point_in h) (point_value ∘ placed).
Proof.
  intros x [px py] ext (lp & -> & Hlp). cbn [fst snd] in Hlp.
  unfold affine_of, placed, place, point, mbind, HM_bind.
  destruct tr as [[[[kx ky] dx] dy]|]; cbn [fmap option_fmap option_map fst snd compose].
  - exists (HRef (length (h ++ ext))),
      [point_cell (scaled kx ky dx dy (num_add num_zero px, num_add num_zero py))].
    split.
    + erewrite hbind_run; last first.
      { apply transform_point_run with (x0 := num_zero) (y0 := num_zero);
          [by apply lookup_app_l_Some|done]. }
      done.
    + exists 1. cbn [reify]. rewrite list_lookup_middle by done. reflexivity.
  - exists (HRef lp), []. rewrite app_nil_r. split; [done|].
    exists 1. cbn [reify]. by rewrite (lookup_app_l_Some _ _ _ _ Hlp).
Qed.

Ltac decide_type :=
  repeat match goal with
  | |- context [is_string (HStr (js ?s)) ?t] =>
      first
        [ assert (is_string (num := num) (HStr (js s)) t = false) as ->
            by (vm_compute; reflexivity)
        | assert (is_string (num := num) (HStr (js s)) t = true) as ->
            by (vm_compute; reflexivity) ]
  end.

Section Geometry.
Variables (h : heap num) (o : hval num) (x : value num) (fuel lt : nat).
Variables (table : list (hval num)) (tablev : list (value num)).
Hypothesis Hx : repr h o x.
Hypothesis Hlt : h !! lt = Some (CArr table).
Hypothesis Htable : Forall2 (repr h) table tablev.

Lemma geometry_line_string arcs :
  get_own x (js "type") = Ok (VStr (js "LineString")) →
  get_own x (js "arcs") = Ok (indexes arcs) →
  Forall (arc_named tablev) arcs →
  ∃ y h', geometry affine_of (HRef lt) (S fuel) o h = (Ok y, h') ∧
          repr h' y (geometry_of "LineString" (line_coordinates arcs)).
Proof.
  intros Htype Harcs Hall.
  destruct (prop_run _ _ _ "type" _ Hx Htype) as (type & Ht & ->%repr_string).
  destruct (prop_run _ _ _ "arcs" _ Hx Harcs) as (arcs' & Ha & Hrepr).
  cbn [geometry]. unfold mbind, HM_bind.
  rewrite (hbind_run _ _ _ _ _ Ht). decide_type. rewrite (hbind_run _ _ _ _ _ Ha).
  apply with_coordinates_run with (R := arcs_in h table); [by apply line_decodes|].
  by eapply indexes_in.
Qed.

Lemma geometry_multi_line_string lines :
  get_own x (js "type") = Ok (VStr (js "MultiLineString")) →
  get_own x (js "arcs") = Ok (VArr (indexes <$> lines)) →
  Forall (Forall (arc_named tablev)) lines →
  ∃ y h', geometry affine_of (HRef lt) (S fuel) o h = (Ok y, h') ∧
          repr h' y (geometry_of "MultiLineString" (VArr (line_coordinates <$> lines))).
Proof.
  intros Htype Harcs Hall.
  destruct (prop_run _ _ _ "type" _ Hx Htype) as (type & Ht & ->%repr_string).
  destruct (prop_run _ _ _ "arcs" _ Hx Harcs) as (arcs' & Ha & Hrepr).
  cbn [geometry]. unfold mbind, HM_bind.
  rewrite (hbind_run _ _ _ _ _ Ht). decide_type. rewrite (hbind_run _ _ _ _ _ Ha).
  apply (with_coordinates_run h (λ x, array_map x (line affine_of (HRef lt)))
           (array_in h (arcs_in h table)) (λ bs, VArr (line_coordinates <$> bs)));
    [apply map_decodes; by apply line_decodes|].
  eapply values_in; [|exact Hrepr|exact Hall]. intros. by eapply indexes_in.
Qed.

Lemma geometry_polygon rings :
  get_own x (js "type") = Ok (VStr (js "Polygon")) →
  get_own x (js "arcs") = Ok (VArr (indexes <$> rings)) →
  Forall (Forall (arc_named tablev)) rings →
  ∃ y h', geometry affine_of (HRef lt) (S fuel) o h = (Ok y, h') ∧
          repr h' y (geometry_of "Polygon" (VArr (ring_coordinates <$> rings))).
Proof.
  intros Htype Harcs Hall.
  destruct (prop_run _ _ _ "type" _ Hx Htype) as (type & Ht & ->%repr_string).
  destruct (prop_run _ _ _ "arcs" _ Hx Harcs) as (arcs' & Ha & Hrepr).
  cbn [geometry]. unfold mbind, HM_bind.
  rewrite (hbind_run _ _ _ _ _ Ht). decide_type. rewrite (hbind_run _ _ _ _ _ Ha).
  apply (with_coordinates_run h (polygon affine_of (HRef lt))
           (array_in h (arcs_in h table)) (λ bs, VArr (ring_coordinates <$> bs)));
    [apply map_decodes; by apply ring_decodes|].
  eapply values_in; [|exact Hrepr|exact Hall]. intros. by eapply indexes_in.
Qed.

Lemma geometry_multi_polygon polygons :
  get_own x (js "type") = Ok (VStr (js "MultiPolygon")) →
  get_own x (js "arcs") = Ok (VArr ((λ rings, VArr (indexes <$> rings)) <$> polygons)) →
  Forall (Forall (Forall (arc_named tablev))) polygons →
  ∃ y h', geometry affine_of (HRef lt) (S fuel) o h = (Ok y, h') ∧
          repr h' y (geometry_of "MultiPolygon"
                       (VArr ((λ rings, VArr (ring_coordinates <$> rings)) <$> polygons))).
Proof.
  intros Htype Harcs Hall.
  destruct (prop_run _ _ _ "type" _ Hx Htype) as (type & Ht & ->%repr_string).
  destruct (prop_run _ _ _ "arcs" _ Hx Harcs) as (arcs' & Ha & Hrepr).
  cbn [geometry]. unfold mbind, HM_bind.
  rewrite (hbind_run _ _ _ _ _ Ht). decide_type. rewrite (hbind_run _ _ _ _ _ Ha).
  apply (with_coordinates_run h (λ x, array_map x (polygon affine_of (HRef lt)))
           (array_in h (array_in h (arcs_in h table)))
           (λ polygons, VArr ((λ rings, VArr (ring_coordinates <$> rings)) <$> polygons)));
    [apply map_decodes; apply map_decodes; by apply ring_decodes|].
  eapply values_in; [|exact Hrepr|exact Hall]. intros y rings Hy Hrings.
  eapply values_in; [|exact Hy|exact Hrings]. intros. by eapply indexes_in.
Qed.

Lemma geometry_point d :
  get_own x (js "type") = Ok (VStr (js "Point")) →
  get_own x (js "coordinates") = Ok (point_value d) →
  ∃ y h', geometry affine_of (HRef lt) (S fuel) o h = (Ok y, h') ∧
          repr h' y (geometry_of "Point" (point_value (placed d))).
Proof.
  intros Htype Hc.
  destruct (prop_run _ _ _ "type" _ Hx Htype) as (type & Ht & ->%repr_string).
  destruct (prop_run _ _ _ "coordinates" _ Hx Hc) as (c & Ha & Hrepr).
  cbn [geometry]. unfold mbind, HM_bind.
  rewrite (hbind_run _ _ _ _ _ Ht). decide_type. rewrite (hbind_run _ _ _ _ _ Ha).
  apply (with_coordinates_run h (point affine_of) (point_in h) (point_value ∘ placed));
    [apply point_decodes|by apply point_repr].
Qed.

Lemma geometry_multi_point ds :
  get_own x (js "type") = Ok (VStr (js "MultiPoint")) →
  get_own x (js "coordinates") = Ok (VArr (point_value <$> ds)) →
  ∃ y h', geometry affine_of (HRef lt) (S fuel) o h = (Ok y, h') ∧
          repr h' y (geometry_of "MultiPoint" (VArr (point_value ∘ placed <$> ds))).
Proof.
  intros Htype Hc.
  destruct (prop_run _ _ _ "type" _ Hx Htype) as (type & Ht & ->%repr_string).
  destruct (prop_run _ _ _ "coordinates" _ Hx Hc) as (c & Ha & Hrepr).
  cbn [geometry]. unfold mbind, HM_bind.
  rewrite (hbind_run _ _ _ _ _ Ht). decide_type. rewrite (hbind_run _ _ _ _ _ Ha).
  apply (with_coordinates_run h (λ x, array_map x (point affine_of))
           (array_in h (point_in h)) (λ ds, VArr (point_value ∘ placed <$> ds)));
    [apply map_decodes, point_decodes|].
  eapply (values_in h _ point_value (λ _, True)); [|exact Hrepr|by apply Forall_true].
  intros y d Hy _. by apply point_repr.
Qed.

Lemma geometry_unknown type :
  get_own x (js "type") = Ok type →
  Forall (λ t, type ≠ VStr (js t)) geometry_types →
  geometry affine_of (HRef lt) (S fuel) o h = (Ok HNull, h).
Proof.
  intros Htype Hunknown.
  destruct (prop_run _ _ _ "type" _ Hx Htype) as (ty & Ht & Hrepr).
  assert (∀ t, t ∈ geometry_types → is_string ty t = false) as Hnot.
  { intros s Hin. rewrite Forall_forall in Hunknown.
    destruct (is_string ty s) eqn:Hs; [|done].
    apply (is_string_repr _ _ _ _ Hrepr) in Hs. by destruct (Hunknown s Hin). }
  cbn [geometry]. unfold mbind, HM_bind. rewrite (hbind_run _ _ _ _ _ Ht).
  by rewrite !Hnot by (apply (bool_decide_unpack _); by vm_compute).
Qed.

End Geometry.

(** The geometry of an object of the document, by its type; [table] is
    the arc table of the document. *)
Inductive decoded (table : list (value num)) : value num → value num → Prop :=
| decoded_point x d :
    get_own x (js "type") = Ok (VStr (js "Point")) →
    get_own x (js "coordinates") = Ok (point_value d) →
    decoded table x (geometry_of "Point" (point_value (placed d)))
| decoded_multi_point x ds :
    get_own x (js "type") = Ok (VStr (js "MultiPoint")) →
    get_own x (js "coordinates") = Ok (VArr (point_value <$> ds)) →
    decoded table x (geometry_of "MultiPoint" (VArr (point_value ∘ placed <$> ds)))
| decoded_line_string x arcs :
    get_own x (js "type") = Ok (VStr (js "LineString")) →
    get_own x (js "arcs") = Ok (indexes arcs) →
    Forall (arc_named table) arcs →
    decoded table x (geometry_of "LineString" (line_coordinates arcs))
| decoded_multi_line_string x lines :
    get_own x (js "type") = Ok (VStr (js "MultiLineString")) →
    get_own x (js "arcs") = Ok (VArr (indexes <$> lines)) →
    Forall (Forall (arc_named table)) lines →
    decoded table x (geometry_of "MultiLineString" (VArr (line_coordinates <$> lines)))
| decoded_polygon x rings :
    get_own x (js "type") = Ok (VStr (js "Polygon")) →
    get_own x (js "arcs") = Ok (VArr (indexes <$> rings)) →
    Forall (Forall (arc_named table)) rings →
    decoded table x (geometry_of "Polygon" (VArr (ring_coordinates <$> rings)))
| decoded_multi_polygon x polygons :
    get_own x (js "type") = Ok (VStr (js "MultiPolygon")) →
    get_own x (js "arcs")
      = Ok (VArr ((λ rings, VArr (indexes <$> rings)) <$> polygons)) →
    Forall (Forall (Forall (arc_named table))) polygons →
    decoded table x
      (geometry_of "MultiPolygon"
         (VArr ((λ rings, VArr (ring_coordinates <$> rings)) <$> polygons)))
| decoded_unknown x type :
    get_own x (js "type") = Ok type →
    Forall (λ t, type ≠ VStr (js t)) geometry_types →
    decoded table x VNull.

Lemma geometry_decoded h o x fuel lt table tablev g :
  repr h o x → h !! lt = Some (CArr table) → Forall2 (repr h) table tablev →
  decoded tablev x g →
  ∃ y h', geometry affine_of (HRef lt) (S fuel) o h = (Ok y, h') ∧ repr h' y g.
Proof.
  intros Hx Hlt Htable. destruct 1.
  - by eapply geometry_point.
  - by eapply geometry_multi_point.
  - by eapply geometry_line_string.
  - by eapply geometry_multi_line_string.
  - by eapply geometry_polygon.
  - by eapply geometry_multi_polygon.
  - exists HNull, h. split; [by eapply geometry_unknown|by exists 0].
Qed.

(** [object], when [geometry] decodes the object with the transform and
    the arcs of the document. *)
Lemma object_run h topology doc o table g :
  repr h topology doc →
  transform_of doc →
  get_own doc (js "arcs") = Ok (VArr table) →
  (∀ lt items, h !! lt = Some (CArr items) → Forall2 (repr h) items table →
     ∃ y h', geometry affine_of (HRef lt) (S (length h)) o h = (Ok y, h') ∧ repr h' y g) →
  ∃ y h', object topology o h = (Ok y, h') ∧ repr h' y g.
Proof.
  intros Hdoc Htr Htable Hgeom.
  destruct (transform_run h topology doc Hdoc Htr) as (t & Ht & Htp).
  destruct (prop_run _ _ _ "arcs" _ Hdoc Htable) as (arcs' & Ha & Har).
  apply repr_items in Har as (lt & items & -> & Hlt & Hitems).
  destruct (Hgeom lt items Hlt Hitems) as (y & h' & Hg & Hy).
  exists y, h'. split; [|done].
  unfold object, mbind, HM_bind.
  rewrite (hbind_run _ _ _ _ _ Ht), (hbind_run _ _ _ _ _ Htp), (hbind_run _ _ _ _ _ Ha).
  unfold hbind at 1, hlift at 1. exact Hg.
Qed.

(** *** An arc that the table has not *)

Lemma arc_at_dangling h lt table n :
  h !! lt = Some (CArr table) →
  (∀ k, arc_index n = Some k → table !! N.to_nat k = None) →
  arc_at (HRef lt) n h = (Ok HUndef, h).
Proof.
  intros Hlt Hnone. unfold arc_at, mbind, HM_bind.
  erewrite hbind_run; [|by apply array_loop_run].
  unfold mret, HM_ret, hret. do 2 f_equal.
  change (if num_ltz n then _ else _) with (arc_index n).
  destruct (arc_index n) as [k|] eqn:Hk; [|done]. cbn. by rewrite (Hnone k).
Qed.

Lemma arc_dangling pre lt table n items post :
  pre !! lt = Some (CArr table) →
  (∀ k, arc_index n = Some k → table !! N.to_nat k = None) →
  arc affine_of (HRef lt) (HNum n) (length pre) (pre ++ CArr items :: post)
    = (Throw TypeError, pre ++ CArr (removelast items) :: post).
Proof.
  intros Hlt Hnone. unfold arc, mbind, HM_bind.
  rewrite (hbind_run _ _ _ _ _ (modify_run pre items post (λ items, removelast items))).
  unfold number at 1, mret, HM_ret. unfold hbind at 1, hret at 1.
  erewrite hbind_run;
    [|apply (arc_at_dangling _ lt table); [by apply lookup_app_l_Some|done]].
  by apply hbind_throws.
Qed.

Lemma each_arc_dangling pre lt table good n rest :
  pre !! lt = Some (CArr table) →
  Forall (arc_at_table pre table) good →
  (∀ k, arc_index n = Some k → table !! N.to_nat k = None) →
  ∀ items post,
    ∃ h', each_arc affine_of (HRef lt) ((HNum ∘ fst <$> good) ++ HNum n :: rest)
            (length pre) (pre ++ CArr items :: post)
          = (Throw TypeError, h').
Proof.
  intros Hlt Hgood Hnone.
  induction Hgood as [|[m deltas] good (k & lq & ps & Hk & Hq & Hlq & Hps) _ IH];
    intros items post.
  - eexists. cbn [fmap list_fmap app each_arc]. unfold mbind, HM_bind.
    apply hbind_throws. by apply (arc_dangling pre lt table).
  - cbn [fmap list_fmap compose fst snd app each_arc] in *.
    destruct (arc_run pre lt table m k lq ps deltas items post Hlt Hk Hq Hlq Hps)
      as (refs & new & Harc & _).
    unfold mbind, HM_bind. rewrite (hbind_run _ _ _ _ _ Harc). apply IH.
Qed.

Lemma geometry_dangling h o x fuel lt table tablev good n rest :
  repr h o x → h !! lt = Some (CArr table) → Forall2 (repr h) table tablev →
  get_own x (js "type") = Ok (VStr (js "LineString")) →
  get_own x (js "arcs") = Ok (VArr ((VNum ∘ fst <$> good) ++ VNum n :: rest)) →
  Forall (arc_named tablev) good →
  (∀ k, arc_index n = Some k → tablev !! N.to_nat k = None) →
  ∃ h', geometry affine_of (HRef lt) (S fuel) o h = (Throw TypeError, h').
Proof.
  intros Hx Hlt Htable Htype Harcs Hgood Hnone.
  destruct (prop_run _ _ _ "type" _ Hx Htype) as (type & Ht & ->%repr_string).
  destruct (prop_run _ _ _ "arcs" _ Hx Harcs) as (arcs' & Ha & Hrepr).
  apply repr_items in Hrepr as (la & items & -> & Hla & Hitems).
  apply Forall2_app_inv_r in Hitems as (items1 & items2 & Hgood' & Hrest & ->).
  rewrite list_fmap_compose in Hgood'. apply numbers_repr in Hgood' as ->.
  rewrite <- list_fmap_compose in Hla.
  apply Forall2_cons_inv_r in Hrest as (y & items3 & ->%repr_number & _ & ->).
  assert (∀ k, arc_index n = Some k → table !! N.to_nat k = None) as Hnone'.
  { intros k Hk. apply lookup_ge_None. rewrite (Forall2_length _ _ _ Htable).
    apply lookup_ge_None. by apply Hnone. }
  destruct (each_arc_dangling h lt table good n items3 Hlt) with (items := @nil (hval num))
    (post := @nil (cell num)) as [h' Hrun].
  { eapply Forall_impl; [exact Hgood|]. intros [m deltas] (k & Hk & Hq).
    destruct (Forall2_lookup_r _ _ _ _ _ Htable Hq) as (q & Hqi & Hqr).
    apply repr_items in Hqr as (lq & ps & -> & Hlq & Hps).
    rewrite Forall2_fmap_r in Hps.
    exists k, lq, ps. split_and!; [done..|].
    eapply Forall2_impl; [exact Hps|]. intros p d. apply point_repr. }
  { done. }
  exists h'. cbn [geometry]. unfold mbind, HM_bind.
  rewrite (hbind_run _ _ _ _ _ Ht). decide_type. rewrite (hbind_run _ _ _ _ _ Ha).
  apply hbind_throws. unfold line, mbind, HM_bind. apply hbind_throws.
  unfold line_cell, mbind, HM_bind. unfold hbind at 1.
  erewrite hbind_run; [|apply array_loop_run; by apply lookup_app_l_Some].
  by apply hbind_throws.
Qed.

Lemma appended h h' : length h ≤ length h' → take (length h) h' = h → ∃ ext, h' = h ++ ext.
Proof.
  intros Hlen Htake. exists (drop (length h) h').
  by rewrite <- (take_drop (length h) h') at 1; rewrite Htake.
Qed.

Section Features.
Variables (topology : hval num) (doc : value num) (table : list (value num)).
Hypothesis Htr : transform_of doc.
Hypothesis Htable : get_own doc (js "arcs") = Ok (VArr table).

Lemma object_decoded h o x g :
  repr h topology doc → repr h o x → decoded table x g →
  ∃ y ext, object topology o h = (Ok y, h ++ ext) ∧ repr (h ++ ext) y g.
Proof.
  intros Hdoc Hx Hg.
  destruct (object_run h topology doc o table g Hdoc Htr Htable)
    as (y & h' & Hrun & Hy).
  { intros lt items Hlt Hitems. by eapply geometry_decoded. }
  destruct (keeps_object (length h) topology o h _ h' (le_n _) Hrun) as (Hlen & Htake & _).
  rewrite (take_ge h) in Htake by lia.
  destruct (appended h h' Hlen Htake) as [ext ->]. by exists y, ext.
Qed.

Lemma decoded_member table' x g k :
  decoded table' x g → get_own x (js k) = Ok (member_of x k).
Proof.
  intros Hg. unfold member_of.
  assert (∃ v, get_own x (js "type") = Ok v) as [v Hv] by (destruct Hg; eauto).
  by destruct x.
Qed.

Lemma new_object_repr h props vs :
  Forall2 (repr_prop h) props vs →
  repr (h ++ [CObj props]) (HRef (length h)) (VObj vs).
Proof.
  intros Hprops. destruct (reify_props h props vs [CObj props] Hprops) as [fuel Hvs].
  exists (S fuel). apply reify_object with (props := props); [|done].
  by apply list_lookup_middle.
Qed.

Lemma feature1_decoded h o x g :
  repr h topology doc → repr h o x → decoded table x g →
  ∃ r ext, feature1 topology o h = (Ok r, h ++ ext) ∧
           repr (h ++ ext) r (feature_of x g).
Proof.
  intros Hdoc Hx Hg.
  destruct (prop_run _ _ _ "id" _ Hx (decoded_member _ _ _ _ Hg)) as (id & Hid & Hidr).
  destruct (prop_run _ _ _ "bbox" _ Hx (decoded_member _ _ _ _ Hg))
    as (bbox & Hbbox & Hbboxr).
  destruct (prop_run _ _ _ "properties" _ Hx (decoded_member _ _ _ _ Hg))
    as (p0 & Hp0 & Hp0r).
  set (P := if is_nullish (member_of x "properties") then VObj []
            else member_of x "properties").
  assert (∃ properties e1,
            (if nullish p0 then new (CObj []) else hret p0) h = (Ok properties, h ++ e1) ∧
            repr (h ++ e1) properties P) as (properties & e1 & Hp & Hpr).
  { unfold P. rewrite <- (nullish_repr _ _ _ Hp0r). destruct (nullish p0).
    - exists (HRef (length h)), [CObj []]. split; [done|].
      by apply (new_object_repr h [] []).
    - exists p0, []. rewrite app_nil_r. by split. }
  destruct (object_decoded (h ++ e1) o x g) as (y & e2 & Hy & Hyr);
    [by apply repr_weaken..|done|].
  set (h2 := (h ++ e1) ++ e2) in *.
  assert (repr h2 id (member_of x "id")) as Hid2
    by (unfold h2; rewrite <- app_assoc; by apply repr_weaken).
  assert (repr h2 bbox (member_of x "bbox")) as Hbbox2
    by (unfold h2; rewrite <- app_assoc; by apply repr_weaken).
  assert (repr h2 properties P) as Hp2 by by apply repr_weaken.
  assert (repr h2 (HStr (js "Feature")) (VStr (js "Feature"))) as Hf by by exists 0.
  unfold feature1, mbind, HM_bind, mret, HM_ret.
  rewrite (hbind_run _ _ _ _ _ Hid), (hbind_run _ _ _ _ _ Hbbox).
  rewrite (hbind_run _ _ _ _ _ Hp0), (hbind_run _ _ _ _ _ Hp), (hbind_run _ _ _ _ _ Hy).
  fold h2. unfold feature_of. fold P.
  rewrite (nullish_repr _ _ _ Hidr), (nullish_repr _ _ _ Hbboxr).
  destruct (is_nullish (member_of x "id") && is_nullish (member_of x "bbox"));
    [|destruct (is_nullish (member_of x "bbox"))];
    (eexists (HRef (length h2)), (e1 ++ e2 ++ [_]); unfold new; split;
     [by rewrite !app_assoc|];
     rewrite !app_assoc; fold h2; apply new_object_repr; by repeat constructor).
Qed.

(** The features of the geometries [xs], decoded to [gs]. *)
Definition features_of (xs gs : list (value num)) : value num :=
  VObj [(js "type", VStr (js "FeatureCollection"));
        (js "features", VArr (zip_with feature_of xs gs))].

Lemma feature_collection_decoded h o x xs gs :
  repr h topology doc → repr h o x →
  get_own x (js "type") = Ok (VStr (js "GeometryCollection")) →
  get_own x (js "geometries") = Ok (VArr xs) →
  Forall2 (decoded table) xs gs →
  ∃ r h', feature topology o h = (Ok r, h') ∧ repr h' r (features_of xs gs).
Proof.
  intros Hdoc Hx Htype Hgeoms Hall.
  assert (∀ s, x ≠ VStr s) as Hnot.
  { intros s ->. cbv in Htype. discriminate. }
  destruct (prop_run _ _ _ "type" _ Hx Htype) as (ty & Hty & ->%repr_string).
  destruct (prop_run _ _ _ "geometries" _ Hx Hgeoms) as (geoms & Hgs & Hgr).
  apply repr_items in Hgr as (l & items & -> & Hl & Hitems).
  assert (decodes h (feature1 topology)
            (λ y xg, repr h y xg.1 ∧ decoded table xg.1 xg.2)
            (λ xg, feature_of xg.1 xg.2)) as Hdec.
  { intros y [x' g'] ext [Hy Hg']. cbn [fst snd] in *.
    apply feature1_decoded; [by apply repr_weaken..|done]. }
  destruct (map_decodes h _ _ _ Hdec (HRef l) (zip xs gs) []) as (fs & e & Hfs & Hfr).
  { exists l, items. split_and!; [done..|]. clear Hl Hgeoms.
    revert items Hitems. induction Hall as [|x' g' xs gs Hg' _ IH]; intros items Hitems.
    - apply Forall2_nil_inv_r in Hitems as ->. constructor.
    - apply Forall2_cons_inv_r in Hitems as (y & items' & Hy & Hitems' & ->).
      constructor; [by split|by apply IH]. }
  rewrite app_nil_r in *.
  eexists _, _. split.
  - unfold feature, mbind, HM_bind, mret, HM_ret.
    assert (match o with HStr name => named_object topology name | _ => hret o end
            = hret o) as ->.
    { destruct o as [| |b|n|s|l0]; try done.
      all: by destruct (repr_not_string _ _ _ Hx Hnot s). }
    unfold hbind at 1, hret at 1.
    rewrite (hbind_run _ _ _ _ _ Hty). decide_type.
    rewrite (hbind_run _ _ _ _ _ Hgs), (hbind_run _ _ _ _ _ Hfs). reflexivity.
  - apply new_object_repr. repeat constructor; [by exists 0|]. cbn [fst snd].
    replace (zip_with feature_of xs gs)
      with ((λ xg : value num * value num, feature_of xg.1 xg.2) <$> zip xs gs); [done|].
    clear. revert gs. induction xs as [|x' xs IH]; intros [|g' gs]; simpl; [done..|].
    by rewrite IH.
Qed.

Lemma feature_dangling h o x good n rest :
  repr h topology doc → repr h o x →
  get_own x (js "type") = Ok (VStr (js "LineString")) →
  get_own x (js "arcs") = Ok (VArr ((VNum ∘ fst <$> good) ++ VNum n :: rest)) →
  Forall (arc_named table) good →
  (∀ k, arc_index n = Some k → table !! N.to_nat k = None) →
  ∃ h', feature topology o h = (Throw TypeError, h').
Proof.
  intros Hdoc Hx Htype Harcs Hgood Hnone.
  assert (∀ s, x ≠ VStr s) as Hnot.
  { intros s ->. cbv in Htype. discriminate. }
  assert (∀ k, get_own x (js k) = Ok (member_of x k)) as Hmember.
  { intros k. unfold member_of. by destruct x. }
  destruct (prop_run _ _ _ "type" _ Hx Htype) as (ty & Hty & ->%repr_string).
  destruct (prop_run _ _ _ "id" _ Hx (Hmember _)) as (id & Hid & _).
  destruct (prop_run _ _ _ "bbox" _ Hx (Hmember _)) as (bbox & Hbbox & _).
  destruct (prop_run _ _ _ "properties" _ Hx (Hmember _)) as (p0 & Hp0 & _).
  assert (∃ properties e1,
            (if nullish p0 then new (CObj []) else hret p0) h = (Ok properties, h ++ e1))
    as (properties & e1 & Hp).
  { destruct (nullish p0); [by exists (HRef (length h)), [CObj []]|].
    exists p0, []. by rewrite app_nil_r. }
  assert (repr (h ++ e1) topology doc) as Hdoc1 by by apply repr_weaken.
  assert (repr (h ++ e1) o x) as Hx1 by by apply repr_weaken.
  destruct (transform_run (h ++ e1) topology doc Hdoc1 Htr) as (t & Ht & Htp).
  destruct (prop_run _ _ _ "arcs" _ Hdoc1 Htable) as (arcs' & Ha & Har).
  apply repr_items in Har as (lt & items & -> & Hlt & Hitems).
  destruct (geometry_dangling (h ++ e1) o x (length (h ++ e1)) lt items table good n rest
              Hx1 Hlt Hitems Htype Harcs Hgood Hnone) as [h' Hgeom].
  exists h'. unfold feature, mbind, HM_bind, mret, HM_ret.
  assert (match o with HStr name => named_object topology name | _ => hret o end
          = hret o) as ->.
  { destruct o as [| |b|m|s|l0]; try done.
    all: by destruct (repr_not_string _ _ _ Hx Hnot s). }
  unfold hbind at 1, hret at 1.
  rewrite (hbind_run _ _ _ _ _ Hty). decide_type.
  unfold feature1, mbind, HM_bind, mret, HM_ret.
  rewrite (hbind_run _ _ _ _ _ Hid), (hbind_run _ _ _ _ _ Hbbox).
  rewrite (hbind_run _ _ _ _ _ Hp0), (hbind_run _ _ _ _ _ Hp).
  apply hbind_throws. unfold object, mbind, HM_bind.
  rewrite (hbind_run _ _ _ _ _ Ht), (hbind_run _ _ _ _ _ Htp), (hbind_run _ _ _ _ _ Ha).
  unfold hbind at 1, hlift at 1. exact Hgeom.
Qed.

End Features.
End Transformed.

(** What is written for a key whose object [object] decodes to [g]. *)
Lemma decoded_geometry_is_written (disk : Fs.FS) text doc objects es w i key x type g :
  Fs.readFile disk input_path = Ok text →
  JSON.parse text = Ok doc →
  get_own doc (js "objects") = Ok objects →
  JS.Object_entries objects = Ok es →
  main disk = (Ok tt, w) →
  es.*1 !! i = Some key →
  get_own objects key = Ok x →
  get_own x (js "type") = Ok (VStr (js type)) →
  is_string (num := num) (HStr (js type)) "GeometryCollection" = false →
  (∀ h topology o, repr h topology doc → repr h o x →
     ∃ y h', object topology o h = (Ok y, h') ∧ repr h' y g) →
  ∃ content,
    written w !! i = Some (js "./data/" ++ key ++ js ".geojson", content) ∧
    JSON.stringify (feature_of x g) 2 = Some content.
Proof.
  intros Hread Hparse Hobjects Hes Hrun Hi Hx Htype Hgc Hobject.
  destruct (decoded_for_key disk text doc objects es w Hread Hparse Hobjects Hes Hrun
              i key x Hi Hx)
    as (h & o & geojson & h' & v & content & Hdoc & Hrepr & Hf & Hv & Hs & Hw).
  assert (∀ s, x ≠ VStr s) as Hnot.
  { intros s ->. cbv in Htype. discriminate. }
  destruct (prop_run _ _ _ "type" _ Hrepr Htype) as (ty & Hty & ->%repr_string).
  assert (get h o (js "type") = Ok (HStr (js type))) as Hget.
  { unfold prop, hlift in Hty. by injection Hty as ->. }
  rewrite (feature_single _ _ _ _ (repr_not_string _ _ _ Hrepr Hnot) Hget Hgc) in Hf.
  destruct (feature1_members _ _ _ _ _ _ _ _ Hrepr Hf Hv)
    as (g' & y & h4 & h5 & -> & Hobj & H4 & H5 & Hg).
  destruct (Hobject h4 _ o (repr_later _ _ _ _ Hdoc H4) (repr_later _ _ _ _ Hrepr H4))
    as (y' & h5' & Hobj' & Hy).
  rewrite Hobj in Hobj'. injection Hobj' as <- <-.
  rewrite (repr_agree _ _ _ _ Hg (repr_later _ _ _ _ Hy H5)) in Hs.
  by exists content.
Qed.

Section Written.
Variables (disk : Fs.FS) (text : jstring) (doc objects : value num).
Variables (es : list (jstring * value num)) (w : World num).
Variables (tr : option (num * num * num * num)) (table : list (value num)).
Hypothesis Hread : Fs.readFile disk input_path = Ok text.
Hypothesis Hparse : JSON.parse text = Ok doc.
Hypothesis Hobjects : get_own doc (js "objects") = Ok objects.
Hypothesis Hes : JS.Object_entries objects = Ok es.
Hypothesis Hrun : main disk = (Ok tt, w).
Hypothesis Htr : transform_of tr doc.
Hypothesis Htable : get_own doc (js "arcs") = Ok (VArr table).

(** X14.  A key whose object is a [LineString]: the coordinates written
    are the points of its arcs, arc after arc.  With a transform the
    points of an arc are the running sums of its deltas, each scaled and
    translated; without one the arc holds the points themselves.  An arc
    of a negative index [~k] is arc [k] backwards; the point where an arc
    starts, which ends the arc before it, is written once; a line left
    with fewer than two points gets its first point again.  The feature
    has the members of the object. *)
Theorem line_string_is_delta_decoded i key x arcs :
  es.*1 !! i = Some key →
  get_own objects key = Ok x →
  get_own x (js "type") = Ok (VStr (js "LineString")) →
  get_own x (js "arcs") = Ok (indexes arcs) →
  Forall (arc_named table) arcs →
  ∃ content,
    written w !! i = Some (js "./data/" ++ key ++ js ".geojson", content) ∧
    JSON.stringify
      (feature_of x (geometry_of "LineString" (line_coordinates tr arcs))) 2
      = Some content.
Proof.
  intros Hi Hx Htype Harcs Hall.
  apply (decoded_geometry_is_written disk text doc objects es w i key x "LineString");
    [done..|by vm_compute|].
  intros h topology o Hdoc Ho.
  apply (object_run tr h topology doc o table); [done..|].
  intros lt items Hlt Hitems.
  by apply (geometry_line_string tr h o x (length h) lt items table).
Qed.

(** X15.  A key whose object is a [Polygon]: each ring is decoded as a
    line is, and is filled up to four points with its first point. *)
Theorem polygon_rings_are_delta_decoded i key x rings :
  es.*1 !! i = Some key →
  get_own objects key = Ok x →
  get_own x (js "type") = Ok (VStr (js "Polygon")) →
  get_own x (js "arcs") = Ok (VArr (indexes <$> rings)) →
  Forall (Forall (arc_named table)) rings →
  ∃ content,
    written w !! i = Some (js "./data/" ++ key ++ js ".geojson", content) ∧
    JSON.stringify
      (feature_of x (geometry_of "Polygon"
                       (VArr (ring_coordinates tr <$> rings)))) 2
      = Some content.
Proof.
  intros Hi Hx Htype Harcs Hall.
  apply (decoded_geometry_is_written disk text doc objects es w i key x "Polygon");
    [done..|by vm_compute|].
  intros h topology o Hdoc Ho.
  apply (object_run tr h topology doc o table); [done..|].
  intros lt items Hlt Hitems.
  by apply (geometry_polygon tr h o x (length h) lt items table).
Qed.

(** X16.  A key whose object is a [MultiLineString]: each of its lines
    is decoded as the line of a [LineString] is. *)
Theorem multi_line_string_is_delta_decoded i key x lines :
  es.*1 !! i = Some key →
  get_own objects key = Ok x →
  get_own x (js "type") = Ok (VStr (js "MultiLineString")) →
  get_own x (js "arcs") = Ok (VArr (indexes <$> lines)) →
  Forall (Forall (arc_named table)) lines →
  ∃ content,
    written w !! i = Some (js "./data/" ++ key ++ js ".geojson", content) ∧
    JSON.stringify
      (feature_of x (geometry_of "MultiLineString"
                       (VArr (line_coordinates tr <$> lines)))) 2
      = Some content.
Proof.
  intros Hi Hx Htype Harcs Hall.
  apply (decoded_geometry_is_written disk text doc objects es w i key x "MultiLineString");
    [done..|by vm_compute|].
  intros h topology o Hdoc Ho.
  apply (object_run tr h topology doc o table); [done..|].
  intros lt items Hlt Hitems.
  by apply (geometry_multi_line_string tr h o x (length h) lt items table).
Qed.

(** X17.  A key whose object is a [MultiPolygon]: each of its polygons
    is decoded as the rings of a [Polygon] are. *)
Theorem multi_polygon_is_delta_decoded i key x polygons :
  es.*1 !! i = Some key →
  get_own objects key = Ok x →
  get_own x (js "type") = Ok (VStr (js "MultiPolygon")) →
  get_own x (js "arcs") = Ok (VArr ((λ rings, VArr (indexes <$> rings)) <$> polygons)) →
  Forall (Forall (Forall (arc_named table))) polygons →
  ∃ content,
    written w !! i = Some (js "./data/" ++ key ++ js ".geojson", content) ∧
    JSON.stringify
      (feature_of x
         (geometry_of "MultiPolygon"
            (VArr ((λ rings, VArr (ring_coordinates tr <$> rings))
                     <$> polygons)))) 2
      = Some content.
Proof.
  intros Hi Hx Htype Harcs Hall.
  apply (decoded_geometry_is_written disk text doc objects es w i key x "MultiPolygon");
    [done..|by vm_compute|].
  intros h topology o Hdoc Ho.
  apply (object_run tr h topology doc o table); [done..|].
  intros lt items Hlt Hitems.
  by apply (geometry_multi_polygon tr h o x (length h) lt items table).
Qed.

(** X18.  A key whose object is a [Point] of two numbers: with a
    transform the point is scaled and translated, without one it is
    written as it is. *)
Theorem point_is_placed i key x d :
  es.*1 !! i = Some key →
  get_own objects key = Ok x →
  get_own x (js "type") = Ok (VStr (js "Point")) →
  get_own x (js "coordinates") = Ok (point_value d) →
  ∃ content,
    written w !! i = Some (js "./data/" ++ key ++ js ".geojson", content) ∧
    JSON.stringify
      (feature_of x (geometry_of "Point" (point_value (placed tr d)))) 2
      = Some content.
Proof.
  intros Hi Hx Htype Hc.
  apply (decoded_geometry_is_written disk text doc objects es w i key x "Point");
    [done..|by vm_compute|].
  intros h topology o Hdoc Ho.
  apply (object_run tr h topology doc o table); [done..|].
  intros lt items Hlt Hitems.
  by apply (geometry_point tr h o x (length h) lt).
Qed.

(** X19.  A key whose object is a [MultiPoint]: each point is placed as
    the point of a [Point] is, by itself; the points are no deltas of one
    another. *)
Theorem multi_point_is_placed i key x ds :
  es.*1 !! i = Some key →
  get_own objects key = Ok x →
  get_own x (js "type") = Ok (VStr (js "MultiPoint")) →
  get_own x (js "coordinates") = Ok (VArr (point_value <$> ds)) →
  ∃ content,
    written w !! i = Some (js "./data/" ++ key ++ js ".geojson", content) ∧
    JSON.stringify
      (feature_of x (geometry_of "MultiPoint"
                       (VArr (point_value ∘ placed tr <$> ds)))) 2
      = Some content.
Proof.
  intros Hi Hx Htype Hc.
  apply (decoded_geometry_is_written disk text doc objects es w i key x "MultiPoint");
    [done..|by vm_compute|].
  intros h topology o Hdoc Ho.
  apply (object_run tr h topology doc o table); [done..|].
  intros lt items Hlt Hitems.
  by apply (geometry_multi_point tr h o x (length h) lt).
Qed.

(** X20.  A key whose object is a [GeometryCollection]: what is written
    is a [FeatureCollection] with one feature for each geometry, in their
    order, each with the members of its geometry and with the geometry
    decoded by its type, [null] for a type that the decoder does not
    know. *)
Theorem collection_features_are_decoded i key x xs gs :
  es.*1 !! i = Some key →
  get_own objects key = Ok x →
  get_own x (js "type") = Ok (VStr (js "GeometryCollection")) →
  get_own x (js "geometries") = Ok (VArr xs) →
  Forall2 (decoded tr table) xs gs →
  ∃ content,
    written w !! i = Some (js "./data/" ++ key ++ js ".geojson", content) ∧
    JSON.stringify (features_of xs gs) 2 = Some content.
Proof.
  intros Hi Hx Htype Hgeoms Hall.
  destruct (decoded_for_key disk text doc objects es w Hread Hparse Hobjects Hes Hrun
              i key x Hi Hx)
    as (h & o & geojson & h' & v & content & Hdoc & Hrepr & Hf & Hv & Hs & Hw).
  destruct (feature_collection_decoded tr _ doc table Htr Htable
              h o x xs gs Hdoc Hrepr Htype Hgeoms Hall) as (r & h2 & Hf' & Hr).
  rewrite Hf in Hf'. injection Hf' as <- <-.
  assert (repr h' geojson v) as Hv' by by eexists.
  rewrite (repr_agree _ _ _ _ Hv' Hr) in Hs. by exists content.
Qed.

(** X21.  A [LineString] that names an arc that the table has not stops
    the run: once the keys before its key are done and the arcs before
    that arc are decoded, the decoder throws a [TypeError]; the disk and
    the record of writes are as the keys before left them. *)
Theorem dangling_arc_is_a_type_error (before : list jstring) key after w1 x good n rest :
  es.*1 = before ++ key :: after →
  get_own objects key = Ok x →
  get_own x (js "type") = Ok (VStr (js "LineString")) →
  get_own x (js "arcs") = Ok (VArr ((VNum ∘ fst <$> good) ++ VNum n :: rest)) →
  Forall (arc_named table) good →
  (∀ k, arc_index n = Some k → table !! N.to_nat k = None) →
  steps feature (alloc doc []).1 before (mkWorld disk (alloc doc []).2 []) w1 →
  ∃ h, main disk = (Throw TypeError, mkWorld (fs w1) h (written w1)).
Proof.
  intros Hkeys Hx Htype Harcs Hgood Hnone Hpre.
  destruct (run_loop feature _ _ _ _ _ Hread Hparse Hobjects Hes) as (xs & Hxs & Heq).
  destruct (alloc doc []) as [input h0] eqn:Ha. cbn [fst snd] in *.
  apply alloc_spec in Ha as [_ Hdoc].
  destruct (steps_appends _ _ _ _ _ feature_appends Hpre) as [ext Hext].
  cbn [mem] in Hext. apply (repr_weaken _ _ _ ext) in Hdoc. rewrite <- Hext in Hdoc.
  pose proof (get_repr _ _ _ (js "objects") Hdoc) as Hget.
  rewrite Hobjects in Hget. destruct Hget as (os & Hos & Hobjs).
  pose proof (get_repr _ _ _ key Hobjs) as Hget.
  rewrite Hx in Hget. destruct Hget as (o & Ho & Hrepr).
  destruct (feature_dangling tr input doc table Htr Htable (mem w1) o x good n rest
              Hdoc Hrepr Htype Harcs Hgood Hnone) as [h Hf].
  exists h. unfold main. rewrite Heq. apply for_of_Throw. exists before, key, after, w1.
  split_and!; [congruence|done|].
  rewrite convert_entry_eq. unfold render. by rewrite Hos, Ho, Hf.
Qed.

End Written.
End ArcDecoding.

Module Shapes.
Import JS.

(** A quantized topology with an object of each type of geometry and a
    collection; the second arc ends where the first one does, the third
    one is a ring. *)
Definition text : string :=
  "{'type':'Topology','transform':{'scale':[2,3],'translate':[10,20]},
    'objects':{
      'road':{'type':'LineString','arcs':[0,-2],'properties':{'name':'A1'}},
      'lot':{'type':'Polygon','arcs':[[2]]},
      'roads':{'type':'MultiLineString','arcs':[[0],[1]]},
      'lots':{'type':'MultiPolygon','arcs':[[[2]],[[-3]]],'id':7},
      'peak':{'type':'Point','coordinates':[1,2]},
      'peaks':{'type':'MultiPoint','coordinates':[[1,2],[3,4]]},
      'all':{'type':'GeometryCollection','geometries':[
         {'type':'Polygon','arcs':[[2]],'properties':{'n':1}},
         {'type':'Point','coordinates':[1,2],'id':'p'},
         {'type':'Circle'}]}},
    'arcs':[[[1,2],[3,-1]],[[6,4],[-2,-3]],[[0,0],[4,0],[0,5],[-4,-5]]]}".

(** The same road and peak in a topology without a transform: the arcs
    hold the positions. *)
Definition plain : string :=
  "{'type':'Topology',
    'objects':{
      'road':{'type':'LineString','arcs':[0,-2]},
      'peak':{'type':'Point','coordinates':[1,2]}},
    'arcs':[[[1,2],[4,1]],[[6,4],[4,1]]]}".

(** A road along an arc that the table has and one that it has not. *)
Definition dangling : string :=
  "{'objects':{'road':{'type':'LineString','arcs':[0,5]},'b':{'type':null}},
    'arcs':[[[1,2],[4,1]]]}".

Definition quantized : option (Z * Z * Z * Z) := Some (2, 3, 10, 20)%Z.

Definition arc0 : list (Z * Z) := [(1, 2); (3, -1)]%Z.
Definition arc1 : list (Z * Z) := [(6, 4); (-2, -3)]%Z.
Definition arc2 : list (Z * Z) := [(0, 0); (4, 0); (0, 5); (-4, -5)]%Z.

Definition plain_arc0 : list (Z * Z) := [(1, 2); (4, 1)]%Z.
Definition plain_arc1 : list (Z * Z) := [(6, 4); (4, 1)]%Z.

(** The arc table of a text. *)
Definition arcs_of (text : string) : list (value Z) :=
  match get_own (Sample.document text) (js "arcs") with
  | Ok (VArr table) => table
  | _ => []
  end.

(** The object of a key. *)
Definition object_of (text key : string) : value Z :=
  match get_own (Sample.mapping text) (js key) with Ok v => v | Throw _ => VUndef end.

(** The geometries of the collection. *)
Definition geometries : list (value Z) :=
  match get_own (object_of text "all") (js "geometries") with
  | Ok (VArr xs) => xs
  | _ => []
  end.

(** The feature of an object without [id], with the properties [ps]. *)
Definition plain_feature (ps : list (jstring * value Z)) (type : string)
    (coordinates : value Z) : value Z :=
  VObj [(js "type", VStr (js "Feature")); (js "properties", VObj ps);
        (js "geometry", VObj [(js "type", VStr (js type));
                              (js "coordinates", coordinates)])].

Definition points (l : list (Z * Z)) : value Z := VArr (point_value <$> l).

Lemma sample_read (source : string) :
  Fs.readFile (Sample.with_input source) input_path = Ok (Sample.json source).
Proof. vm_compute. reflexivity. Qed.

Lemma shapes_parsed : JSON.parse (Sample.json text) = Ok (Sample.document text).
Proof. vm_compute. reflexivity. Qed.

Lemma shapes_mapped :
  get_own (Sample.document text) (js "objects") = Ok (Sample.mapping text).
Proof. vm_compute. reflexivity. Qed.

Lemma shapes_listed : JS.Object_entries (Sample.mapping text) = Ok (Sample.entries_of text).
Proof. vm_compute. reflexivity. Qed.

Lemma shapes_ran :
  main (Sample.with_input text) = (Ok tt, (main (Sample.with_input text)).2).
Proof. apply Sample.completed. vm_compute. reflexivity. Qed.

Lemma shapes_transformed : transform_of quantized (Sample.document text).
Proof.
  exists (VObj [(js "scale", VArr [VNum 2; VNum 3]);
                (js "translate", VArr [VNum 10; VNum 20])])%Z.
  split; [|split]; vm_compute; reflexivity.
Qed.

Lemma shapes_tabled :
  get_own (Sample.document text) (js "arcs") = Ok (VArr (arcs_of text)).
Proof. vm_compute. reflexivity. Qed.

Lemma arc0_named : arc_named (arcs_of text) (0%Z, arc0).
Proof. exists 0%N. split; vm_compute; reflexivity. Qed.

Lemma arc1_named : arc_named (arcs_of text) (1%Z, arc1).
Proof. exists 1%N. split; vm_compute; reflexivity. Qed.

Lemma arc1_named_backwards : arc_named (arcs_of text) ((-2)%Z, arc1).
Proof. exists 1%N. split; vm_compute; reflexivity. Qed.

Lemma arc2_named : arc_named (arcs_of text) (2%Z, arc2).
Proof. exists 2%N. split; vm_compute; reflexivity. Qed.

Lemma arc2_named_backwards : arc_named (arcs_of text) ((-3)%Z, arc2).
Proof. exists 2%N. split; vm_compute; reflexivity. Qed.

Lemma plain_parsed : JSON.parse (Sample.json plain) = Ok (Sample.document plain).
Proof. vm_compute. reflexivity. Qed.

Lemma plain_mapped :
  get_own (Sample.document plain) (js "objects") = Ok (Sample.mapping plain).
Proof. vm_compute. reflexivity. Qed.

Lemma plain_listed :
  JS.Object_entries (Sample.mapping plain) = Ok (Sample.entries_of plain).
Proof. vm_compute. reflexivity. Qed.

Lemma plain_ran :
  main (Sample.with_input plain) = (Ok tt, (main (Sample.with_input plain)).2).
Proof. apply Sample.completed. vm_compute. reflexivity. Qed.

Lemma plain_untransformed : transform_of None (Sample.document plain).
Proof. exists VUndef. split; vm_compute; reflexivity. Qed.

Lemma plain_tabled :
  get_own (Sample.document plain) (js "arcs") = Ok (VArr (arcs_of plain)).
Proof. vm_compute. reflexivity. Qed.

Lemma plain_arc0_named : arc_named (arcs_of plain) (0%Z, plain_arc0).
Proof. exists 0%N. split; vm_compute; reflexivity. Qed.

Lemma plain_arc1_named_backwards : arc_named (arcs_of plain) ((-2)%Z, plain_arc1).
Proof. exists 1%N. split; vm_compute; reflexivity. Qed.
End Shapes.

Lemma line_string_is_delta_decoded_witness :
  (∃ content,
     written (main (num := Z) (Sample.with_input Shapes.text)).2 !! 0%nat
       = Some (js "./data/" ++ js "road" ++ js ".geojson", content) ∧
     JSON.stringify
       (Shapes.plain_feature [(js "name", JS.VStr (js "A1"))] "LineString"
          (Shapes.points [(12, 26); (18, 23); (22, 32)]%Z)) 2 = Some content) ∧
  (∃ content,
     written (main (num := Z) (Sample.with_input Shapes.plain)).2 !! 0%nat
       = Some (js "./data/" ++ js "road" ++ js ".geojson", content) ∧
     JSON.stringify
       (Shapes.plain_feature [] "LineString"
          (Shapes.points [(1, 2); (4, 1); (6, 4)]%Z)) 2 = Some content).
Proof.
  split.
  - assert ((Sample.entries_of Shapes.text).*1 !! 0%nat = Some (js "road")) as Hi
      by (vm_compute; reflexivity).
    assert (JS.get_own (Sample.mapping Shapes.text) (js "road")
            = Ok (Shapes.object_of Shapes.text "road")) as Hx by (vm_compute; reflexivity).
    assert (JS.get_own (Shapes.object_of Shapes.text "road") (js "type")
            = Ok (JS.VStr (js "LineString"))) as Htype by (vm_compute; reflexivity).
    assert (JS.get_own (Shapes.object_of Shapes.text "road") (js "arcs")
            = Ok (indexes [(0%Z, Shapes.arc0); ((-2)%Z, Shapes.arc1)])) as Harcs
      by (vm_compute; reflexivity).
    assert (Forall (arc_named (Shapes.arcs_of Shapes.text))
              [(0%Z, Shapes.arc0); ((-2)%Z, Shapes.arc1)]) as Hall.
    { constructor; [exact Shapes.arc0_named|].
      constructor; [exact Shapes.arc1_named_backwards|]. constructor. }
    exact (line_string_is_delta_decoded (Sample.with_input Shapes.text) _ _ _ _ _
             Shapes.quantized _
             (Shapes.sample_read _) Shapes.shapes_parsed Shapes.shapes_mapped
             Shapes.shapes_listed Shapes.shapes_ran Shapes.shapes_transformed
             Shapes.shapes_tabled 0%nat (js "road") _ _ Hi Hx Htype Harcs Hall).
  - assert ((Sample.entries_of Shapes.plain).*1 !! 0%nat = Some (js "road")) as Hi
      by (vm_compute; reflexivity).
    assert (JS.get_own (Sample.mapping Shapes.plain) (js "road")
            = Ok (Shapes.object_of Shapes.plain "road")) as Hx
      by (vm_compute; reflexivity).
    assert (JS.get_own (Shapes.object_of Shapes.plain "road") (js "type")
            = Ok (JS.VStr (js "LineString"))) as Htype by (vm_compute; reflexivity).
    assert (JS.get_own (Shapes.object_of Shapes.plain "road") (js "arcs")
            = Ok (indexes [(0%Z, Shapes.plain_arc0); ((-2)%Z, Shapes.plain_arc1)]))
      as Harcs by (vm_compute; reflexivity).
    assert (Forall (arc_named (Shapes.arcs_of Shapes.plain))
              [(0%Z, Shapes.plain_arc0); ((-2)%Z, Shapes.plain_arc1)]) as Hall.
    { constructor; [exact Shapes.plain_arc0_named|].
      constructor; [exact Shapes.plain_arc1_named_backwards|]. constructor. }
    exact (line_string_is_delta_decoded (Sample.with_input Shapes.plain) _ _ _ _ _
             None _
             (Shapes.sample_read _) Shapes.plain_parsed Shapes.plain_mapped
             Shapes.plain_listed Shapes.plain_ran Shapes.plain_untransformed
             Shapes.plain_tabled 0%nat (js "road") _ _ Hi Hx Htype Harcs Hall).
Defined.

Lemma polygon_rings_are_delta_decoded_witness :
  ∃ content,
    written (main (num := Z) (Sample.with_input Shapes.text)).2 !! 1%nat
      = Some (js "./data/" ++ js "lot" ++ js ".geojson", content) ∧
    JSON.stringify
      (Shapes.plain_feature [] "Polygon"
         (JS.VArr [Shapes.points [(10, 20); (18, 20); (18, 35); (10, 20)]%Z])) 2
      = Some content.
Proof.
  assert ((Sample.entries_of Shapes.text).*1 !! 1%nat = Some (js "lot")) as Hi
    by (vm_compute; reflexivity).
  assert (JS.get_own (Sample.mapping Shapes.text) (js "lot")
          = Ok (Shapes.object_of Shapes.text "lot")) as Hx by (vm_compute; reflexivity).
  assert (JS.get_own (Shapes.object_of Shapes.text "lot") (js "type")
          = Ok (JS.VStr (js "Polygon"))) as Htype by (vm_compute; reflexivity).
  assert (JS.get_own (Shapes.object_of Shapes.text "lot") (js "arcs")
          = Ok (JS.VArr (indexes <$> [[(2%Z, Shapes.arc2)]]))) as Harcs
    by (vm_compute; reflexivity).
  assert (Forall (Forall (arc_named (Shapes.arcs_of Shapes.text)))
            [[(2%Z, Shapes.arc2)]]) as Hall.
  { constructor; [|constructor]. constructor; [exact Shapes.arc2_named|constructor]. }
  exact (polygon_rings_are_delta_decoded (Sample.with_input Shapes.text) _ _ _ _ _
           Shapes.quantized _
           (Shapes.sample_read _) Shapes.shapes_parsed Shapes.shapes_mapped
           Shapes.shapes_listed Shapes.shapes_ran Shapes.shapes_transformed
           Shapes.shapes_tabled 1%nat (js "lot") _ _ Hi Hx Htype Harcs Hall).
Defined.

Lemma multi_line_string_is_delta_decoded_witness :
  ∃ content,
    written (main (num := Z) (Sample.with_input Shapes.text)).2 !! 2%nat
      = Some (js "./data/" ++ js "roads" ++ js ".geojson", content) ∧
    JSON.stringify
      (Shapes.plain_feature [] "MultiLineString"
         (JS.VArr [Shapes.points [(12, 26); (18, 23)]%Z;
                   Shapes.points [(22, 32); (18, 23)]%Z])) 2
      = Some content.
Proof.
  assert ((Sample.entries_of Shapes.text).*1 !! 2%nat = Some (js "roads")) as Hi
    by (vm_compute; reflexivity).
  assert (JS.get_own (Sample.mapping Shapes.text) (js "roads")
          = Ok (Shapes.object_of Shapes.text "roads")) as Hx by (vm_compute; reflexivity).
  assert (JS.get_own (Shapes.object_of Shapes.text "roads") (js "type")
          = Ok (JS.VStr (js "MultiLineString"))) as Htype by (vm_compute; reflexivity).
  assert (JS.get_own (Shapes.object_of Shapes.text "roads") (js "arcs")
          = Ok (JS.VArr (indexes <$> [[(0%Z, Shapes.arc0)]; [(1%Z, Shapes.arc1)]])))
    as Harcs by (vm_compute; reflexivity).
  assert (Forall (Forall (arc_named (Shapes.arcs_of Shapes.text)))
            [[(0%Z, Shapes.arc0)]; [(1%Z, Shapes.arc1)]]) as Hall.
  { constructor; [constructor; [exact Shapes.arc0_named|constructor]|].
    constructor; [constructor; [exact Shapes.arc1_named|constructor]|]. constructor. }
  exact (multi_line_string_is_delta_decoded (Sample.with_input Shapes.text) _ _ _ _ _
           Shapes.quantized _
           (Shapes.sample_read _) Shapes.shapes_parsed Shapes.shapes_mapped
           Shapes.shapes_listed Shapes.shapes_ran Shapes.shapes_transformed
           Shapes.shapes_tabled 2%nat (js "roads") _ _ Hi Hx Htype Harcs Hall).
Defined.

Lemma multi_polygon_is_delta_decoded_witness :
  ∃ content,
    written (main (num := Z) (Sample.with_input Shapes.text)).2 !! 3%nat
      = Some (js "./data/" ++ js "lots" ++ js ".geojson", content) ∧
    JSON.stringify
      (JS.VObj
         [(js "type", JS.VStr (js "Feature")); (js "id", JS.VNum 7%Z);
          (js "properties", JS.VObj []);
          (js "geometry",
           JS.VObj
             [(js "type", JS.VStr (js "MultiPolygon"));
              (js "coordinates",
               JS.VArr
                 [JS.VArr [Shapes.points [(10, 20); (18, 20); (18, 35); (10, 20)]%Z];
                  JS.VArr [Shapes.points [(10, 20); (18, 35); (18, 20); (10, 20)]%Z]])])])
      2 = Some content.
Proof.
  assert ((Sample.entries_of Shapes.text).*1 !! 3%nat = Some (js "lots")) as Hi
    by (vm_compute; reflexivity).
  assert (JS.get_own (Sample.mapping Shapes.text) (js "lots")
          = Ok (Shapes.object_of Shapes.text "lots")) as Hx by (vm_compute; reflexivity).
  assert (JS.get_own (Shapes.object_of Shapes.text "lots") (js "type")
          = Ok (JS.VStr (js "MultiPolygon"))) as Htype by (vm_compute; reflexivity).
  assert (JS.get_own (Shapes.object_of Shapes.text "lots") (js "arcs")
          = Ok (JS.VArr ((λ rings, JS.VArr (indexes <$> rings))
                           <$> [[[(2%Z, Shapes.arc2)]]; [[((-3)%Z, Shapes.arc2)]]])))
    as Harcs by (vm_compute; reflexivity).
  assert (Forall (Forall (Forall (arc_named (Shapes.arcs_of Shapes.text))))
            [[[(2%Z, Shapes.arc2)]]; [[((-3)%Z, Shapes.arc2)]]]) as Hall.
  { constructor.
    { constructor; [|constructor]. constructor; [exact Shapes.arc2_named|constructor]. }
    constructor; [|constructor].
    constructor; [|constructor].
    constructor; [exact Shapes.arc2_named_backwards|constructor]. }
  exact (multi_polygon_is_delta_decoded (Sample.with_input Shapes.text) _ _ _ _ _
           Shapes.quantized _
           (Shapes.sample_read _) Shapes.shapes_parsed Shapes.shapes_mapped
           Shapes.shapes_listed Shapes.shapes_ran Shapes.shapes_transformed
           Shapes.shapes_tabled 3%nat (js "lots") _ _ Hi Hx Htype Harcs Hall).
Defined.

Lemma point_is_placed_witness :
  (∃ content,
     written (main (num := Z) (Sample.with_input Shapes.text)).2 !! 4%nat
       = Some (js "./data/" ++ js "peak" ++ js ".geojson", content) ∧
     JSON.stringify
       (Shapes.plain_feature [] "Point" (JS.VArr [JS.VNum 12%Z; JS.VNum 26%Z])) 2
       = Some content) ∧
  (∃ content,
     written (main (num := Z) (Sample.with_input Shapes.plain)).2 !! 1%nat
       = Some (js "./data/" ++ js "peak" ++ js ".geojson", content) ∧
     JSON.stringify
       (Shapes.plain_feature [] "Point" (JS.VArr [JS.VNum 1%Z; JS.VNum 2%Z])) 2
       = Some content).
Proof.
  split.
  - assert ((Sample.entries_of Shapes.text).*1 !! 4%nat = Some (js "peak")) as Hi
      by (vm_compute; reflexivity).
    assert (JS.get_own (Sample.mapping Shapes.text) (js "peak")
            = Ok (Shapes.object_of Shapes.text "peak")) as Hx by (vm_compute; reflexivity).
    assert (JS.get_own (Shapes.object_of Shapes.text "peak") (js "type")
            = Ok (JS.VStr (js "Point"))) as Htype by (vm_compute; reflexivity).
    assert (JS.get_own (Shapes.object_of Shapes.text "peak") (js "coordinates")
            = Ok (point_value (1, 2)%Z)) as Hc by (vm_compute; reflexivity).
    exact (point_is_placed (Sample.with_input Shapes.text) _ _ _ _ _
             Shapes.quantized _
             (Shapes.sample_read _) Shapes.shapes_parsed Shapes.shapes_mapped
             Shapes.shapes_listed Shapes.shapes_ran Shapes.shapes_transformed
             Shapes.shapes_tabled 4%nat (js "peak") _ _ Hi Hx Htype Hc).
  - assert ((Sample.entries_of Shapes.plain).*1 !! 1%nat = Some (js "peak")) as Hi
      by (vm_compute; reflexivity).
    assert (JS.get_own (Sample.mapping Shapes.plain) (js "peak")
            = Ok (Shapes.object_of Shapes.plain "peak")) as Hx
      by (vm_compute; reflexivity).
    assert (JS.get_own (Shapes.object_of Shapes.plain "peak") (js "type")
            = Ok (JS.VStr (js "Point"))) as Htype by (vm_compute; reflexivity).
    assert (JS.get_own (Shapes.object_of Shapes.plain "peak") (js "coordinates")
            = Ok (point_value (1, 2)%Z)) as Hc by (vm_compute; reflexivity).
    exact (point_is_placed (Sample.with_input Shapes.plain) _ _ _ _ _
             None _
             (Shapes.sample_read _) Shapes.plain_parsed Shapes.plain_mapped
             Shapes.plain_listed Shapes.plain_ran Shapes.plain_untransformed
             Shapes.plain_tabled 1%nat (js "peak") _ _ Hi Hx Htype Hc).
Defined.

Lemma multi_point_is_placed_witness :
  ∃ content,
    written (main (num := Z) (Sample.with_input Shapes.text)).2 !! 5%nat
      = Some (js "./data/" ++ js "peaks" ++ js ".geojson", content) ∧
    JSON.stringify
      (Shapes.plain_feature [] "MultiPoint" (Shapes.points [(12, 26); (16, 32)]%Z)) 2
      = Some content.
Proof.
  assert ((Sample.entries_of Shapes.text).*1 !! 5%nat = Some (js "peaks")) as Hi
    by (vm_compute; reflexivity).
  assert (JS.get_own (Sample.mapping Shapes.text) (js "peaks")
          = Ok (Shapes.object_of Shapes.text "peaks")) as Hx by (vm_compute; reflexivity).
  assert (JS.get_own (Shapes.object_of Shapes.text "peaks") (js "type")
          = Ok (JS.VStr (js "MultiPoint"))) as Htype by (vm_compute; reflexivity).
  assert (JS.get_own (Shapes.object_of Shapes.text "peaks") (js "coordinates")
          = Ok (JS.VArr (point_value <$> [(1, 2); (3, 4)]%Z))) as Hc
    by (vm_compute; reflexivity).
  exact (multi_point_is_placed (Sample.with_input Shapes.text) _ _ _ _ _
           Shapes.quantized _
           (Shapes.sample_read _) Shapes.shapes_parsed Shapes.shapes_mapped
           Shapes.shapes_listed Shapes.shapes_ran Shapes.shapes_transformed
           Shapes.shapes_tabled 5%nat (js "peaks") _ _ Hi Hx Htype Hc).
Defined.

Lemma collection_features_are_decoded_witness :
  ∃ content,
    written (main (num := Z) (Sample.with_input Shapes.text)).2 !! 6%nat
      = Some (js "./data/" ++ js "all" ++ js ".geojson", content) ∧
    JSON.stringify
      (JS.VObj
         [(js "type", JS.VStr (js "FeatureCollection"));
          (js "features",
           JS.VArr
             [Shapes.plain_feature [(js "n", JS.VNum 1%Z)] "Polygon"
                (JS.VArr [Shapes.points [(10, 20); (18, 20); (18, 35); (10, 20)]%Z]);
              JS.VObj
                [(js "type", JS.VStr (js "Feature")); (js "id", JS.VStr (js "p"));
                 (js "properties", JS.VObj []);
                 (js "geometry",
                  JS.VObj [(js "type", JS.VStr (js "Point"));
                           (js "coordinates", JS.VArr [JS.VNum 12%Z; JS.VNum 26%Z])])];
              JS.VObj
                [(js "type", JS.VStr (js "Feature")); (js "properties", JS.VObj []);
                 (js "geometry", JS.VNull)]])]) 2
      = Some content.
Proof.
  assert ((Sample.entries_of Shapes.text).*1 !! 6%nat = Some (js "all")) as Hi
    by (vm_compute; reflexivity).
  assert (JS.get_own (Sample.mapping Shapes.text) (js "all")
          = Ok (Shapes.object_of Shapes.text "all")) as Hx by (vm_compute; reflexivity).
  assert (JS.get_own (Shapes.object_of Shapes.text "all") (js "type")
          = Ok (JS.VStr (js "GeometryCollection"))) as Htype by (vm_compute; reflexivity).
  assert (JS.get_own (Shapes.object_of Shapes.text "all") (js "geometries")
          = Ok (JS.VArr Shapes.geometries)) as Hgeoms by (vm_compute; reflexivity).
  assert (Forall2 (decoded Shapes.quantized (Shapes.arcs_of Shapes.text)) Shapes.geometries
            [geometry_of "Polygon"
               (JS.VArr (ring_coordinates Shapes.quantized <$> [[(2%Z, Shapes.arc2)]]));
             geometry_of "Point" (point_value (placed Shapes.quantized (1, 2)%Z));
             JS.VNull]) as Hall.
  { change Shapes.geometries
      with [nth 0 Shapes.geometries JS.VNull; nth 1 Shapes.geometries JS.VNull;
            nth 2 Shapes.geometries JS.VNull].
    constructor.
    { apply decoded_polygon; [vm_compute; reflexivity..|].
      constructor; [|constructor].
      constructor; [exact Shapes.arc2_named|constructor]. }
    constructor.
    { apply decoded_point; vm_compute; reflexivity. }
    constructor; [|constructor].
    apply decoded_unknown with (type := JS.VStr (js "Circle")); [vm_compute; reflexivity|].
    repeat constructor; vm_compute; discriminate. }
  exact (collection_features_are_decoded (Sample.with_input Shapes.text) _ _ _ _ _
           Shapes.quantized _
           (Shapes.sample_read _) Shapes.shapes_parsed Shapes.shapes_mapped
           Shapes.shapes_listed Shapes.shapes_ran Shapes.shapes_transformed
           Shapes.shapes_tabled 6%nat (js "all") _ _ _ Hi Hx Htype Hgeoms Hall).
Defined.

Lemma dangling_arc_is_a_type_error_witness :
  ∃ h, main (num := Z) (Sample.with_input Shapes.dangling)
       = (Throw TypeError, mkWorld (Sample.with_input Shapes.dangling) h []).
Proof.
  assert (JSON.parse (Sample.json Shapes.dangling)
          = Ok (Sample.document Shapes.dangling)) as H2 by (vm_compute; reflexivity).
  assert (JS.get_own (Sample.document Shapes.dangling) (js "objects")
          = Ok (Sample.mapping Shapes.dangling)) as H3 by (vm_compute; reflexivity).
  assert (JS.Object_entries (Sample.mapping Shapes.dangling)
          = Ok (Sample.entries_of Shapes.dangling)) as H4 by (vm_compute; reflexivity).
  assert (transform_of None (Sample.document Shapes.dangling)) as Htr.
  { exists JS.VUndef. split; vm_compute; reflexivity. }
  assert (JS.get_own (Sample.document Shapes.dangling) (js "arcs")
          = Ok (JS.VArr (Shapes.arcs_of Shapes.dangling))) as Htable
    by (vm_compute; reflexivity).
  assert ((Sample.entries_of Shapes.dangling).*1 = [] ++ js "road" :: [js "b"]) as Hkeys
    by (vm_compute; reflexivity).
  assert (JS.get_own (Sample.mapping Shapes.dangling) (js "road")
          = Ok (Shapes.object_of Shapes.dangling "road")) as Hx
    by (vm_compute; reflexivity).
  assert (JS.get_own (Shapes.object_of Shapes.dangling "road") (js "type")
          = Ok (JS.VStr (js "LineString"))) as Htype by (vm_compute; reflexivity).
  assert (JS.get_own (Shapes.object_of Shapes.dangling "road") (js "arcs")
          = Ok (JS.VArr ((JS.VNum ∘ fst <$> [(0%Z, Shapes.plain_arc0)])
                         ++ JS.VNum 5%Z :: []))) as Harcs by (vm_compute; reflexivity).
  assert (Forall (arc_named (Shapes.arcs_of Shapes.dangling)) [(0%Z, Shapes.plain_arc0)])
    as Hgood.
  { constructor; [|constructor]. exists 0%N. split; vm_compute; reflexivity. }
  assert (∀ k, arc_index 5%Z = Some k →
               Shapes.arcs_of Shapes.dangling !! N.to_nat k = None) as Hnone.
  { intros k Hk. vm_compute in Hk. injection Hk as <-. vm_compute. reflexivity. }
  exact (dangling_arc_is_a_type_error (Sample.with_input Shapes.dangling) _ _ _ _
           None _ (Shapes.sample_read _) H2 H3 H4 Htr Htable
           [] (js "road") [js "b"] _ _ _ _ _ Hkeys Hx Htype Harcs Hgood Hnone
           (steps_nil _ _ _)).
Defined.
